(** * Response-ingestion layer: robust JSON parsing, SSE reassembly,
      response normalisation

    Shallow embedding of
      - [src/lib/json-parser.ts]  (cleanJsonString, extractJsonFromText,
        partialRecovery, robustJSONParse, parseSSEData),
      - [src/lib/event-parser.ts] (parseSSELine, parseSSEEvent,
        parseSSEStream),
      - the agent utility         (normalizeResponse),
    together with the platform functions they call ([String.prototype.trim],
    [JSON.parse], [JSON.stringify], [String(v)]).

    Conventions.
      - A JavaScript string is the list of its UTF-16 code units.
      - A thrown exception is an explicit outcome ([Throw]); [try]/[catch]
        is [try_or].
      - IEEE doubles are abstracted by exact decimals [mant * 10^expo];
        rounding, overflow and the sign of zero are outside the model.
      - [new Date().toISOString()] is an input ([now]).
      - The room on the call stack is an input of the recursive function
        ([stack], the number of nested calls that fit); a call made
        without room throws a RangeError.
      - An object is its own properties together with its prototype, for
        the one object whose prototype the code can replace (the result
        of partialRecovery); every other object has the prototype it was
        created with. *)

From Stdlib Require Import String Ascii.
From Stdlib Require Import List NArith ZArith Bool Lia Arith.
Import Corelib.Init.Datatypes.
Import ListNotations.

(* ================================================================== *)
(** ** Strings as code-unit lists *)

Abbreviation char := N (only parsing).
Abbreviation jstring := (list N) (only parsing).

(** [u "abc"] is the JavaScript string with the same (ASCII) characters. *)
Definition u (s : String.string) : jstring :=
  List.map Ascii.N_of_ascii (String.list_ascii_of_string s).

Arguments u s%_string.

(** [uq s] is [u s] with every apostrophe turned into a quotation mark, to
    write JSON text down. *)
Definition uq (s : String.string) : jstring :=
  List.map (fun c => if (c =? 39)%N then 34%N else c) (u s).
Arguments uq s%_string.

Definition ch (a : Ascii.ascii) : char := Ascii.N_of_ascii a.
Arguments ch a%_char.

Definition jstring_eqb (a b : jstring) : bool :=
  if list_eq_dec N.eq_dec a b then true else false.

(** [s.startsWith(p)] *)
Fixpoint startsWith (p s : jstring) : bool :=
  match p, s with
  | [], _ => true
  | _ :: _, [] => false
  | a :: p', b :: s' => N.eqb a b && startsWith p' s'
  end.

(** [s.substring(n)] for [0 <= n] *)
Definition substring_from (n : nat) (s : jstring) : jstring := skipn n s.

(** [s.substring(a, b)] for [0 <= a <= b] *)
Definition substring (a b : nat) (s : jstring) : jstring :=
  firstn (b - a) (skipn a s).

(** ECMAScript WhiteSpace and LineTerminator code units: what [trim] strips
    and what the regular-expression class [\s] matches. *)
Definition is_js_space (c : char) : bool :=
  ((9 <=? c) && (c <=? 13) || (c =? 32) || (c =? 160) || (c =? 5760)
   || (8192 <=? c) && (c <=? 8202) || (c =? 8232) || (c =? 8233)
   || (c =? 8239) || (c =? 8287) || (c =? 12288) || (c =? 65279))%N.

Fixpoint trimStart (s : jstring) : jstring :=
  match s with
  | c :: s' => if is_js_space c then trimStart s' else s
  | [] => []
  end.

Definition trimEnd (s : jstring) : jstring := rev (trimStart (rev s)).

(** [s.trim()] *)
Definition trim (s : jstring) : jstring := trimEnd (trimStart s).

(** [s.split('\n')]: never empty, [''.split('\n')] is [['']]. *)
Fixpoint split_lines (s : jstring) : list jstring :=
  match s with
  | [] => [[]]
  | c :: s' =>
      if (c =? 10)%N then [] :: split_lines s'
      else match split_lines s' with
           | l :: ls => (c :: l) :: ls
           | [] => [[c]]
           end
  end.

(** [parts.join('\n')] *)
Fixpoint join_lines (parts : list jstring) : jstring :=
  match parts with
  | [] => []
  | [p] => p
  | p :: ps => p ++ 10%N :: join_lines ps
  end.

(* ================================================================== *)
(** ** Exceptions *)

(** [RangeError] is what a call throws when the call stack is exhausted. *)
Inductive js_error := SyntaxError | TypeError | RangeError.

Inductive exn (A : Type) : Type :=
| Ret (a : A)
| Throw (e : js_error).
Arguments Ret {A} a.
Arguments Throw {A} e.

Definition bind {A B} (m : exn A) (k : A -> exn B) : exn B :=
  match m with
  | Ret a => k a
  | Throw e => Throw e
  end.

(** [try { return attempt } catch { }] followed by [otherwise] *)
Definition try_or {A} (attempt otherwise : exn A) : exn A :=
  match attempt with
  | Ret a => Ret a
  | Throw _ => otherwise
  end.

Declare Scope exn_scope.
Delimit Scope exn_scope with exn.
Notation "x <- m ;; k" := (bind m (fun x => k))
  (at level 61, m at next level, right associativity) : exn_scope.
Local Open Scope exn_scope.

(* ================================================================== *)
(** ** JSON values *)

(** A JavaScript number that [JSON.parse] can produce, as an exact decimal
    [mant * 10^expo]; normal form: [mant = 0 -> expo = 0] and
    [mant <> 0 -> mant mod 10 <> 0]. *)
Record number := Num { mant : Z; expo : Z }.

Unset Elimination Schemes.
Inductive value :=
| VNull
| VBool (b : bool)
| VNum (n : number)
| VStr (s : jstring)
| VArr (elems : list value)
| VObj (props : list (jstring * value)).
Set Elimination Schemes.

(** Own properties of a plain object, in insertion order. (The engine lists
    integer-like keys first; no function below depends on that.) *)
Definition props := list (jstring * value).

Fixpoint lookup (k : jstring) (ps : props) : option value :=
  match ps with
  | [] => None
  | (k', v) :: ps' => if jstring_eqb k k' then Some v else lookup k ps'
  end.

(** CreateDataProperty / own-property write: an existing key keeps its
    position, a new key goes last. *)
Fixpoint set_own (k : jstring) (v : value) (ps : props) : props :=
  match ps with
  | [] => [(k, v)]
  | (k', v') :: ps' =>
      if jstring_eqb k k' then (k', v) :: ps' else (k', v') :: set_own k v ps'
  end.

Section value_induction.
Variable P : value -> Prop.
Hypothesis Pnull : P VNull.
Hypothesis Pbool : forall b, P (VBool b).
Hypothesis Pnum : forall n, P (VNum n).
Hypothesis Pstr : forall s, P (VStr s).
Hypothesis Parr : forall l, Forall P l -> P (VArr l).
Hypothesis Pobj : forall ps, Forall (fun kv => P (snd kv)) ps -> P (VObj ps).

Fixpoint value_nested_ind (v : value) : P v :=
  match v with
  | VNull => Pnull
  | VBool b => Pbool b
  | VNum n => Pnum n
  | VStr s => Pstr s
  | VArr l =>
      Parr l ((fix go (l : list value) : Forall P l :=
               match l with
               | [] => Forall_nil _
               | x :: l' => Forall_cons x (value_nested_ind x) (go l')
               end) l)
  | VObj ps =>
      Pobj ps ((fix go (ps : props) : Forall (fun kv => P (snd kv)) ps :=
               match ps with
               | [] => Forall_nil _
               | kv :: ps' =>
                   Forall_cons kv (value_nested_ind (snd kv)) (go ps')
               end) ps)
  end.
End value_induction.

Inductive jstype := TyString | TyNumber | TyBoolean | TyObject.

(** [typeof v] (for [null] it is ['object']) *)
Definition typeof (v : value) : jstype :=
  match v with
  | VNull => TyObject
  | VBool _ => TyBoolean
  | VNum _ => TyNumber
  | VStr _ => TyString
  | VArr _ => TyObject
  | VObj _ => TyObject
  end.

(** ToBoolean *)
Definition truthy (v : value) : bool :=
  match v with
  | VNull => false
  | VBool b => b
  | VNum n => negb (mant n =? 0)%Z
  | VStr s => match s with [] => false | _ => true end
  | VArr _ => true
  | VObj _ => true
  end.

(** ToBoolean of a possibly [undefined] value *)
Definition truthy_opt (o : option value) : bool :=
  match o with
  | None => false
  | Some v => truthy v
  end.

(* ================================================================== *)
(** ** Decimal digits and numbers *)

Definition is_digit (c : char) : bool := ((48 <=? c) && (c <=? 57))%N.

Definition digit_val (c : char) : N := (c - 48)%N.

Definition digit_char (d : N) : char := (d + 48)%N.

(** The longest run of decimal digits at the head of [s], and what
    follows it. *)
Fixpoint lex_digits (s : jstring) : list N * jstring :=
  match s with
  | c :: s' =>
      if is_digit c
      then let (ds, r) := lex_digits s' in (digit_val c :: ds, r)
      else ([], s)
  | [] => ([], [])
  end.

Definition digits_val (ds : list N) : N :=
  fold_left (fun acc d => (10 * acc + d)%N) ds 0%N.

Fixpoint to_digits_aux (fuel : nat) (n : N) (acc : list N) : list N :=
  match fuel with
  | O => acc
  | S f =>
      let acc' := (n mod 10)%N :: acc in
      if (n / 10 =? 0)%N then acc' else to_digits_aux f (n / 10)%N acc'
  end.

(** Decimal digits of [n], most significant first; [0] is [[0]]. *)
Definition to_digits (n : N) : list N :=
  to_digits_aux (S (N.to_nat (N.size n))) n [].

(** Divide out factors of ten (at most [fuel] of them). *)
Fixpoint strip10 (fuel : nat) (m : N) (e : Z) : N * Z :=
  match fuel with
  | O => (m, e)
  | S f =>
      if (m mod 10 =? 0)%N then strip10 f (m / 10)%N (e + 1)%Z else (m, e)
  end.

(** The number [(-1)^neg * m * 10^e], in normal form. *)
Definition make_number (neg : bool) (m : N) (e : Z) : number :=
  if (m =? 0)%N then Num 0 0
  else
    let (m', e') := strip10 (N.to_nat (N.size m)) m e in
    Num (if neg then - Z.of_N m' else Z.of_N m') e'.

(** The optional fraction of a number token: [.] and at least one
    digit. *)
Definition lex_fraction (s : jstring) : option (list N * jstring) :=
  match s with
  | c :: r =>
      if (c =? 46)%N then
        let (fp, s') := lex_digits r in
        match fp with
        | [] => None
        | _ :: _ => Some (fp, s')
        end
      else Some ([], s)
  | [] => Some ([], s)
  end.

(** The optional exponent of a number token: [e] or [E], an optional
    sign, at least one digit. *)
Definition lex_exponent (s : jstring) : option (Z * jstring) :=
  match s with
  | c :: r =>
      if (c =? 101)%N || (c =? 69)%N then
        let (eneg, r1) :=
          match r with
          | c1 :: r' =>
              if (c1 =? 45)%N then (true, r')
              else if (c1 =? 43)%N then (false, r')
              else (false, r)
          | [] => (false, r)
          end in
        let (ep, s') := lex_digits r1 in
        match ep with
        | [] => None
        | _ :: _ =>
            let e := Z.of_N (digits_val ep) in
            Some ((if eneg then - e else e)%Z, s')
        end
      else Some (0%Z, s)
  | [] => Some (0%Z, s)
  end.

(** A number token after its optional minus sign: an integer part that is
    [0] or a digit run without leading zero, then the optional fraction
    and exponent. *)
Definition parse_number_body (neg : bool) (s : jstring)
    : option (number * jstring) :=
  let (ip, s2) := lex_digits s in
  match ip with
  | [] => None
  | d :: ip' =>
      if (d =? 0)%N && negb (length ip' =? 0)%nat then None
      else
        match lex_fraction s2 with
        | None => None
        | Some (fp, s3) =>
            match lex_exponent s3 with
            | None => None
            | Some (e, s4) =>
                Some (make_number neg (digits_val (ip ++ fp))
                        (e - Z.of_nat (length fp))%Z, s4)
            end
        end
  end.

(** JSON number token. *)
Definition parse_number (s : jstring) : option (number * jstring) :=
  match s with
  | c :: r =>
      if (c =? 45)%N then parse_number_body true r
      else parse_number_body false s
  | [] => None
  end.

(** Number::toString (radix 10) on the digits [ds] of the absolute value
    and the exponent [e]: with [k] significant digits and decimal point
    position [pt], plain notation for [-6 < pt <= 21] and exponential
    notation otherwise. *)
Definition number_body (ds : jstring) (e : Z) : jstring :=
  let k := Z.of_nat (length ds) in
  let pt := (k + e)%Z in
  if ((k <=? pt) && (pt <=? 21))%Z then
    ds ++ repeat (ch "0") (Z.to_nat (pt - k))
  else if ((0 <? pt) && (pt <=? 21))%Z then
    firstn (Z.to_nat pt) ds ++ ch "." :: skipn (Z.to_nat pt) ds
  else if ((-6 <? pt) && (pt <=? 0))%Z then
    ch "0" :: ch "." :: repeat (ch "0") (Z.to_nat (- pt)) ++ ds
  else
    let ex := (pt - 1)%Z in
    let es := (if (ex <? 0)%Z then ch "-" else ch "+")
                :: List.map digit_char (to_digits (Z.abs_N ex)) in
    match ds with
    | [] => []
    | [d] => d :: ch "e" :: es
    | d :: rest => d :: ch "." :: rest ++ ch "e" :: es
    end.

Definition number_to_string (n : number) : jstring :=
  if (mant n =? 0)%Z then u "0"
  else
    let body :=
      number_body (List.map digit_char (to_digits (Z.abs_N (mant n))))
        (expo n) in
    if (mant n <? 0)%Z then ch "-" :: body else body.

(* ================================================================== *)
(** ** [JSON.parse] *)

(** JSON insignificant whitespace: tab, line feed, carriage return, space. *)
Definition is_json_ws (c : char) : bool :=
  ((c =? 9) || (c =? 10) || (c =? 13) || (c =? 32))%N.

Fixpoint skip_ws (s : jstring) : jstring :=
  match s with
  | c :: s' => if is_json_ws c then skip_ws s' else s
  | [] => []
  end.

Definition hex_val (c : char) : option N :=
  if is_digit c then Some (c - 48)%N
  else if ((97 <=? c) && (c <=? 102))%N then Some (c - 87)%N
  else if ((65 <=? c) && (c <=? 70))%N then Some (c - 55)%N
  else None.

Definition hex4 (a b c d : char) : option char :=
  match hex_val a, hex_val b, hex_val c, hex_val d with
  | Some x, Some y, Some z, Some w =>
      Some (((x * 16 + y) * 16 + z) * 16 + w)%N
  | _, _, _, _ => None
  end.

(** The character a single-letter escape stands for. *)
Definition simple_escape (c : char) : option char :=
  if (c =? 34)%N then Some 34%N          (* quotation mark *)
  else if (c =? 92)%N then Some 92%N     (* reverse solidus *)
  else if (c =? 47)%N then Some 47%N     (* solidus *)
  else if (c =? 98)%N then Some 8%N      (* backspace *)
  else if (c =? 102)%N then Some 12%N    (* form feed *)
  else if (c =? 110)%N then Some 10%N    (* line feed *)
  else if (c =? 114)%N then Some 13%N    (* carriage return *)
  else if (c =? 116)%N then Some 9%N     (* tab *)
  else None.

(** The rest of a string token, after its opening quote: the decoded
    characters and what follows the closing quote. *)
Fixpoint parse_string_body (s : jstring) : option (jstring * jstring) :=
  match s with
  | [] => None
  | c :: s' =>
      if (c =? 34)%N then Some ([], s')
      else if (c =? 92)%N then
        match s' with
        | [] => None
        | e :: s'' =>
            if (e =? 117)%N then
              match s'' with
              | h1 :: h2 :: h3 :: h4 :: s3 =>
                  match hex4 h1 h2 h3 h4 with
                  | Some cu =>
                      match parse_string_body s3 with
                      | Some (str, r) => Some (cu :: str, r)
                      | None => None
                      end
                  | None => None
                  end
              | _ => None
              end
            else
              match simple_escape e with
              | Some x =>
                  match parse_string_body s'' with
                  | Some (str, r) => Some (x :: str, r)
                  | None => None
                  end
              | None => None
              end
        end
      else if (c <? 32)%N then None
      else
        match parse_string_body s' with
        | Some (str, r) => Some (c :: str, r)
        | None => None
        end
  end.

(** Outcome of a sub-parser: a result and the unread input, a syntax
    error, or recursion budget exhausted (shown below never to happen
    with the budget [JSON_parse] gives). *)
Inductive pres (A : Type) : Type :=
| POk (a : A) (rest : jstring)
| PErr
| PFuel.
Arguments POk {A} a rest.
Arguments PErr {A}.
Arguments PFuel {A}.

Section containers.
Variable parse_val : jstring -> pres value.

(** Elements of an array after [[] and whitespace, up to and including
    the closing bracket. *)
Fixpoint parse_elements (g : nat) (s : jstring) : pres (list value) :=
  match g with
  | O => PFuel
  | S g' =>
      match parse_val s with
      | POk v r =>
          match skip_ws r with
          | c :: r2 =>
              if (c =? 44)%N then
                match parse_elements g' (skip_ws r2) with
                | POk vs r' => POk (v :: vs) r'
                | PErr => PErr
                | PFuel => PFuel
                end
              else if (c =? 93)%N then POk [v] r2
              else PErr
          | [] => PErr
          end
      | PErr => PErr
      | PFuel => PFuel
      end
  end.

(** Members of an object after [{] and whitespace, up to and including
    the closing brace. *)
Fixpoint parse_members (g : nat) (s : jstring) : pres props :=
  match g with
  | O => PFuel
  | S g' =>
      match s with
      | c :: s1 =>
          if (c =? 34)%N then
            match parse_string_body s1 with
            | Some (k, r) =>
                match skip_ws r with
                | c1 :: r1 =>
                    if (c1 =? 58)%N then
                      match parse_val (skip_ws r1) with
                      | POk v r2 =>
                          match skip_ws r2 with
                          | c2 :: r3 =>
                              if (c2 =? 44)%N then
                                match parse_members g' (skip_ws r3) with
                                | POk ms r' => POk ((k, v) :: ms) r'
                                | PErr => PErr
                                | PFuel => PFuel
                                end
                              else if (c2 =? 125)%N then POk [(k, v)] r3
                              else PErr
                          | [] => PErr
                          end
                      | PErr => PErr
                      | PFuel => PFuel
                      end
                    else PErr
                | [] => PErr
                end
            | None => PErr
            end
          else PErr
      | [] => PErr
      end
  end.
End containers.

(** Members are defined in source order; a repeated key overwrites the
    value and keeps the first position. *)
Definition build_object (ms : props) : props :=
  fold_left (fun ps kv => set_own (fst kv) (snd kv) ps) ms [].

(** One JSON value at the head of [s] (no leading whitespace). *)
Fixpoint parse_value (fuel : nat) (s : jstring) : pres value :=
  match fuel with
  | O => PFuel
  | S f =>
      match s with
      | [] => PErr
      | c :: s' =>
          if (c =? 123)%N then
            match skip_ws s' with
            | c1 :: s2 =>
                if (c1 =? 125)%N then POk (VObj []) s2
                else
                  match parse_members (parse_value f) (S (length s'))
                          (c1 :: s2) with
                  | POk ms r => POk (VObj (build_object ms)) r
                  | PErr => PErr
                  | PFuel => PFuel
                  end
            | [] => PErr
            end
          else if (c =? 91)%N then
            match skip_ws s' with
            | c1 :: s2 =>
                if (c1 =? 93)%N then POk (VArr []) s2
                else
                  match parse_elements (parse_value f) (S (length s'))
                          (c1 :: s2) with
                  | POk vs r => POk (VArr vs) r
                  | PErr => PErr
                  | PFuel => PFuel
                  end
            | [] => PErr
            end
          else if (c =? 34)%N then
            match parse_string_body s' with
            | Some (str, r) => POk (VStr str) r
            | None => PErr
            end
          else if startsWith (u "true") s then POk (VBool true) (skipn 4 s)
          else if startsWith (u "false") s then POk (VBool false) (skipn 5 s)
          else if startsWith (u "null") s then POk VNull (skipn 4 s)
          else
            match parse_number s with
            | Some (n, r) => POk (VNum n) r
            | None => PErr
            end
      end
  end.

(** [JSON.parse(text)]: one value surrounded by optional whitespace;
    anything else throws a SyntaxError. *)
Definition JSON_parse (text : jstring) : exn value :=
  match parse_value (S (length text)) (skip_ws text) with
  | POk v r =>
      match skip_ws r with
      | [] => Ret v
      | _ :: _ => Throw SyntaxError
      end
  | PErr => Throw SyntaxError
  | PFuel => Throw SyntaxError
  end.

(* ================================================================== *)
(** ** [JSON.stringify] and [String] *)

Definition hex_digit (d : N) : char :=
  if (d <? 10)%N then (d + 48)%N else (d + 87)%N.

(** [\uXXXX] with lower-case hexadecimal digits *)
Definition unicode_escape (c : char) : jstring :=
  [92; 117; hex_digit (c / 4096 mod 16); hex_digit (c / 256 mod 16);
   hex_digit (c / 16 mod 16); hex_digit (c mod 16)]%N.

Definition is_high_surrogate (c : char) : bool :=
  ((55296 <=? c) && (c <=? 56319))%N.
Definition is_low_surrogate (c : char) : bool :=
  ((56320 <=? c) && (c <=? 57343))%N.

(** QuoteJSONString without the surrounding quotes. *)
Fixpoint quote_body (s : jstring) : jstring :=
  match s with
  | [] => []
  | c :: s' =>
      if (c =? 8)%N then 92%N :: 98%N :: quote_body s'
      else if (c =? 9)%N then 92%N :: 116%N :: quote_body s'
      else if (c =? 10)%N then 92%N :: 110%N :: quote_body s'
      else if (c =? 12)%N then 92%N :: 102%N :: quote_body s'
      else if (c =? 13)%N then 92%N :: 114%N :: quote_body s'
      else if (c =? 34)%N then 92%N :: 34%N :: quote_body s'
      else if (c =? 92)%N then 92%N :: 92%N :: quote_body s'
      else if (c <? 32)%N then unicode_escape c ++ quote_body s'
      else if is_high_surrogate c then
        match s' with
        | c2 :: s'' =>
            if is_low_surrogate c2 then c :: c2 :: quote_body s''
            else unicode_escape c ++ quote_body s'
        | [] => unicode_escape c
        end
      else if is_low_surrogate c then unicode_escape c ++ quote_body s'
      else c :: quote_body s'
  end.

Definition quote (s : jstring) : jstring := 34%N :: quote_body s ++ [34%N].

Section stringify_lists.
Variable str_val : value -> jstring.

Fixpoint stringify_elements (l : list value) : jstring :=
  match l with
  | [] => []
  | [x] => str_val x
  | x :: l' => str_val x ++ 44%N :: stringify_elements l'
  end.

Definition stringify_member (kv : jstring * value) : jstring :=
  quote (fst kv) ++ 58%N :: str_val (snd kv).

Fixpoint stringify_members (ps : props) : jstring :=
  match ps with
  | [] => []
  | [kv] => stringify_member kv
  | kv :: ps' => stringify_member kv ++ 44%N :: stringify_members ps'
  end.
End stringify_lists.

(** [JSON.stringify(v)] without indentation. *)
Fixpoint JSON_stringify (v : value) : jstring :=
  match v with
  | VNull => u "null"
  | VBool true => u "true"
  | VBool false => u "false"
  | VNum n => number_to_string n
  | VStr s => quote s
  | VArr l => 91%N :: stringify_elements JSON_stringify l ++ [93%N]
  | VObj ps => 123%N :: stringify_members JSON_stringify ps ++ [125%N]
  end.

(** Whether ToString returns on [v]: on an object that has an own
    property [toString] (never callable in a JSON value) neither that
    property nor [valueOf] gives a primitive and a TypeError is thrown;
    an array is converted through its elements. *)
Fixpoint stringifiable (v : value) : bool :=
  match v with
  | VArr l =>
      (fix all (l : list value) : bool :=
         match l with
         | [] => true
         | x :: l' => stringifiable x && all l'
         end) l
  | VObj ps =>
      match lookup (u "toString") ps with
      | Some _ => false
      | None => true
      end
  | _ => true
  end.

(** The string that ToString yields where it returns ([stringifiable]):
    an array is its elements joined by commas, [null] elements giving the
    empty string. *)
Fixpoint String_of (v : value) : jstring :=
  match v with
  | VNull => u "null"
  | VBool true => u "true"
  | VBool false => u "false"
  | VNum n => number_to_string n
  | VStr s => s
  | VArr l =>
      (fix join (l : list value) : jstring :=
         match l with
         | [] => []
         | x :: l' =>
             (match x with VNull => [] | _ => String_of x end)
             ++ match l' with [] => [] | _ :: _ => 44%N :: join l' end
         end) l
  | VObj _ => u "[object Object]"
  end.

(** [String(v)] and the conversion inside a template literal. *)
Definition ToString (v : value) : exn jstring :=
  if stringifiable v then Ret (String_of v) else Throw TypeError.

(* ================================================================== *)
(** ** json-parser.ts *)

Inductive Strategy :=
| st_direct | st_cleaned | st_extracted | st_extracted_cleaned
| st_partial_recovery | st_raw_fallback | st_sse_done | st_none.

(** The prototype of an object: the built-in one it was created with,
    none, or an object or array that JSON.parse returned. *)
Inductive prototype :=
| BuiltinPrototype
| NullPrototype
| ParsedPrototype (o : value).

(** [interface ParseResult<T>]; an optional field that is not set is
    [None]. [pr_data] holds the own properties of the data;
    [pr_prototype] is the prototype of the data object, the built-in one
    unless partialRecovery built the object and a recovered [__proto__]
    pair replaced it. *)
Record ParseResult := mkParseResult {
  pr_success : bool;
  pr_data : option value;
  pr_raw : option jstring;
  pr_error : option jstring;
  pr_strategy : option Strategy;
  pr_prototype : prototype
}.

(** *** cleanJsonString *)

(** Does [s] start with [\s*[}\]]]? *)
Fixpoint closer_follows (s : jstring) : bool :=
  match s with
  | [] => false
  | c :: s' =>
      if (c =? 125)%N || (c =? 93)%N then true
      else if is_js_space c then closer_follows s'
      else false
  end.

(** [replace(/,(\s*[}\]])/g, '$1')]: every comma that is followed by
    optional white space and a closing brace or bracket is deleted. (The
    characters of a match after its comma are white space and the closer,
    none of them a comma, so resuming the scan right after the deleted
    comma gives what resuming after the whole match gives.) *)
Fixpoint strip_trailing_commas (s : jstring) : jstring :=
  match s with
  | [] => []
  | c :: s' =>
      if (c =? 44)%N && closer_follows s' then strip_trailing_commas s'
      else c :: strip_trailing_commas s'
  end.

(** [[\x00-\x08\x0B\x0C\x0E-\x1F]] *)
Definition is_control (c : char) : bool :=
  ((c <=? 8) || (c =? 11) || (c =? 12) || (14 <=? c) && (c <=? 31))%N.

(** [replace(/[\x00-\x08\x0B\x0C\x0E-\x1F]/g, '')] *)
Definition strip_control (s : jstring) : jstring :=
  filter (fun c => negb (is_control c)) s.

(** [replace(/(?<!\\)\\n/g, '\\n')]: a reverse solidus followed by [n],
    not preceded by a reverse solidus, is replaced by the two characters
    reverse solidus, [n]. [prev] is the character before [s]. *)
Fixpoint fix_newlines (prev : option char) (s : jstring) : jstring :=
  match s with
  | [] => []
  | c :: s' =>
      match s' with
      | c2 :: s'' =>
          if (c =? 92)%N && (c2 =? 110)%N
             && negb (match prev with Some p => (p =? 92)%N | None => false end)
          then 92%N :: 110%N :: fix_newlines (Some c2) s''
          else c :: fix_newlines (Some c) s'
      | [] => [c]
      end
  end.

(** [replace(/^\uFEFF/, '')] *)
Definition strip_bom (s : jstring) : jstring :=
  match s with
  | c :: s' => if (c =? 65279)%N then s' else s
  | [] => []
  end.

Definition cleanJsonString (input : jstring) : jstring :=
  let cleaned := trim input in
  let cleaned := strip_trailing_commas cleaned in
  let cleaned := strip_control cleaned in
  let cleaned := fix_newlines None cleaned in
  let cleaned := strip_bom cleaned in
  cleaned.

(** *** extractJsonFromText *)

Definition fence : jstring := [96; 96; 96]%N.

(** The text before the first occurrence of [pat] in [s], and the text
    after it. *)
Fixpoint find_sub (pat s : jstring) : option (jstring * jstring) :=
  if startsWith pat s then Some ([], skipn (length pat) s)
  else
    match s with
    | [] => None
    | c :: s' =>
        match find_sub pat s' with
        | Some (before, after) => Some (c :: before, after)
        | None => None
        end
    end.

(** [input.match(/```(?:json)?\s*([\s\S]*?)```/)], capture group 1.
    The match starts at the first fence; [json] and the white space after
    it hold no backquote, so the lazy group ends at the first fence that
    follows them, and a later start cannot succeed where the first fails. *)
Definition match_code_block (input : jstring) : option jstring :=
  match find_sub fence input with
  | None => None
  | Some (_, after) =>
      let after := if startsWith (u "json") after then skipn 4 after
                   else after in
      let after := trimStart after in
      match find_sub fence after with
      | Some (body, _) => Some body
      | None => None
      end
  end.

(** [/<open>[\s\S]*<close>/] matches when some [open] has a [close]
    somewhere after it. *)
Fixpoint has_open_then_close (open close : char) (s : jstring) : bool :=
  match s with
  | [] => false
  | c :: s' =>
      if (c =? open)%N && existsb (N.eqb close) s' then true
      else has_open_then_close open close s'
  end.

(** The depth-counting loop, from index [i] on; [start] and the result
    [end] use [-1] for "not found". *)
Fixpoint balanced_scan (open close : char) (s : jstring)
    (i depth start : Z) : Z * Z :=
  match s with
  | [] => (start, (-1)%Z)
  | c :: s' =>
      if (c =? open)%N then
        let start := if (depth =? 0)%Z then i else start in
        balanced_scan open close s' (i + 1)%Z (depth + 1)%Z start
      else if (c =? close)%N then
        let depth := (depth - 1)%Z in
        if (depth =? 0)%Z then (start, (i + 1)%Z)
        else balanced_scan open close s' (i + 1)%Z depth start
      else balanced_scan open close s' (i + 1)%Z depth start
  end.

Definition balanced_span (open close : char) (input : jstring)
    : option jstring :=
  if has_open_then_close open close input then
    let (start, end_) := balanced_scan open close input 0%Z 0%Z (-1)%Z in
    if negb (start =? -1)%Z && negb (end_ =? -1)%Z
    then Some (substring (Z.to_nat start) (Z.to_nat end_) input)
    else None
  else None.

(** [null] is [None]. *)
Definition extractJsonFromText (input : jstring) : option jstring :=
  match match_code_block input with
  | Some body => Some (trim body)
  | None =>
      match balanced_span 123%N 125%N input with
      | Some span => Some span
      | None => balanced_span 91%N 93%N input
      end
  end.

(** *** partialRecovery *)

(** [.] in a regular expression without the [s] flag: any character but a
    line terminator. *)
Definition is_line_terminator (c : char) : bool :=
  ((c =? 10) || (c =? 13) || (c =? 8232) || (c =? 8233))%N.

(** The characters before the first quotation mark, and what follows it. *)
Fixpoint until_quote (s : jstring) : option (jstring * jstring) :=
  match s with
  | [] => None
  | c :: s' =>
      if (c =? 34)%N then Some ([], s')
      else match until_quote s' with
           | Some (k, r) => Some (c :: k, r)
           | None => None
           end
  end.

(** The quoted-string alternative of [kvPattern] after its opening
    quotation mark: characters other than quotation mark and reverse
    solidus, or a reverse solidus and any character but a line terminator,
    repeated, then a quotation mark. Yields the matched text up to and
    including the closing quotation mark, and what follows. *)
Fixpoint kv_string_tail (s : jstring) : option (jstring * jstring) :=
  match s with
  | [] => None
  | c :: s' =>
      if (c =? 34)%N then Some ([c], s')
      else if (c =? 92)%N then
        match s' with
        | c2 :: s'' =>
            if is_line_terminator c2 then None
            else match kv_string_tail s'' with
                 | Some (m, r) => Some (c :: c2 :: m, r)
                 | None => None
                 end
        | [] => None
        end
      else match kv_string_tail s' with
           | Some (m, r) => Some (c :: m, r)
           | None => None
           end
  end.

(** The longest run of decimal digit characters. *)
Fixpoint take_digits (s : jstring) : jstring * jstring :=
  match s with
  | c :: s' =>
      if is_digit c then let (ds, r) := take_digits s' in (c :: ds, r)
      else ([], s)
  | [] => ([], [])
  end.

(** [\[[\s\S]*?\]] / [\{[\s\S]*?\}] after the opener: up to and including
    the first closer. *)
Fixpoint until_closer (close : char) (s : jstring)
    : option (jstring * jstring) :=
  match s with
  | [] => None
  | c :: s' =>
      if (c =? close)%N then Some ([c], s')
      else match until_closer close s' with
           | Some (m, r) => Some (c :: m, r)
           | None => None
           end
  end.

(** The value alternatives of [kvPattern] (capture group 2), tried at the
    head of [s]: the matched text and what follows it. *)
Definition match_kv_value (s : jstring) : option (jstring * jstring) :=
  match s with
  | [] => None
  | c :: s' =>
      if (c =? 34)%N then
        match kv_string_tail s' with
        | Some (m, r) => Some (c :: m, r)
        | None => None
        end
      else if startsWith (u "true") s then Some (u "true", skipn 4 s)
      else if startsWith (u "false") s then Some (u "false", skipn 5 s)
      else if startsWith (u "null") s then Some (u "null", skipn 4 s)
      else if is_digit c then
        let (ds, r) := take_digits s in
        match r with
        | c1 :: r1 =>
            if (c1 =? 46)%N then
              let (fs, r2) := take_digits r1 in
              match fs with
              | [] => Some (ds, r)
              | _ :: _ => Some (ds ++ c1 :: fs, r2)
              end
            else Some (ds, r)
        | [] => Some (ds, r)
        end
      else if (c =? 91)%N then
        match until_closer 93%N s' with
        | Some (m, r) => Some (c :: m, r)
        | None => None
        end
      else if (c =? 123)%N then
        match until_closer 125%N s' with
        | Some (m, r) => Some (c :: m, r)
        | None => None
        end
      else None
  end.

(** [kvPattern] tried at the head of [s]: capture groups 1 and 2 and the
    text after the match. *)
Definition match_kv (s : jstring) : option (jstring * jstring * jstring) :=
  match s with
  | c :: s1 =>
      if (c =? 34)%N then
        match until_quote s1 with
        | Some (key, r) =>
            match key with
            | [] => None
            | _ :: _ =>
                match trimStart r with
                | c1 :: r1 =>
                    if (c1 =? 58)%N then
                      match match_kv_value (trimStart r1) with
                      | Some (v, rest) => Some (key, v, rest)
                      | None => None
                      end
                    else None
                | [] => None
                end
            end
        | None => None
        end
      else None
  | [] => None
  end.

(** The successive matches of [kvPattern.exec(input)]: the pattern is tried
    at each position in turn; after a match the search resumes at its end
    ([skip] counts the characters of the last match still to pass). *)
Fixpoint kv_matches (skip : nat) (s : jstring) : list (jstring * jstring) :=
  match s with
  | [] => []
  | _ :: s' =>
      match skip with
      | S k => kv_matches k s'
      | O =>
          match match_kv s with
          | Some (key, v, rest) =>
              (key, v) :: kv_matches (length s - length rest - 1) s'
          | None => kv_matches 0 s'
          end
      end
  end.

(** [valueStr.replace(re, '')] where [re] removes a quotation mark at
    the very start and one at the very end. *)
Definition strip_quotes (s : jstring) : jstring :=
  let s1 := match s with
            | c :: s' => if (c =? 34)%N then s' else s
            | [] => []
            end in
  match rev s1 with
  | c :: r => if (c =? 34)%N then rev r else s1
  | [] => []
  end.

(** [result[key] = v] on the object partialRecovery builds, given as its
    prototype and its own properties. Every property that a key other
    than [__proto__] can find along the prototype chain is a writable data
    property, so the write creates or updates an own property. For
    [__proto__] the same holds when the object has that own property,
    when its prototype is a parsed object with that own property
    (JSON.parse creates it as a data property) and when the chain is
    empty; otherwise the write reaches the accessor of Object.prototype,
    whose setter replaces the prototype by an object, an array or [null]
    and ignores every other value. *)
Definition assign_prop (k : jstring) (v : value) (result : prototype * props)
    : prototype * props :=
  let (proto, ps) := result in
  if negb (jstring_eqb k (u "__proto__")) then (proto, set_own k v ps)
  else
    let own := match lookup k ps with Some _ => true | None => false end in
    let data_on_chain :=
      match proto with
      | BuiltinPrototype => false
      | NullPrototype => true
      | ParsedPrototype (VObj o) =>
          match lookup k o with Some _ => true | None => false end
      | ParsedPrototype _ => false
      end in
    if own || data_on_chain then (proto, set_own k v ps)
    else
      match v with
      | VNull => (NullPrototype, ps)
      | VObj _ | VArr _ => (ParsedPrototype v, ps)
      | _ => (proto, ps)
      end.

Definition recovered_value (valueStr : jstring) : value :=
  match JSON_parse valueStr with
  | Ret v => v
  | Throw _ => VStr (strip_quotes valueStr)
  end.

(** [null] is [None]. *)
Definition partialRecovery (input : jstring)
    : option (prototype * props) :=
  let ms := kv_matches 0 input in
  let result :=
    fold_left (fun result m => assign_prop (fst m) (recovered_value (snd m)) result)
      ms (BuiltinPrototype, []) in
  match ms with
  | [] => None
  | _ :: _ => Some result
  end.

(** *** robustJSONParse *)

Definition robustJSONParse (input : jstring) : exn ParseResult :=
  match input with
  | [] =>
      Ret (mkParseResult false None (Some input)
             (Some (u "Invalid input: expected string")) (Some st_none)
             BuiltinPrototype)
  | _ :: _ =>
      let trimmed := trim input in
      (* Strategy 1: direct parse *)
      try_or (data <- JSON_parse trimmed ;;
              Ret (mkParseResult true (Some data) None None (Some st_direct)
                     BuiltinPrototype))
      ((* Strategy 2: clean and parse *)
       try_or (let cleaned := cleanJsonString trimmed in
               data <- JSON_parse cleaned ;;
               Ret (mkParseResult true (Some data) None None (Some st_cleaned)
                      BuiltinPrototype))
       ((* Strategy 3: extract JSON from text *)
        let extracted := extractJsonFromText trimmed in
        let strategy4 :=
          (* Strategy 4: partial recovery *)
          let partial := partialRecovery trimmed in
          match partial with
          | Some (proto, ((_ :: _) as ps)) =>
              Ret (mkParseResult true (Some (VObj ps)) None None
                     (Some st_partial_recovery) proto)
          | _ =>
              (* Strategy 5: raw text fallback *)
              Ret (mkParseResult false None (Some trimmed)
                     (Some (u "All parsing strategies failed"))
                     (Some st_raw_fallback) BuiltinPrototype)
          end in
        match extracted with
        | Some ((_ :: _) as ex) =>
            try_or (data <- JSON_parse ex ;;
                    Ret (mkParseResult true (Some data) None None
                           (Some st_extracted) BuiltinPrototype))
            (try_or (let cleanedExtracted := cleanJsonString ex in
                     data <- JSON_parse cleanedExtracted ;;
                     Ret (mkParseResult true (Some data) None None
                            (Some st_extracted_cleaned) BuiltinPrototype))
               strategy4)
        | _ => strategy4
        end))
  end.

(** *** parseSSEData *)

Definition parseSSEData (data : jstring) : exn ParseResult :=
  let data := if startsWith (u "data: ") data then substring_from 6 data
              else data in
  if jstring_eqb data (u "[DONE]") then
    Ret (mkParseResult true (Some (VObj [(u "done", VBool true)])) None None
           (Some st_sse_done) BuiltinPrototype)
  else robustJSONParse data.

(* ================================================================== *)
(** ** event-parser.ts *)

(** An object whose named properties the event parser reads and writes:
    a plain object, an array together with the named properties added to
    it, or the object partialRecovery built with the prototype that a
    recovered [__proto__] pair gave it. The names used ([type],
    [request_id], [timestamp] and the names the event helpers read) are
    neither array indices nor [length], nor inherited from a built-in
    prototype. *)
Inductive jsobject :=
| PlainObject (ps : props)
| ArrayObject (elems : list value) (named : props)
| RecoveredObject (proto : prototype) (own : props).

Definition to_object (v : value) : option jsobject :=
  match v with
  | VObj ps => Some (PlainObject ps)
  | VArr l => Some (ArrayObject l [])
  | _ => None
  end.

(** The object that the data of a ParseResult is, given the prototype
    the result records for it. *)
Definition event_object (proto : prototype) (d : value) : option jsobject :=
  match d with
  | VObj ps =>
      Some (match proto with
            | BuiltinPrototype => PlainObject ps
            | _ => RecoveredObject proto ps
            end)
  | VArr l => Some (ArrayObject l [])
  | _ => None
  end.

(** [o.k]; [undefined] is [None]. An own property comes first, then the
    properties of a parsed prototype. *)
Definition get_named (k : jstring) (o : jsobject) : option value :=
  match o with
  | PlainObject ps => lookup k ps
  | ArrayObject _ named => lookup k named
  | RecoveredObject proto own =>
      match lookup k own with
      | Some v => Some v
      | None =>
          match proto with
          | ParsedPrototype (VObj ps) => lookup k ps
          | _ => None
          end
      end
  end.

(** [o.k = v]: what the name finds along the prototype chain, if
    anything, is a writable data property, so an own property is created
    or updated. *)
Definition set_named (k : jstring) (v : value) (o : jsobject) : jsobject :=
  match o with
  | PlainObject ps => PlainObject (set_own k v ps)
  | ArrayObject l named => ArrayObject l (set_own k v named)
  | RecoveredObject proto own => RecoveredObject proto (set_own k v own)
  end.

(** [interface ParsedSSEEvent] *)
Record ParsedSSEEvent := mkParsedSSEEvent {
  ev_success : bool;
  ev_event : option jsobject;
  ev_eventType : option value;
  ev_raw : option jstring;
  ev_error : option jstring;
  ev_parseStrategy : option Strategy
}.

Inductive SSELineType := line_event | line_data | line_other.

(** *** parseSSELine *)

Definition parseSSELine (line : jstring) : SSELineType * jstring :=
  if startsWith (u "event: ") line then
    (line_event, trim (substring_from 7 line))
  else if startsWith (u "data: ") line then
    (line_data, substring_from 6 line)
  else (line_other, line).

(** [a || b] on strings: [a] unless it is absent or empty. *)
Definition or_string (a : option jstring) (b : jstring) : jstring :=
  match a with
  | Some ((_ :: _) as s) => s
  | _ => b
  end.

(** *** parseSSEEvent

    [now] is what [new Date().toISOString()] returns during the call. The
    file is an ES module, hence strict-mode code: assigning a property on
    a primitive throws a TypeError. *)
Section parseSSEEvent.
(** [import { robustJSONParse } from './json-parser'] *)
Variable robustJSONParse : jstring -> exn ParseResult.

Definition parseSSEEvent_with (now : jstring) (eventType data : jstring)
    (requestId : option jstring) : exn ParsedSSEEvent :=
  (* Handle [DONE] marker *)
  if jstring_eqb data (u "[DONE]") then
    Ret (mkParsedSSEEvent true
           (Some (PlainObject
                    [(u "type", VStr (u "chat_completed"));
                     (u "request_id", VStr (or_string requestId []));
                     (u "timestamp", VStr now)]))
           (Some (VStr (u "chat_completed"))) None None None)
  else
    (* Use robust JSON parser *)
    parseResult <- robustJSONParse data ;;
    let failure :=
      (* Parse failed - return error event *)
      Ret (mkParsedSSEEvent false None
             (Some (VStr (u "parse_error")))
             (Some (or_string (pr_raw parseResult) data))
             (Some (or_string (pr_error parseResult)
                      (u "Failed to parse SSE data")))
             (pr_strategy parseResult)) in
    if pr_success parseResult && truthy_opt (pr_data parseResult) then
      match pr_data parseResult with
      | None => failure
      | Some d =>
          match event_object (pr_prototype parseResult) d with
          | None =>
              (* a truthy primitive: [eventData.type] is undefined and
                 [eventData.type = eventType] throws *)
              Throw TypeError
          | Some eventData =>
              (* Ensure type field is set *)
              let eventData :=
                if negb (truthy_opt (get_named (u "type") eventData))
                then set_named (u "type") (VStr eventType) eventData
                else eventData in
              (* Ensure required fields *)
              let eventData :=
                if negb (truthy_opt (get_named (u "request_id") eventData))
                   && negb (jstring_eqb (or_string requestId []) [])
                then set_named (u "request_id")
                       (VStr (or_string requestId [])) eventData
                else eventData in
              let eventData :=
                if negb (truthy_opt (get_named (u "timestamp") eventData))
                then set_named (u "timestamp") (VStr now) eventData
                else eventData in
              Ret (mkParsedSSEEvent true (Some eventData)
                     (Some (match get_named (u "type") eventData with
                            | Some t =>
                                if truthy t then t else VStr eventType
                            | None => VStr eventType
                            end))
                     None None (pr_strategy parseResult))
          end
      end
    else failure.
End parseSSEEvent.

Definition parseSSEEvent := parseSSEEvent_with robustJSONParse.

(** *** parseSSEStream

    [now i] is the clock reading while the event with index [i] is
    built. *)
Section stream.
Variable now : nat -> jstring.
Variable requestId : option jstring.

(** The body shared by the blank-line branch and the code after the
    loop: push one event when data lines were collected. *)
Definition flush_frame (events : list ParsedSSEEvent)
    (currentEventType : option jstring) (currentData : list jstring)
    : exn (list ParsedSSEEvent) :=
  match currentData with
  | [] => Ret events
  | _ :: _ =>
      let data := join_lines currentData in
      let eventType := or_string currentEventType (u "message") in
      ev <- parseSSEEvent (now (length events)) eventType data requestId ;;
      Ret (events ++ [ev])
  end.

Fixpoint stream_loop (lines : list jstring) (events : list ParsedSSEEvent)
    (currentEventType : option jstring) (currentData : list jstring)
    : exn (list ParsedSSEEvent) :=
  match lines with
  | [] =>
      (* Handle remaining data *)
      flush_frame events currentEventType currentData
  | line :: lines' =>
      if jstring_eqb (trim line) [] then
        (* Empty line = end of event *)
        events <- flush_frame events currentEventType currentData ;;
        stream_loop lines' events None []
      else
        let parsed := parseSSELine line in
        match fst parsed with
        | line_event =>
            stream_loop lines' events (Some (snd parsed)) currentData
        | line_data =>
            stream_loop lines' events currentEventType
              (currentData ++ [snd parsed])
        | line_other =>
            stream_loop lines' events currentEventType currentData
        end
  end.

Definition parseSSEStream (rawSSE : jstring) : exn (list ParsedSSEEvent) :=
  stream_loop (split_lines rawSSE) [] None [].
End stream.

(* ================================================================== *)
(** ** normalizeResponse (agent utility) *)

Inductive AgentStatus := status_success | status_error.

(** [interface NormalizedAgentResponse]; a property whose value is
    [undefined] is [None]. *)
Record NormalizedAgentResponse := mkNormalized {
  status : AgentStatus;
  result : value;
  message : option value;
  metadata : option value
}.

(** [k in v]; throws on a primitive. [k] ranges over the names the code
    uses ([status], [result], [message], [response]): none is an array
    index, [length] or an inherited name, so an array has none of them. *)
Definition js_in (k : jstring) (v : value) : exn bool :=
  match v with
  | VObj ps => Ret (match lookup k ps with Some _ => true | None => false end)
  | VArr _ => Ret false
  | _ => Throw TypeError
  end.

(** [v.k]; throws on [null]. *)
Definition js_get (k : jstring) (v : value) : exn (option value) :=
  match v with
  | VNull => Throw TypeError
  | VObj ps => Ret (lookup k ps)
  | _ => Ret None
  end.

(** [const { status, message, metadata, ...rest } = parsed] *)
Definition rest_props (parsed : value) : props :=
  match parsed with
  | VObj ps =>
      filter (fun kv => negb (jstring_eqb (fst kv) (u "status")
                              || jstring_eqb (fst kv) (u "message")
                              || jstring_eqb (fst kv) (u "metadata"))) ps
  | _ => []
  end.

(** [s === 'error' ? 'error' : 'success'] *)
Definition status_of (s : option value) : AgentStatus :=
  match s with
  | Some (VStr e) => if jstring_eqb e (u "error") then status_error
                     else status_success
  | _ => status_success
  end.

Definition empty_response : NormalizedAgentResponse :=
  mkNormalized status_error (VObj [])
    (Some (VStr (u "Empty response from agent"))) None.

Definition is_string (o : option value) : bool :=
  match o with
  | Some (VStr _) => true
  | _ => false
  end.

Section normalize_body.
(** The outcome of the recursive call [normalizeResponse(parsed.response)]. *)
Variable on_response : exn NormalizedAgentResponse.

Definition normalize_body (parsed : value) : exn NormalizedAgentResponse :=
  (* If null/undefined, return error structure *)
  if negb (truthy parsed) then Ret empty_response
  else
  (* If it's a string, wrap it *)
  match typeof parsed with
  | TyString =>
      Ret (mkNormalized status_success (VObj [(u "text", parsed)])
             (Some parsed) None)
  | TyNumber | TyBoolean =>
      (* If it's not an object, wrap it *)
      text <- ToString parsed ;;
      Ret (mkNormalized status_success (VObj [(u "value", parsed)])
             (Some (VStr text)) None)
  | TyObject =>
      (* Already has the expected structure: { status, result, ... } *)
      has_status <- js_in (u "status") parsed ;;
      has_result <- (if has_status then js_in (u "result") parsed
                     else Ret false) ;;
      if has_status && has_result then
        p_status <- js_get (u "status") parsed ;;
        p_result <- js_get (u "result") parsed ;;
        p_message <- js_get (u "message") parsed ;;
        p_metadata <- js_get (u "metadata") parsed ;;
        Ret (mkNormalized (status_of p_status)
               (match p_result with
                | Some r => if truthy r then r else VObj []
                | None => VObj []
                end)
               p_message p_metadata)
      else
      (* Has status but no result - use the whole object as result *)
      has_status <- js_in (u "status") parsed ;;
      if has_status then
        p_status <- js_get (u "status") parsed ;;
        p_message <- js_get (u "message") parsed ;;
        p_metadata <- js_get (u "metadata") parsed ;;
        Ret (mkNormalized (status_of p_status) (VObj (rest_props parsed))
               p_message p_metadata)
      else
      (* Has result but no status - assume success *)
      has_result <- js_in (u "result") parsed ;;
      if has_result then
        p_result <- js_get (u "result") parsed ;;
        p_message <- js_get (u "message") parsed ;;
        p_metadata <- js_get (u "metadata") parsed ;;
        Ret (mkNormalized status_success
               (match p_result with Some r => r | None => VNull end)
               p_message p_metadata)
      else
      (* Has message/response field - extract it *)
      has_message <- js_in (u "message") parsed ;;
      p_message <- (if has_message then js_get (u "message") parsed
                    else Ret None) ;;
      if has_message && is_string p_message then
        Ret (mkNormalized status_success
               (VObj [(u "text",
                       match p_message with Some m => m | None => VNull end)])
               p_message None)
      else
      has_response <- js_in (u "response") parsed ;;
      if has_response then
        (* Recursively normalize the nested response *)
        on_response
      else
        (* Unknown structure - use the whole object as result *)
        Ret (mkNormalized status_success parsed None None)
  end.
End normalize_body.

(** [normalizeResponse(parsed)] for an argument that is not [undefined].
    [stack] is the number of further nested calls of normalizeResponse
    for which the call stack has room (with the calls of built-ins that
    its body makes): the recursive call throws a RangeError when there is
    none. *)
Fixpoint normalizeDefined (stack : nat) (parsed : value)
    : exn NormalizedAgentResponse :=
  normalize_body
    (match stack with
     | O => Throw RangeError
     | S stack' =>
         match js_get (u "response") parsed with
         | Ret (Some response) => normalizeDefined stack' response
         | _ => Ret empty_response
         end
     end)
    parsed.

(** [normalizeResponse(parsed)]; [undefined] is [None]. *)
Definition normalizeResponse (stack : nat) (parsed : option value)
    : exn NormalizedAgentResponse :=
  match parsed with
  | None => Ret empty_response
  | Some v => normalizeDefined stack v
  end.


(* ================================================================== *)
(** ** Notions used in the statements *)

(** Strategies that come with data. *)
Definition producing (s : Strategy) : bool :=
  match s with
  | st_direct | st_cleaned | st_extracted | st_extracted_cleaned
  | st_partial_recovery | st_sse_done => true
  | st_raw_fallback | st_none => false
  end.

Definition ok_result (v : value) (s : Strategy) : ParseResult :=
  mkParseResult true (Some v) None None (Some s) BuiltinPrototype.

Definition invalid_input_result (input : jstring) : ParseResult :=
  mkParseResult false None (Some input)
    (Some (u "Invalid input: expected string")) (Some st_none)
    BuiltinPrototype.

Definition raw_fallback_result (trimmed : jstring) : ParseResult :=
  mkParseResult false None (Some trimmed)
    (Some (u "All parsing strategies failed")) (Some st_raw_fallback)
    BuiltinPrototype.

(** ParseResult invariant of the specification's data model. *)
Definition ParseResult_invariant (r : ParseResult) : Prop :=
  (pr_success r = true ->
     (exists v, pr_data r = Some v)
     /\ exists s, pr_strategy r = Some s /\ producing s = true)
  /\ (pr_success r = false ->
        (exists t, pr_raw r = Some t) /\ exists e, pr_error r = Some e)
  /\ exists s, pr_strategy r = Some s.

Definition done_event (now : jstring) (requestId : option jstring)
    : ParsedSSEEvent :=
  mkParsedSSEEvent true
    (Some (PlainObject
             [(u "type", VStr (u "chat_completed"));
              (u "request_id",
               VStr (match requestId with Some r => r | None => [] end));
              (u "timestamp", VStr now)]))
    (Some (VStr (u "chat_completed"))) None None None.

(** The parts of an object: its own named properties, its elements when
    it is an array, its prototype. *)
Definition own_named (o : jsobject) : props :=
  match o with
  | PlainObject ps => ps
  | ArrayObject _ named => named
  | RecoveredObject _ own => own
  end.

Definition elements (o : jsobject) : option (list value) :=
  match o with
  | ArrayObject l _ => Some l
  | _ => None
  end.

Definition prototype_of (o : jsobject) : prototype :=
  match o with
  | RecoveredObject proto _ => proto
  | _ => BuiltinPrototype
  end.

(** The same parts of a parsed value. *)
Definition own_properties (d : value) : props :=
  match d with
  | VObj ps => ps
  | _ => []
  end.

Definition array_elements (d : value) : option (list value) :=
  match d with
  | VArr l => Some l
  | _ => None
  end.

(** [a || b] on property values *)
Definition or_value (a : option value) (b : option value) : option value :=
  if truthy_opt a then a else b.

(** The frames of a line sequence, after the words of the specification
    (section 4.4): lines with the event prefix set the declared type
    (trimmed), lines with the data prefix are collected, a blank line or
    the end of input closes the frame; each frame that collected data
    yields its declared type (message when none was given) and its data
    lines joined by a line feed. *)
Fixpoint frames (lines : list jstring) (currentEventType : option jstring)
    (currentData : list jstring) : list (jstring * jstring) :=
  let close :=
    match currentData with
    | [] => []
    | _ :: _ => [(or_string currentEventType (u "message"),
                  join_lines currentData)]
    end in
  match lines with
  | [] => close
  | line :: lines' =>
      if jstring_eqb (trim line) [] then close ++ frames lines' None []
      else if startsWith (u "event: ") line then
        frames lines' (Some (trim (substring_from 7 line))) currentData
      else if startsWith (u "data: ") line then
        frames lines' currentEventType
          (currentData ++ [substring_from 6 line])
      else frames lines' currentEventType currentData
  end.

(** One parseSSEEvent call per frame, in order; a call that throws ends
    the whole run. *)
Fixpoint emit (now : nat -> jstring) (requestId : option jstring)
    (fs : list (jstring * jstring)) (events : list ParsedSSEEvent)
    : exn (list ParsedSSEEvent) :=
  match fs with
  | [] => Ret events
  | (eventType, data) :: fs' =>
      ev <- parseSSEEvent (now (length events)) eventType data requestId ;;
      emit now requestId fs' (events ++ [ev])
  end.


(** The number of times the own property [response] can be followed,
    starting from [v]: normalizeResponse makes at most that many nested
    calls. *)
Fixpoint response_chain (v : value) : nat :=
  match v with
  | VObj ps =>
      (fix chain (ps : props) : nat :=
         match ps with
         | [] => O
         | (k, x) :: ps' =>
             if jstring_eqb (u "response") k then S (response_chain x)
             else chain ps'
         end) ps
  | _ => O
  end.

(** A text at whose head no digit stands. *)
Definition no_digit_head (s : jstring) : Prop :=
  match s with
  | [] => True
  | c :: _ => is_digit c = false
  end.

(** What may follow a value inside JSON text: the end, a comma, a closing
    bracket or a closing brace. *)
Definition ends_value (s : jstring) : Prop :=
  match s with
  | [] => True
  | c :: _ => c = 44%N \/ c = 93%N \/ c = 125%N
  end.

(** Normal form of the exact decimals. *)
Definition wf_number (n : number) : Prop :=
  (mant n = 0 /\ expo n = 0)%Z
  \/ (mant n <> 0%Z /\ (Z.abs_N (mant n) mod 10 <> 0)%N).

Definition wf_numberb (n : number) : bool :=
  ((mant n =? 0)%Z && (expo n =? 0)%Z)
  || (negb (mant n =? 0)%Z && negb (Z.abs_N (mant n) mod 10 =? 0)%N).

Fixpoint distinct_keys (ks : list jstring) : bool :=
  match ks with
  | [] => true
  | k :: ks' => negb (existsb (jstring_eqb k) ks') && distinct_keys ks'
  end.

(** The values a JavaScript program can hold and JSON can carry: numbers
    in normal form, objects without repeated keys. *)
Fixpoint wf_value (v : value) : bool :=
  match v with
  | VNum n => wf_numberb n
  | VArr l => forallb wf_value l
  | VObj ps =>
      distinct_keys (map fst ps) && forallb (fun kv => wf_value (snd kv)) ps
  | _ => true
  end.

(** A canonical response object [{status, result, message?, metadata?}]:
    a JSON value ([wf_value]) in which status is ['success'] or ['error'],
    result is an object, message (when present) a string, metadata (when
    present) an object, and there is no other key. *)
Definition canonical (ps : props) : bool :=
  wf_value (VObj ps)
  && match lookup (u "status") ps with
     | Some (VStr s) => jstring_eqb s (u "success") || jstring_eqb s (u "error")
     | _ => false
     end
  && match lookup (u "result") ps with
     | Some (VObj _) => true
     | _ => false
     end
  && match lookup (u "message") ps with
     | None | Some (VStr _) => true
     | _ => false
     end
  && match lookup (u "metadata") ps with
     | None | Some (VObj _) => true
     | _ => false
     end
  && forallb (fun kv => jstring_eqb (fst kv) (u "status")
                        || jstring_eqb (fst kv) (u "result")
                        || jstring_eqb (fst kv) (u "message")
                        || jstring_eqb (fst kv) (u "metadata")) ps.

(** The own properties of a NormalizedAgentResponse whose value is not
    [undefined]. *)
Definition response_props (n : NormalizedAgentResponse) : props :=
  [(u "status",
    VStr (match status n with
          | status_success => u "success"
          | status_error => u "error"
          end));
   (u "result", result n)]
  ++ match message n with Some m => [(u "message", m)] | None => [] end
  ++ match metadata n with Some m => [(u "metadata", m)] | None => [] end.

(** The first character of a serialised value. *)
Definition value_head (c : char) : Prop :=
  is_json_ws c = false /\ c <> 93%N /\ c <> 125%N.


(* ================================================================== *)
(** ** event-parser.ts, the helpers around the parser *)

(** *** createParseErrorEvent

    [now] is what [new Date().toISOString()] returns during the call. *)
Definition createParseErrorEvent (now : jstring) (error raw : jstring)
    (requestId : option jstring) : jsobject :=
  PlainObject
    [(u "type", VStr (u "parse_error"));
     (u "request_id", VStr (or_string requestId []));
     (u "timestamp", VStr now);
     (u "error", VStr error);
     (u "raw_content_preview", VStr (substring 0 500 raw))].

(** The callback slots of [handleSSEEvent]. *)
Inductive handler_slot :=
| slot_onSuccess | slot_onParseError | slot_onToolBlocked
| slot_onToolError | slot_onValidationError.

(** One callback invocation with its arguments. *)
Inductive handler_call :=
| onSuccess (event : jsobject)
| onParseError (raw error : value)
| onToolBlocked (event : jsobject)
| onToolError (event : jsobject)
| onValidationError (event : jsobject).

Definition slot_of (c : handler_call) : handler_slot :=
  match c with
  | onSuccess _ => slot_onSuccess
  | onParseError _ _ => slot_onParseError
  | onToolBlocked _ => slot_onToolBlocked
  | onToolError _ => slot_onToolError
  | onValidationError _ => slot_onValidationError
  end.

(** [a || b] where [b] is a string literal *)
Definition or_default (a : option value) (b : jstring) : value :=
  match a with
  | Some v => if truthy v then v else VStr b
  | None => VStr b
  end.

(** [v === 'lit'] for a possibly undefined [v] *)
Definition is_str (lit : jstring) (v : option value) : bool :=
  match v with
  | Some (VStr s) => jstring_eqb s lit
  | _ => false
  end.

(** *** handleSSEEvent

    [provided s] tells whether the caller passed the callback [s]
    ([handlers.s?.(...)] does nothing otherwise). The result is the
    callback invocation the call performs, [None] when it performs none.
    The property names read on the event ([raw_content_preview], [error])
    are neither array indices nor inherited. *)
Definition handleSSEEvent (provided : handler_slot -> bool)
    (parsed : ParsedSSEEvent) : option handler_call :=
  let invoke (c : handler_call) :=
    if provided (slot_of c) then Some c else None in
  if negb (ev_success parsed) then
    invoke (onParseError (VStr (or_string (ev_raw parsed) []))
              (VStr (or_string (ev_error parsed) (u "Unknown error"))))
  else
    match ev_event parsed with
    | None => None
    | Some event =>
        (* Handle error event types *)
        if is_str (u "tool_blocked") (ev_eventType parsed) then
          invoke (onToolBlocked event)
        else if is_str (u "tool_error") (ev_eventType parsed) then
          invoke (onToolError event)
        else if is_str (u "parse_error") (ev_eventType parsed) then
          invoke (onParseError
                    (or_default (get_named (u "raw_content_preview") event) [])
                    (or_default (get_named (u "error") event)
                       (u "Parse error")))
        else if is_str (u "validation_error") (ev_eventType parsed) then
          invoke (onValidationError event)
        else invoke (onSuccess event)
    end.

(** The conversion of [v] inside a template literal, for a possibly
    undefined [v]. *)
Definition template_string (v : option value) : exn jstring :=
  match v with
  | Some x => ToString x
  | None => Ret (u "undefined")
  end.

(** *** getEventMessage

    Declared to return a string; the default case returns the event's own
    [message] as it is when that is truthy. A template literal throws a
    TypeError when the value it converts is an object that cannot be
    converted. The property names read on the event are neither array
    indices nor inherited from a built-in prototype. *)
Definition getEventMessage (event : jsobject) : exn value :=
  let type := get_named (u "type") event in
  if is_str (u "tool_blocked") type then
    text <- ToString (or_default (get_named (u "reason") event)
                        (u "Unknown reason")) ;;
    Ret (VStr (u "Tool blocked: " ++ text))
  else if is_str (u "tool_error") type then
    text <- ToString (or_default (get_named (u "error") event)
                        (u "Unknown error")) ;;
    Ret (VStr (u "Tool error: " ++ text))
  else if is_str (u "parse_error") type then
    text <- ToString (or_default (get_named (u "error") event)
                        (u "Failed to parse response")) ;;
    Ret (VStr (u "Parse error: " ++ text))
  else if is_str (u "validation_error") type then
    text <- ToString (or_default (get_named (u "error") event)
                        (u "Invalid data")) ;;
    Ret (VStr (u "Validation error: " ++ text))
  else if is_str (u "agent_created") type then
    text <- ToString
              (match get_named (u "agent_name") event with
               | Some a =>
                   if truthy a then a
                   else or_default (get_named (u "name") event) (u "Unknown")
               | None => or_default (get_named (u "name") event) (u "Unknown")
               end) ;;
    Ret (VStr (u "Agent created: " ++ text))
  else if is_str (u "workflow_update") type then
    Ret (VStr (u "Workflow updated"))
  else if is_str (u "chat_completed") type then
    Ret (VStr (u "Task completed"))
  else if is_str (u "chat_failed") type then
    text <- ToString (or_default (get_named (u "error") event)
                        (u "Unknown error")) ;;
    Ret (VStr (u "Task failed: " ++ text))
  else
    let fallback :=
      text <- template_string type ;;
      Ret (VStr (u "Event: " ++ text)) in
    match get_named (u "message") event with
    | Some m => if truthy m then Ret m else fallback
    | None => fallback
    end.

(* ================================================================== *)
(** ** extractText (agent utility) *)

(** [v?.k] on a JSON value: [undefined] on [null], on a primitive and on
    an array (the names read are neither indices nor inherited). *)
Definition optional_get (k : jstring) (v : value) : option value :=
  match v with
  | VObj ps => lookup k ps
  | _ => None
  end.

Definition extractText (response : NormalizedAgentResponse) : value :=
  if truthy_opt (message response) then
    match message response with Some m => m | None => VStr [] end
  else if truthy_opt (optional_get (u "text") (result response)) then
    or_default (optional_get (u "text") (result response)) []
  else if truthy_opt (optional_get (u "message") (result response)) then
    or_default (optional_get (u "message") (result response)) []
  else if truthy_opt (optional_get (u "answer") (result response)) then
    or_default (optional_get (u "answer") (result response)) []
  else if truthy_opt (optional_get (u "answer_text") (result response)) then
    or_default (optional_get (u "answer_text") (result response)) []
  else
    match result response with
    | VStr s => VStr s
    | _ => VStr []
    end.

(* ================================================================== *)
(** ** Notions used in the further statements *)

(** The text of one frame on the wire: an event line, one data line per
    line of the payload, a blank line. *)
Definition encode_frame (f : jstring * jstring) : jstring :=
  u "event: " ++ fst f ++ 10%N
    :: concat (map (fun l => u "data: " ++ l ++ [10%N]) (split_lines (snd f)))
    ++ [10%N].

Definition encode_stream (fs : list (jstring * jstring)) : jstring :=
  concat (map encode_frame fs).

(** The value of a NormalizedAgentResponse as an object. *)
Definition response_value (n : NormalizedAgentResponse) : value :=
  VObj (response_props n).

(** [{response: v}] nested [n] times around [v]. *)
Fixpoint wrap_response (n : nat) (v : value) : value :=
  match n with
  | O => v
  | S n' => VObj [(u "response", wrap_response n' v)]
  end.

(** The lines of an encoded stream. *)
Fixpoint stream_lines (fs : list (jstring * jstring)) : list jstring :=
  match fs with
  | [] => []
  | f :: fs' =>
      ((u "event: " ++ fst f)
         :: map (fun l => u "data: " ++ l) (split_lines (snd f)) ++ [[]])
      ++ stream_lines fs'
  end.

(** A frame that can be written with an event line: its type is not
    empty, has no white space around it and no line feed inside. *)
Definition frame_ok (f : jstring * jstring) : Prop :=
  fst f <> [] /\ trim (fst f) = fst f /\ ~ In 10%N (fst f).

(** The callback slot that [handleSSEEvent] selects for an event type. *)
Definition handler_for (type : option value) : handler_slot :=
  if is_str (u "tool_blocked") type then slot_onToolBlocked
  else if is_str (u "tool_error") type then slot_onToolError
  else if is_str (u "parse_error") type then slot_onParseError
  else if is_str (u "validation_error") type then slot_onValidationError
  else slot_onSuccess.

(** The event a callback invocation passes on, for the callbacks that
    take the event. *)
Definition event_of (c : handler_call) : option jsobject :=
  match c with
  | onSuccess e | onToolBlocked e | onToolError e | onValidationError e =>
      Some e
  | onParseError _ _ => None
  end.

(** What [JSON.stringify] serialises of an object: the properties of a
    plain object, the elements of an array. *)
Definition object_value (o : jsobject) : value :=
  match o with
  | PlainObject ps => VObj ps
  | ArrayObject l _ => VArr l
  | RecoveredObject _ own => VObj own
  end.

(* ================================================================== *)
(** ** json-parser.ts: safeGet *)

(** What a property read yields: a JSON value, or a built-in reached
    through the prototype chain (a method of Object.prototype, say). *)
Inductive property_value :=
| JSONValue (v : value)
| BuiltIn.

(** The property name of the array index [i]: its decimal form. *)
Definition index_name (i : nat) : jstring :=
  map digit_char (to_digits (N.of_nat i)).

(** The element of an array that the property name [key] names, with [i]
    the index of the first element of [l]. *)
Fixpoint array_element (i : nat) (l : list value) (key : jstring)
    : option value :=
  match l with
  | [] => None
  | x :: l' =>
      if jstring_eqb key (index_name i) then Some x
      else array_element (S i) l' key
  end.

(** The own property [key] of an object or array. *)
Definition own_property (key : jstring) (d : value) : option value :=
  match d with
  | VObj ps => lookup key ps
  | VArr l =>
      if jstring_eqb key (u "length")
      then Some (VNum (make_number false (N.of_nat (length l)) 0))
      else array_element 0 l key
  | _ => None
  end.

Section safeGet.
(** Whether the built-in prototype chain of an object or array has a
    property of that name; the built-ins of the host decide it. *)
Variable inherited : value -> jstring -> bool.

(** [key in result.data] throws a TypeError when the data is a
    primitive. A property that is not the data's own is looked for along
    the prototype chain: in the built-in prototypes, or first in the
    parsed prototype that partialRecovery's object was given, or nowhere
    when that prototype is [null]. *)
Definition safeGet (result : ParseResult) (key : jstring)
    (defaultValue : value) : exn property_value :=
  if pr_success result && truthy_opt (pr_data result) then
    match pr_data result with
    | Some d =>
        match to_object d with
        | None => Throw TypeError
        | Some _ =>
            match own_property key d with
            | Some x => Ret (JSONValue x)
            | None =>
                match pr_prototype result with
                | BuiltinPrototype =>
                    if inherited d key then Ret BuiltIn
                    else Ret (JSONValue defaultValue)
                | NullPrototype => Ret (JSONValue defaultValue)
                | ParsedPrototype o =>
                    match own_property key o with
                    | Some x => Ret (JSONValue x)
                    | None =>
                        if inherited o key then Ret BuiltIn
                        else Ret (JSONValue defaultValue)
                    end
                end
            end
        end
    | None => Ret (JSONValue defaultValue)
    end
  else Ret (JSONValue defaultValue).
End safeGet.

(** A character at which prose begins: a Latin letter other than t, f
    and n (with which true, false and null begin). *)
Definition prose_start (c : char) : bool :=
  ((65 <=? c) && (c <=? 90) || (97 <=? c) && (c <=? 122))%N
  && negb ((c =? 116) || (c =? 102) || (c =? 110))%N.

(** What partialRecovery keeps true of the object it builds: no own key
    twice, an own key [__proto__] only once the prototype was replaced,
    and a prototype that is the built-in one, [null], or a parsed object
    or array. *)
Definition recovered_ok (result : prototype * props) : Prop :=
  distinct_keys (map fst (snd result)) = true
  /\ (fst result = BuiltinPrototype ->
      lookup (u "__proto__") (snd result) = None)
  /\ (forall o, fst result = ParsedPrototype o -> to_object o <> None).

(** Settles a comparison of character codes by cases. *)
Ltac decide_char :=
  repeat match goal with
         | |- context [(?a =? ?b)%N] =>
             destruct (N.eqb_spec a b); [exfalso; lia|]
         | |- context [(?a <=? ?b)%N] => destruct (N.leb_spec a b)
         end; try reflexivity; exfalso; lia.
(* ================================================================== *)
(** * Properties *)

(** ** Basic facts *)

Lemma jstring_eqb_eq (a b : jstring) : jstring_eqb a b = true <-> a = b.
Proof.
  unfold jstring_eqb. destruct (list_eq_dec N.eq_dec a b); split;
    intros; try congruence; auto.
Qed.

Lemma jstring_eqb_refl (a : jstring) : jstring_eqb a a = true.
Proof. apply jstring_eqb_eq. reflexivity. Qed.

Lemma jstring_eqb_neq (a b : jstring) : jstring_eqb a b = false <-> a <> b.
Proof.
  unfold jstring_eqb. destruct (list_eq_dec N.eq_dec a b); split;
    intros; try congruence; auto.
Qed.

Lemma trim_nil : trim [] = [].
Proof. reflexivity. Qed.

Lemma bind_Ret {A B} (m : exn A) (k : A -> exn B) (b : B) :
  bind m k = Ret b -> exists a, m = Ret a /\ k a = Ret b.
Proof. destruct m; simpl; intros; [eauto | discriminate]. Qed.

(** ** The multi-strategy parser *)

(** Every call returns, in one of three shapes. *)
Lemma robustJSONParse_cases (input : jstring) :
  (input = [] /\ robustJSONParse input = Ret (invalid_input_result []))
  \/ (exists v s p,
        robustJSONParse input
        = Ret (mkParseResult true (Some v) None None (Some s) p)
        /\ producing s = true /\ s <> st_sse_done)
  \/ robustJSONParse input = Ret (raw_fallback_result (trim input)).
Proof.
  unfold robustJSONParse, raw_fallback_result.
  destruct input as [|c l]; [left; split; reflexivity|].
  right. remember (trim (c :: l)) as trimmed eqn:Et. clear Et.
  unfold try_or, bind.
  destruct (JSON_parse trimmed) as [v|e].
  { left. exists v, st_direct, BuiltinPrototype. repeat split; discriminate. }
  destruct (JSON_parse (cleanJsonString trimmed)) as [v|e'].
  { left. exists v, st_cleaned, BuiltinPrototype.
    repeat split; discriminate. }
  assert (Hp : (exists v s p,
                  match partialRecovery trimmed with
                  | Some (proto, ((_ :: _) as ps)) =>
                      Ret (mkParseResult true (Some (VObj ps)) None None
                             (Some st_partial_recovery) proto)
                  | _ => Ret (raw_fallback_result trimmed)
                  end
                  = Ret (mkParseResult true (Some v) None None (Some s) p)
                  /\ producing s = true /\ s <> st_sse_done)
               \/ match partialRecovery trimmed with
                  | Some (proto, ((_ :: _) as ps)) =>
                      Ret (mkParseResult true (Some (VObj ps)) None None
                             (Some st_partial_recovery) proto)
                  | _ => Ret (raw_fallback_result trimmed)
                  end = Ret (raw_fallback_result trimmed)).
  { destruct (partialRecovery trimmed) as [[proto [|q ps]]|]; auto.
    left. exists (VObj (q :: ps)), st_partial_recovery, proto.
    repeat split; discriminate. }
  unfold raw_fallback_result in Hp.
  destruct (extractJsonFromText trimmed) as [[|x ex]|]; auto.
  destruct (JSON_parse (x :: ex)) as [v|e2].
  { left. exists v, st_extracted, BuiltinPrototype.
    repeat split; discriminate. }
  destruct (JSON_parse (cleanJsonString (x :: ex))) as [v|e3]; auto.
  left. exists v, st_extracted_cleaned, BuiltinPrototype.
  repeat split; discriminate.
Qed.

Lemma success_invariant v s p :
  producing s = true ->
  ParseResult_invariant (mkParseResult true (Some v) None None (Some s) p).
Proof.
  intros Hs. unfold ParseResult_invariant; simpl.
  repeat split; eauto; discriminate.
Qed.

Lemma ok_result_invariant v s :
  producing s = true -> ParseResult_invariant (ok_result v s).
Proof.
  intros Hs. unfold ParseResult_invariant, ok_result; simpl.
  repeat split; eauto; discriminate.
Qed.

Lemma failure_invariant t e s p :
  ParseResult_invariant
    (mkParseResult false None (Some t) (Some e) (Some s) p).
Proof.
  unfold ParseResult_invariant; simpl.
  repeat split; eauto; discriminate.
Qed.

(** C4. For every string input, robustJSONParse and parseSSEData return a
    ParseResult in which success=true comes with data and a producing
    strategy (direct, cleaned, extracted, extracted_cleaned,
    partial_recovery, sse_done), success=false comes with raw and error,
    and strategy is always set. *)
Theorem ParseResult_invariant_holds :
  (forall input, exists r,
      robustJSONParse input = Ret r /\ ParseResult_invariant r)
  /\ (forall d, exists r,
        parseSSEData d = Ret r /\ ParseResult_invariant r).
Proof.
  assert (H : forall input, exists r,
             robustJSONParse input = Ret r /\ ParseResult_invariant r).
  { intros input.
    destruct (robustJSONParse_cases input)
      as [[_ H] | [(v & s & p & H & Hs & _) | H]]; rewrite H; eexists;
      split; try reflexivity.
    - apply failure_invariant.
    - apply success_invariant; assumption.
    - apply failure_invariant. }
  split; [exact H|].
  intros d. unfold parseSSEData.
  match goal with |- context [jstring_eqb ?a ?b] =>
    destruct (jstring_eqb a b) end.
  - eexists; split; [reflexivity|].
    apply (ok_result_invariant _ st_sse_done); reflexivity.
  - apply H.
Qed.

Lemma robustJSONParse_direct (input : jstring) (v : value) :
  JSON_parse (trim input) = Ret v ->
  robustJSONParse input = Ret (ok_result v st_direct).
Proof.
  intros H. unfold robustJSONParse.
  destruct input as [|c l]; [discriminate H|].
  rewrite H. reflexivity.
Qed.

(** C5. When the trimmed input is valid JSON, robustJSONParse succeeds
    with strategy direct and the parsed value; no later strategy is
    reported. *)
Theorem valid_json_is_direct (input : jstring) (v : value) :
  JSON_parse (trim input) = Ret v ->
  robustJSONParse input = Ret (ok_result v st_direct).
Proof. apply robustJSONParse_direct. Qed.

Lemma valid_json_is_direct_witness :
  JSON_parse (trim (uq " {'a': [1, true]} "))
    = Ret (VObj [(u "a", VArr [VNum (Num 1 0); VBool true])])
  /\ robustJSONParse (uq " {'a': [1, true]} ")
     = Ret (ok_result (VObj [(u "a", VArr [VNum (Num 1 0); VBool true])])
              st_direct).
Proof.
  split; [vm_compute; reflexivity|].
  apply (valid_json_is_direct (uq " {'a': [1, true]} ")).
  vm_compute; reflexivity.
Defined.

(** C6. On a non-empty input for which direct parsing, cleaned parsing,
    extraction and partial recovery all fail, robustJSONParse returns
    success=false, strategy raw_fallback, raw = the trimmed input, and a
    non-empty error string. *)
Theorem unrecoverable_is_raw_fallback (input : jstring) :
  input <> [] ->
  (forall v, JSON_parse (trim input) <> Ret v) ->
  (forall v, JSON_parse (cleanJsonString (trim input)) <> Ret v) ->
  (forall ex, extractJsonFromText (trim input) = Some ex -> ex <> [] ->
     (forall v, JSON_parse ex <> Ret v)
     /\ (forall v, JSON_parse (cleanJsonString ex) <> Ret v)) ->
  (partialRecovery (trim input) = None
   \/ exists proto, partialRecovery (trim input) = Some (proto, [])) ->
  exists e,
    robustJSONParse input
      = Ret (mkParseResult false None (Some (trim input)) (Some e)
               (Some st_raw_fallback) BuiltinPrototype)
    /\ e <> [].
Proof.
  intros Hne H1 H2 H3 H4.
  exists (u "All parsing strategies failed"). split; [|discriminate].
  unfold robustJSONParse.
  destruct input as [|c l]; [congruence|].
  remember (trim (c :: l)) as trimmed eqn:Et. clear Et.
  unfold try_or, bind.
  destruct (JSON_parse trimmed) as [v|e]; [destruct (H1 v); reflexivity|].
  destruct (JSON_parse (cleanJsonString trimmed)) as [v|e'];
    [destruct (H2 v); reflexivity|].
  assert (Hp : match partialRecovery trimmed with
               | Some (proto, ((_ :: _) as ps)) =>
                   Ret (mkParseResult true (Some (VObj ps)) None None
                          (Some st_partial_recovery) proto)
               | _ =>
                   Ret (mkParseResult false None (Some trimmed)
                          (Some (u "All parsing strategies failed"))
                          (Some st_raw_fallback) BuiltinPrototype)
               end
               = Ret (mkParseResult false None (Some trimmed)
                        (Some (u "All parsing strategies failed"))
                        (Some st_raw_fallback) BuiltinPrototype)).
  { destruct H4 as [H4|[proto H4]]; rewrite H4; reflexivity. }
  destruct (extractJsonFromText trimmed) as [[|x ex]|]; auto.
  destruct (H3 (x :: ex) eq_refl) as [Ha Hb]; [discriminate|].
  destruct (JSON_parse (x :: ex)) as [v|e2]; [destruct (Ha v); reflexivity|].
  destruct (JSON_parse (cleanJsonString (x :: ex))) as [v|e3];
    [destruct (Hb v); reflexivity|].
  exact Hp.
Qed.

Lemma unrecoverable_is_raw_fallback_witness :
  exists e,
    robustJSONParse (u "not json at all, just prose")
      = Ret (mkParseResult false None
               (Some (u "not json at all, just prose")) (Some e)
               (Some st_raw_fallback) BuiltinPrototype)
    /\ e <> [].
Proof.
  apply (unrecoverable_is_raw_fallback (u "not json at all, just prose")).
  - discriminate.
  - intros v; vm_compute; discriminate.
  - intros v; vm_compute; discriminate.
  - intros ex H; vm_compute in H; discriminate H.
  - left; vm_compute; reflexivity.
Defined.

(** ** The response normaliser *)

(** The recursion equation, in the shape of the source: the body, with the
    recursive call made on [parsed.response] when the stack has room. *)
Lemma normalizeDefined_eq (stack : nat) (parsed : value) :
  normalizeDefined stack parsed
  = normalize_body
      (match stack with
       | O => Throw RangeError
       | S stack' =>
           match js_get (u "response") parsed with
           | Ret (Some r) => normalizeDefined stack' r
           | _ => Ret empty_response
           end
       end) parsed.
Proof. destruct stack; reflexivity. Qed.

Lemma response_chain_object (ps : props) :
  response_chain (VObj ps)
  = match lookup (u "response") ps with
    | Some r => S (response_chain r)
    | None => O
    end.
Proof.
  cbn [response_chain].
  induction ps as [|[k v] ps IH]; [reflexivity|].
  cbn [lookup]. destruct (jstring_eqb (u "response") k); auto.
Qed.

(** The body either returns without regard to the recursive call, or is
    the recursive call, made on the response property of an object. *)
Lemma normalize_body_cases (parsed : value) :
  (exists n, forall on_response, normalize_body on_response parsed = Ret n)
  \/ ((forall on_response, normalize_body on_response parsed = on_response)
      /\ exists ps r,
           parsed = VObj ps /\ lookup (u "response") ps = Some r).
Proof.
  unfold normalize_body.
  destruct (truthy parsed) eqn:Ht; cbn [negb]; [|left; eauto].
  destruct parsed as [|b|n|s|l|ps]; cbn [typeof];
    try (left; eexists; intros; reflexivity).
  - discriminate Ht.
  - cbn [js_in js_get bind].
    destruct (lookup (u "response") ps) as [r|] eqn:Hr;
      repeat match goal with
             | |- context [match lookup ?k ?l with _ => _ end] =>
                 destruct (lookup k l)
             | |- context [if is_string ?o then _ else _] =>
                 destruct (is_string o)
             | _ => progress cbn [bind andb js_in js_get]
             end;
      try (left; eexists; intros; reflexivity);
      right; (split; [intros; reflexivity | eauto]).
Qed.

Lemma normalize_body_total (on_response : exn NormalizedAgentResponse)
    (parsed : value) :
  (exists n, on_response = Ret n) ->
  exists n, normalize_body on_response parsed = Ret n.
Proof.
  intros Hn.
  destruct (normalize_body_cases parsed) as [[n H] | [H _]]; rewrite H; eauto.
Qed.

Lemma normalizeDefined_total (stack : nat) :
  forall parsed : value,
    (response_chain parsed <= stack)%nat ->
    exists n, normalizeDefined stack parsed = Ret n.
Proof.
  induction stack as [|stack IH]; intros parsed Hc;
    rewrite normalizeDefined_eq;
    destruct (normalize_body_cases parsed)
      as [[n H] | [H (ps & r & -> & Hr)]]; rewrite H; eauto.
  - rewrite response_chain_object, Hr in Hc. lia.
  - cbn [js_get]. rewrite Hr. apply IH.
    rewrite response_chain_object, Hr in Hc. lia.
Qed.

Lemma normalizeDefined_throws (stack : nat) :
  forall (parsed : value) (e : js_error),
    normalizeDefined stack parsed = Throw e -> e = RangeError.
Proof.
  induction stack as [|stack IH]; intros parsed e;
    rewrite normalizeDefined_eq;
    destruct (normalize_body_cases parsed)
      as [[n H] | [H (ps & r & -> & Hr)]]; rewrite H;
    try discriminate.
  - intros [= <-]. reflexivity.
  - cbn [js_get]. rewrite Hr. apply IH.
Qed.

(** One response wrapper costs one nested call. *)
Lemma normalizeDefined_wrapped (stack : nat) (v : value) :
  normalizeDefined (S stack) (VObj [(u "response", v)])
  = normalizeDefined stack v.
Proof. rewrite normalizeDefined_eq. reflexivity. Qed.

Lemma normalizeDefined_wrapped_no_room (v : value) :
  normalizeDefined O (VObj [(u "response", v)]) = Throw RangeError.
Proof. reflexivity. Qed.

Lemma normalizeDefined_too_deep (stack : nat) :
  forall v, normalizeDefined stack (wrap_response (S stack) v)
            = Throw RangeError.
Proof.
  induction stack as [|stack IH]; intros v; [reflexivity|].
  change (wrap_response (S (S stack)) v)
    with (VObj [(u "response", wrap_response (S stack) v)]).
  rewrite normalizeDefined_wrapped. apply IH.
Qed.

(** C1, counterexample: a string wrapped four times as the response
    property of an object is a JSON value, yet with room for three nested
    calls normalizeResponse throws a RangeError on it. *)
Lemma normalizeResponse_deep_nesting_throws :
  normalizeResponse 3 (Some (wrap_response 4 (VStr (u "hi"))))
  = Throw RangeError.
Proof. reflexivity. Qed.

(** C1, amended. For every string input robustJSONParse returns a
    ParseResult and throws nothing. For every JSON value in which the
    response property can be followed no more often than the call stack
    has room for nested calls, and for an absent argument,
    normalizeResponse returns a NormalizedResponse; on no JSON value does
    it throw anything but the RangeError of an exhausted call stack. *)
Theorem parse_total_normalize_within_stack :
  (forall input : jstring, exists r, robustJSONParse input = Ret r)
  /\ (forall (stack : nat) (parsed : value),
        (response_chain parsed <= stack)%nat ->
        exists n, normalizeResponse stack (Some parsed) = Ret n)
  /\ (forall stack : nat, exists n, normalizeResponse stack None = Ret n)
  /\ (forall (stack : nat) (parsed : option value) (e : js_error),
        normalizeResponse stack parsed = Throw e -> e = RangeError).
Proof.
  split; [|split; [|split]].
  - intros input.
    destruct (robustJSONParse_cases input)
      as [[_ H] | [(v & s & p & H & _) | H]]; eauto.
  - intros stack parsed Hc. apply normalizeDefined_total. exact Hc.
  - intros stack. cbn [normalizeResponse]. eauto.
  - intros stack [v|] e; cbn [normalizeResponse]; [|discriminate].
    apply normalizeDefined_throws.
Qed.

Lemma parse_total_normalize_within_stack_witness :
  exists n,
    normalizeResponse 2
      (Some (VObj [(u "response",
                    VObj [(u "response", VStr (u "hi"))])]))
    = Ret n.
Proof.
  apply (parse_total_normalize_within_stack).
  vm_compute. lia.
Defined.

(** A non-empty string is wrapped as text. *)
Lemma normalizeResponse_string (stack : nat) (s : jstring) :
  s <> [] ->
  normalizeResponse stack (Some (VStr s))
  = Ret (mkNormalized status_success (VObj [(u "text", VStr s)])
           (Some (VStr s)) None).
Proof. destruct stack, s; (congruence || reflexivity). Qed.

(** A truthy number or boolean is wrapped as value. *)
Lemma normalizeResponse_scalar (stack : nat) (v : value) :
  typeof v = TyNumber \/ typeof v = TyBoolean ->
  truthy v = true ->
  normalizeResponse stack (Some v)
  = Ret (mkNormalized status_success (VObj [(u "value", v)])
           (Some (VStr (String_of v))) None).
Proof.
  intros Hty Ht. cbn [normalizeResponse]. rewrite normalizeDefined_eq.
  unfold normalize_body. rewrite Ht. cbn [negb].
  destruct v; destruct Hty as [Hty|Hty]; try discriminate Hty; reflexivity.
Qed.

(** C2, the code at the failing inputs: the number 0, the boolean false
    and the empty string are neither absent nor null, yet normalizeResponse
    answers them with the error structure
    {status:'error', result:{}, message:'Empty response from agent'}
    instead of wrapping them as {value:v} or {text:s}. *)
Theorem normalizeResponse_falsy_scalars (stack : nat) :
  normalizeResponse stack (Some (VNum (Num 0 0))) = Ret empty_response
  /\ normalizeResponse stack (Some (VBool false)) = Ret empty_response
  /\ normalizeResponse stack (Some (VStr [])) = Ret empty_response
  /\ normalizeResponse stack (Some VNull) = Ret empty_response
  /\ normalizeResponse stack None = Ret empty_response.
Proof. destruct stack; repeat split. Qed.

(** ** The single-event parser *)

(** C8. Called with data exactly [DONE], parseSSEEvent returns, for every
    declared type and optional requestId and whatever the JSON parser
    would do (it is not called), a successful event with eventType
    chat_completed whose synthetic event carries type chat_completed, the
    supplied request_id (or the empty string) and a timestamp. *)
Theorem parseSSEEvent_done :
  forall (parser : jstring -> exn ParseResult)
         (now eventType : jstring) (requestId : option jstring),
    parseSSEEvent_with parser now eventType (u "[DONE]") requestId
    = Ret (done_event now requestId)
    /\ parseSSEEvent now eventType (u "[DONE]") requestId
       = Ret (done_event now requestId).
Proof.
  intros parser now eventType requestId.
  unfold parseSSEEvent, parseSSEEvent_with, done_event.
  rewrite jstring_eqb_refl.
  destruct requestId as [[|c r]|]; split; reflexivity.
Qed.

Lemma lookup_set_own_same k v ps : lookup k (set_own k v ps) = Some v.
Proof.
  induction ps as [|[k' v'] ps IH]; cbn [set_own lookup].
  - rewrite jstring_eqb_refl. reflexivity.
  - destruct (jstring_eqb k k') eqn:E; cbn [lookup]; rewrite E; auto.
Qed.

Lemma lookup_set_own_other k k' v ps :
  k <> k' -> lookup k (set_own k' v ps) = lookup k ps.
Proof.
  intros Hne. induction ps as [|[k0 v0] ps IH]; cbn [set_own lookup].
  - apply jstring_eqb_neq in Hne. rewrite Hne. reflexivity.
  - destruct (jstring_eqb k' k0) eqn:E; cbn [lookup].
    + apply jstring_eqb_eq in E. subst k0.
      apply jstring_eqb_neq in Hne. rewrite Hne. reflexivity.
    + destruct (jstring_eqb k k0); auto.
Qed.

Lemma get_set_named_same k v o : get_named k (set_named k v o) = Some v.
Proof.
  destruct o; cbn [get_named set_named]; rewrite lookup_set_own_same;
    reflexivity.
Qed.

Lemma get_set_named_other k k' v o :
  k <> k' -> get_named k (set_named k' v o) = get_named k o.
Proof.
  intros H. destruct o; cbn [get_named set_named];
    rewrite lookup_set_own_other by exact H; reflexivity.
Qed.

Lemma own_set_named_other k k' v o :
  k <> k' ->
  lookup k (own_named (set_named k' v o)) = lookup k (own_named o).
Proof.
  intros H. destruct o; cbn [own_named set_named];
    apply lookup_set_own_other; exact H.
Qed.

Lemma elements_set_named k v o : elements (set_named k v o) = elements o.
Proof. destruct o; reflexivity. Qed.

Lemma prototype_set_named k v o :
  prototype_of (set_named k v o) = prototype_of o.
Proof. destruct o; reflexivity. Qed.


Lemma event_object_parts p d o :
  event_object p d = Some o ->
  own_named o = own_properties d /\ elements o = array_elements d
  /\ prototype_of o = match d with
                      | VObj _ => p
                      | _ => BuiltinPrototype
                      end.
Proof.
  destruct d; cbn [event_object]; try discriminate; intros [= <-];
    [repeat split | destruct p; repeat split].
Qed.

(** C3, counterexample: the data [null] is not [DONE] and robustJSONParse
    parses it successfully (strategy direct), yet parseSSEEvent returns a
    failure tagged parse_error. *)
Lemma parseSSEEvent_null_is_failure :
  u "null" <> u "[DONE]"
  /\ robustJSONParse (u "null") = Ret (ok_result VNull st_direct)
  /\ parseSSEEvent (u "2026-01-01T00:00:00.000Z") (u "message") (u "null")
       (Some (u "req-1"))
     = Ret (mkParsedSSEEvent false None (Some (VStr (u "parse_error")))
              (Some (u "null")) (Some (u "Failed to parse SSE data"))
              (Some st_direct)).
Proof. repeat split. discriminate. Qed.

(** C3, amended. For data other than [DONE] on which robustJSONParse
    returns r: when r is a success whose value is an object or an array,
    parseSSEEvent returns success=true with r's strategy and the event
    obtained from the value by back-filling: type is the payload's type
    (its own, or what it inherits from a prototype that partial recovery
    gave it) when that is truthy and the declared type otherwise (and is
    the reported eventType), request_id is the payload's when truthy and
    else the requestId parameter when that is a non-empty string,
    timestamp is the payload's when truthy and else the current time;
    every other own property, the elements of an array and the prototype
    are those of the parsed value. When r is a failure, or a success
    whose value is falsy (null, false, 0, the empty string), parseSSEEvent
    returns success=false with eventType parse_error, the raw text (r's
    raw, or the data when that is empty), the error message and r's
    strategy. *)
Theorem parseSSEEvent_backfill (now eventType data : jstring)
    (requestId : option jstring) (r : ParseResult) :
  data <> u "[DONE]" ->
  robustJSONParse data = Ret r ->
  (forall d o,
      pr_success r = true -> pr_data r = Some d ->
      event_object (pr_prototype r) d = Some o ->
      exists ev,
        parseSSEEvent now eventType data requestId
        = Ret (mkParsedSSEEvent true (Some ev) (get_named (u "type") ev)
                 None None (pr_strategy r))
        /\ get_named (u "type") ev
           = or_value (get_named (u "type") o) (Some (VStr eventType))
        /\ get_named (u "request_id") ev
           = or_value (get_named (u "request_id") o)
               (match requestId with
                | Some ((_ :: _) as id) => Some (VStr id)
                | _ => get_named (u "request_id") o
                end)
        /\ get_named (u "timestamp") ev
           = or_value (get_named (u "timestamp") o) (Some (VStr now))
        /\ (forall k, k <> u "type" -> k <> u "request_id" ->
                      k <> u "timestamp" ->
                      get_named k ev = get_named k o
                      /\ lookup k (own_named ev)
                         = lookup k (own_properties d))
        /\ elements ev = array_elements d
        /\ prototype_of ev = match d with
                             | VObj _ => pr_prototype r
                             | _ => BuiltinPrototype
                             end)
  /\ (pr_success r = false \/ truthy_opt (pr_data r) = false ->
      parseSSEEvent now eventType data requestId
      = Ret (mkParsedSSEEvent false None (Some (VStr (u "parse_error")))
               (Some (or_string (pr_raw r) data))
               (Some (or_string (pr_error r) (u "Failed to parse SSE data")))
               (pr_strategy r))).
Proof.
  intros Hdone Hr. unfold parseSSEEvent, parseSSEEvent_with.
  apply jstring_eqb_neq in Hdone. rewrite Hdone, Hr. cbn [bind].
  split.
  - intros d o Hs Hd Ho. rewrite Hs, Hd. cbn [andb truthy_opt].
    assert (Ht : truthy d = true)
      by (destruct d; try discriminate Ho; reflexivity).
    rewrite Ht, Ho.
    destruct (event_object_parts _ _ _ Ho) as (Hown & Hel & Hpr).
    assert (Ktr : u "type" <> u "request_id") by discriminate.
    assert (Kts : u "type" <> u "timestamp") by discriminate.
    assert (Krt : u "request_id" <> u "type") by discriminate.
    assert (Krs : u "request_id" <> u "timestamp") by discriminate.
    assert (Kst : u "timestamp" <> u "type") by discriminate.
    assert (Ksr : u "timestamp" <> u "request_id") by discriminate.
    set (kt := u "type") in *. set (kr := u "request_id") in *.
    set (ks := u "timestamp") in *.
    set (e1 := if negb (truthy_opt (get_named kt o))
               then set_named kt (VStr eventType) o else o).
    set (e2 := if negb (truthy_opt (get_named kr e1))
                  && negb (jstring_eqb (or_string requestId []) [])
               then set_named kr (VStr (or_string requestId [])) e1 else e1).
    set (e3 := if negb (truthy_opt (get_named ks e2))
               then set_named ks (VStr now) e2 else e2).
    (* what the three steps leave alone *)
    assert (S1 : forall k, k <> kt -> get_named k e1 = get_named k o).
    { intros k Hk. unfold e1. destruct (negb (truthy_opt (get_named kt o)));
        [apply get_set_named_other; exact Hk | reflexivity]. }
    assert (S2 : forall k, k <> kr -> get_named k e2 = get_named k e1).
    { intros k Hk. unfold e2.
      destruct (negb (truthy_opt (get_named kr e1))
                && negb (jstring_eqb (or_string requestId []) []));
        [apply get_set_named_other; exact Hk | reflexivity]. }
    assert (S3 : forall k, k <> ks -> get_named k e3 = get_named k e2).
    { intros k Hk. unfold e3. destruct (negb (truthy_opt (get_named ks e2)));
        [apply get_set_named_other; exact Hk | reflexivity]. }
    (* what each step writes *)
    assert (T1 : get_named kt e1
                 = or_value (get_named kt o) (Some (VStr eventType))).
    { unfold e1, or_value. destruct (truthy_opt (get_named kt o));
        cbn [negb]; [reflexivity | apply get_set_named_same]. }
    assert (T2 : get_named kr e2
                 = or_value (get_named kr o)
                     (match requestId with
                      | Some ((_ :: _) as id) => Some (VStr id)
                      | _ => get_named kr o
                      end)).
    { unfold e2, or_value. rewrite (S1 kr Krt).
      destruct (truthy_opt (get_named kr o)); cbn [negb andb];
        [apply S1; exact Krt|].
      destruct requestId as [[|c id]|]; cbn [or_string];
        try (rewrite jstring_eqb_refl; cbn [negb]; apply S1; exact Krt).
      assert (jstring_eqb (c :: id) [] = false) as ->
        by (apply jstring_eqb_neq; discriminate).
      cbn [negb]. apply get_set_named_same. }
    assert (T3 : get_named ks e3
                 = or_value (get_named ks o) (Some (VStr now))).
    { unfold e3, or_value. rewrite (S2 ks Ksr), (S1 ks Kst).
      destruct (truthy_opt (get_named ks o)); cbn [negb];
        [rewrite (S2 ks Ksr); apply S1; exact Kst
        | apply get_set_named_same]. }
    assert (T0 : get_named kt e3
                 = or_value (get_named kt o) (Some (VStr eventType))).
    { rewrite (S3 kt Kts), (S2 kt Ktr). exact T1. }
    exists e3. split; [|split; [exact T0|split; [|split; [exact T3|]]]].
    + apply f_equal.
      apply (f_equal2 (fun a b =>
               mkParsedSSEEvent true a b None None (pr_strategy r)));
        [reflexivity|].
      rewrite T0. unfold or_value.
      destruct (get_named kt o) as [ty|]; cbn [truthy_opt];
        [destruct (truthy ty) eqn:Tty; [rewrite Tty; reflexivity|]|];
        destruct (truthy (VStr eventType)); reflexivity.
    + rewrite (S3 kr Krs). exact T2.
    + split; [|split].
      * intros k K1 K2 K3. split.
        -- rewrite (S3 k K3), (S2 k K2). apply S1. exact K1.
        -- rewrite <- Hown. unfold e3, e2, e1.
           repeat match goal with
                  | |- context [if ?b then _ else _] => destruct b
                  end;
             repeat rewrite own_set_named_other by assumption; reflexivity.
      * rewrite <- Hel. unfold e3, e2, e1.
        repeat match goal with
               | |- context [if ?b then _ else _] => destruct b
               end;
          repeat rewrite elements_set_named; reflexivity.
      * rewrite <- Hpr. unfold e3, e2, e1.
        repeat match goal with
               | |- context [if ?b then _ else _] => destruct b
               end;
          repeat rewrite prototype_set_named; reflexivity.
  - intros [Hs|Hd].
    + rewrite Hs. reflexivity.
    + rewrite Hd, andb_false_r. reflexivity.
Qed.

Lemma parseSSEEvent_backfill_witness :
  exists ev,
    parseSSEEvent (u "2026-01-01T00:00:00.000Z") (u "message")
      (uq "{'a':1,'type':''}") (Some (u "req-1"))
    = Ret (mkParsedSSEEvent true (Some ev) (Some (VStr (u "message")))
             None None (Some st_direct))
    /\ get_named (u "request_id") ev = Some (VStr (u "req-1"))
    /\ get_named (u "timestamp") ev
       = Some (VStr (u "2026-01-01T00:00:00.000Z"))
    /\ get_named (u "a") ev = Some (VNum (Num 1 0))
    /\ lookup (u "a") (own_named ev) = Some (VNum (Num 1 0))
    /\ elements ev = None
    /\ prototype_of ev = BuiltinPrototype.
Proof.
  destruct (parseSSEEvent_backfill (u "2026-01-01T00:00:00.000Z")
              (u "message") (uq "{'a':1,'type':''}") (Some (u "req-1"))
              (ok_result (VObj [(u "a", VNum (Num 1 0)); (u "type", VStr [])])
                 st_direct)) as [H _].
  - discriminate.
  - vm_compute; reflexivity.
  - destruct (H _ _ eq_refl eq_refl eq_refl)
      as (ev & Hev & Hty & Hid & Hts & Hk & Hel & Hpr).
    destruct (Hk (u "a")) as [Hk1 Hk2]; try discriminate.
    exists ev. rewrite Hev, Hty, Hid, Hts, Hk1, Hk2, Hel, Hpr.
    repeat split.
Defined.

(** ** The stream reassembler *)

Lemma stream_loop_other now requestId line lines events cet cd :
  trim line <> [] ->
  fst (parseSSELine line) = line_other ->
  stream_loop now requestId (line :: lines) events cet cd
  = stream_loop now requestId lines events cet cd.
Proof.
  intros Hb Ho. cbn [stream_loop].
  apply jstring_eqb_neq in Hb. rewrite Hb, Ho. reflexivity.
Qed.

Lemma stream_loop_skip now requestId line pre post :
  trim line <> [] ->
  fst (parseSSELine line) = line_other ->
  forall events cet cd,
    stream_loop now requestId (pre ++ line :: post) events cet cd
    = stream_loop now requestId (pre ++ post) events cet cd.
Proof.
  intros Hb Ho.
  induction pre as [|l pre IH]; intros events cet cd.
  - apply stream_loop_other; assumption.
  - cbn [app stream_loop].
    destruct (jstring_eqb (trim l) []).
    + destruct (flush_frame now requestId events cet cd); cbn [bind]; auto.
    + destruct (fst (parseSSELine l)); apply IH.
Qed.

Lemma split_lines_nonempty s : split_lines s <> [].
Proof.
  destruct s as [|c s]; cbn [split_lines]; [discriminate|].
  destruct (c =? 10)%N; [discriminate|].
  destruct (split_lines s); discriminate.
Qed.

Lemma split_lines_app a b :
  split_lines (a ++ 10%N :: b) = split_lines a ++ split_lines b.
Proof.
  induction a as [|c a IH]; [reflexivity|].
  cbn [app split_lines]. rewrite IH.
  destruct (c =? 10)%N; [reflexivity|].
  pose proof (split_lines_nonempty a) as Hne.
  destruct (split_lines a); [congruence | reflexivity].
Qed.

Lemma split_lines_single line : ~ In 10%N line -> split_lines line = [line].
Proof.
  induction line as [|c line IH]; intros Hn; [reflexivity|].
  cbn [split_lines].
  destruct (N.eqb_spec c 10) as [->|_]; [destruct Hn; left; reflexivity|].
  rewrite IH; [reflexivity|]. intros Hin. apply Hn. right. exact Hin.
Qed.

(** C10. A non-blank line that begins neither with the seven characters
    of the event prefix nor with the six characters of the data prefix is
    classified as other and ignored: wherever it stands among the lines
    and whatever the loop state, the declared type, the data buffer and
    the emitted events are what they are without it; on the raw text,
    deleting the line leaves the result of parseSSEStream unchanged. *)
Theorem unprefixed_line_ignored (now : nat -> jstring)
    (requestId : option jstring) (line : jstring) :
  trim line <> [] ->
  startsWith (u "event: ") line = false ->
  startsWith (u "data: ") line = false ->
  parseSSELine line = (line_other, line)
  /\ (forall pre post events currentEventType currentData,
        stream_loop now requestId (pre ++ line :: post) events
          currentEventType currentData
        = stream_loop now requestId (pre ++ post) events
            currentEventType currentData)
  /\ (~ In 10%N line ->
      forall before after,
        parseSSEStream now requestId (before ++ 10%N :: line ++ 10%N :: after)
        = parseSSEStream now requestId (before ++ 10%N :: after)).
Proof.
  intros Hb He Hd.
  assert (Hl : parseSSELine line = (line_other, line)).
  { unfold parseSSELine. rewrite He, Hd. reflexivity. }
  assert (Hs : forall pre post events cet cd,
             stream_loop now requestId (pre ++ line :: post) events cet cd
             = stream_loop now requestId (pre ++ post) events cet cd).
  { intros. apply stream_loop_skip; [assumption | rewrite Hl; reflexivity]. }
  repeat split; auto.
  intros Hn before after. unfold parseSSEStream.
  rewrite !split_lines_app, (split_lines_single line Hn).
  apply Hs.
Qed.

Lemma unprefixed_line_ignored_witness :
  parseSSELine (u "data:{}") = (line_other, u "data:{}")
  /\ parseSSEStream (fun _ => u "T") None
       (u "event: a" ++ 10%N :: u "data:{}" ++ 10%N :: uq "data: {'x':1}")
     = parseSSEStream (fun _ => u "T") None
         (u "event: a" ++ 10%N :: uq "data: {'x':1}").
Proof.
  destruct (unprefixed_line_ignored (fun _ => u "T") None (u "data:{}"))
    as (H1 & _ & H3).
  - discriminate.
  - reflexivity.
  - reflexivity.
  - split; [exact H1|]. apply H3.
    cbn. intros H. repeat (destruct H as [H|H]; [discriminate H|]). exact H.
Defined.

Lemma emit_app now requestId fs1 fs2 events :
  emit now requestId (fs1 ++ fs2) events
  = (events' <- emit now requestId fs1 events ;;
     emit now requestId fs2 events').
Proof.
  revert events. induction fs1 as [|[t d] fs1 IH]; intros events;
    [reflexivity|].
  cbn [app emit].
  destruct (parseSSEEvent (now (length events)) t d requestId);
    cbn [bind]; auto.
Qed.

(** The loop emits exactly the frames, through parseSSEEvent. *)
Lemma stream_loop_frames now requestId lines :
  forall events cet cd,
    stream_loop now requestId lines events cet cd
    = emit now requestId (frames lines cet cd) events.
Proof.
  induction lines as [|line lines IH]; intros events cet cd.
  - cbn [stream_loop frames]. unfold flush_frame.
    destruct cd; [reflexivity|]. cbn [emit].
    destruct (parseSSEEvent _ _ _ _); reflexivity.
  - cbn [stream_loop frames].
    destruct (jstring_eqb (trim line) []).
    + rewrite emit_app. unfold flush_frame.
      destruct cd; cbn [emit bind]; [apply IH|].
      destruct (parseSSEEvent _ _ _ _); cbn [bind]; [apply IH | reflexivity].
    + unfold parseSSELine.
      destruct (startsWith (u "event: ") line); cbn [fst snd]; [apply IH|].
      destruct (startsWith (u "data: ") line); cbn [fst snd]; apply IH.
Qed.

Lemma parseSSEStream_frames now requestId rawSSE :
  parseSSEStream now requestId rawSSE
  = emit now requestId (frames (split_lines rawSSE) None []) [].
Proof. apply stream_loop_frames. Qed.

(** C7, the code at the failing input [data: 5]: the frame collected one
    data line, its payload parses (strategy direct) to the number 5, and
    the property assignment that back-fills type throws a TypeError, so
    parseSSEStream throws instead of emitting the frame's event. *)
Theorem parseSSEStream_number_payload_throws :
  frames (split_lines (u "data: 5")) None [] = [(u "message", u "5")]
  /\ robustJSONParse (u "5") = Ret (ok_result (VNum (Num 5 0)) st_direct)
  /\ parseSSEStream (fun _ => u "2026-01-01T00:00:00.000Z") None
       (u "data: 5")
     = Throw TypeError.
Proof. repeat split; vm_compute; reflexivity. Qed.

(* ================================================================== *)
(** ** Decimal digits *)

Lemma fold_digits acc ds :
  fold_left (fun a d => (10 * a + d)%N) ds acc
  = (acc * 10 ^ N.of_nat (length ds) + digits_val ds)%N.
Proof.
  unfold digits_val. revert acc.
  induction ds as [|d ds IH]; intros acc; cbn [fold_left length].
  - cbn. lia.
  - rewrite IH, (IH (10 * 0 + d)%N), Nat2N.inj_succ, N.pow_succ_r'. lia.
Qed.

Lemma digits_val_app a b :
  digits_val (a ++ b)
  = (digits_val a * 10 ^ N.of_nat (length b) + digits_val b)%N.
Proof. unfold digits_val at 1. rewrite fold_left_app. apply fold_digits. Qed.

Lemma digits_val_cons d ds :
  digits_val (d :: ds) = (d * 10 ^ N.of_nat (length ds) + digits_val ds)%N.
Proof. apply (digits_val_app [d] ds). Qed.

Lemma digits_val_zeros k : digits_val (repeat 0%N k) = 0%N.
Proof.
  induction k as [|k IH]; [reflexivity|].
  cbn [repeat]. rewrite digits_val_cons, IH. lia.
Qed.

Lemma to_digits_aux_S f n acc :
  to_digits_aux (S f) n acc
  = if (n / 10 =? 0)%N then (n mod 10)%N :: acc
    else to_digits_aux f (n / 10)%N ((n mod 10)%N :: acc).
Proof. reflexivity. Qed.

Lemma to_digits_aux_val f : forall n acc,
  (n < 2 ^ N.of_nat (S f))%N ->
  digits_val (to_digits_aux (S f) n acc)
  = (n * 10 ^ N.of_nat (length acc) + digits_val acc)%N.
Proof.
  induction f as [|f IH]; intros n acc Hn; rewrite to_digits_aux_S.
  - assert (n / 10 = 0)%N as ->.
    { apply N.div_small. change (2 ^ N.of_nat 1)%N with 2%N in Hn. lia. }
    cbn [N.eqb]. rewrite digits_val_cons.
    rewrite N.mod_small by (change (2 ^ N.of_nat 1)%N with 2%N in Hn; lia).
    reflexivity.
  - destruct (N.eqb_spec (n / 10) 0) as [E|E].
    + rewrite digits_val_cons.
      rewrite N.mod_small; [reflexivity|].
      apply N.div_small_iff in E; lia.
    + rewrite IH.
      * cbn [length]. rewrite digits_val_cons.
        rewrite Nat2N.inj_succ, N.pow_succ_r'.
        pose proof (N.div_mod n 10) as Hdm.
        generalize dependent (10 ^ N.of_nat (length acc))%N. intros p.
        generalize dependent (n / 10)%N. intros q.
        generalize dependent (n mod 10)%N. intros r Hdm. nia.
      * rewrite Nat2N.inj_succ, N.pow_succ_r' in Hn.
        apply N.Div0.div_lt_upper_bound.
        enough (2 ^ N.of_nat (S f) > 0)%N by lia.
        assert (2 ^ N.of_nat (S f) <> 0)%N by (apply N.pow_nonzero; lia).
        lia.
Qed.

Lemma size_bound n : (n < 2 ^ N.of_nat (S (N.to_nat (N.size n))))%N.
Proof.
  rewrite Nat2N.inj_succ, N2Nat.id, N.pow_succ_r'.
  pose proof (N.size_gt n). lia.
Qed.

Lemma digits_val_to_digits n : digits_val (to_digits n) = n.
Proof.
  unfold to_digits. rewrite to_digits_aux_val by apply size_bound.
  cbn. lia.
Qed.

Lemma to_digits_aux_small f : forall n acc,
  Forall (fun d => d < 10)%N acc ->
  Forall (fun d => d < 10)%N (to_digits_aux f n acc).
Proof.
  induction f as [|f IH]; intros n acc Ha; cbn [to_digits_aux]; [exact Ha|].
  assert (Forall (fun d => d < 10)%N ((n mod 10)%N :: acc)).
  { constructor; [apply N.mod_lt; lia | exact Ha]. }
  destruct (n / 10 =? 0)%N; auto.
Qed.

Lemma to_digits_small n : Forall (fun d => d < 10)%N (to_digits n).
Proof. apply to_digits_aux_small. constructor. Qed.

Lemma to_digits_aux_head f : forall n acc,
  (n < 2 ^ N.of_nat (S f))%N -> n <> 0%N ->
  exists d tl, to_digits_aux (S f) n acc = d :: tl /\ d <> 0%N.
Proof.
  induction f as [|f IH]; intros n acc Hn H0; rewrite to_digits_aux_S.
  - assert (n / 10 = 0)%N as ->.
    { apply N.div_small. change (2 ^ N.of_nat 1)%N with 2%N in Hn. lia. }
    cbn [N.eqb]. exists (n mod 10)%N, acc. split; [reflexivity|].
    rewrite N.mod_small by (change (2 ^ N.of_nat 1)%N with 2%N in Hn; lia).
    exact H0.
  - destruct (N.eqb_spec (n / 10) 0) as [E|E].
    + exists (n mod 10)%N, acc. split; [reflexivity|].
      apply N.div_small_iff in E; [|lia].
      rewrite N.mod_small by exact E. exact H0.
    + apply IH; [|exact E].
      rewrite Nat2N.inj_succ, N.pow_succ_r' in Hn.
      apply N.Div0.div_lt_upper_bound.
      assert (2 ^ N.of_nat (S f) <> 0)%N by (apply N.pow_nonzero; lia).
      lia.
Qed.

Lemma to_digits_head n :
  n <> 0%N -> exists d tl, to_digits n = d :: tl /\ d <> 0%N.
Proof. intros H. apply to_digits_aux_head; [apply size_bound | exact H]. Qed.

Lemma to_digits_nonempty n : to_digits n <> [].
Proof.
  destruct (N.eq_dec n 0) as [->|H]; [discriminate|].
  destruct (to_digits_head n H) as (d & tl & E & _). rewrite E. discriminate.
Qed.

Lemma digit_char_is_digit d : (d < 10)%N -> is_digit (digit_char d) = true.
Proof.
  intros H. unfold is_digit, digit_char.
  apply andb_true_intro; split; apply N.leb_le; lia.
Qed.

Lemma digit_val_char d : digit_val (digit_char d) = d.
Proof. unfold digit_val, digit_char. lia. Qed.

Lemma lex_digits_no_digit s : no_digit_head s -> lex_digits s = ([], s).
Proof.
  destruct s as [|c s]; [reflexivity|]. cbn. intros ->. reflexivity.
Qed.

Lemma lex_digits_run ds s :
  Forall (fun d => d < 10)%N ds ->
  lex_digits (map digit_char ds ++ s)
  = (ds ++ fst (lex_digits s), snd (lex_digits s)).
Proof.
  induction 1 as [|d ds Hd _ IH].
  - cbn [map app]. destruct (lex_digits s); reflexivity.
  - cbn [map app lex_digits]. rewrite digit_char_is_digit by exact Hd.
    rewrite IH, digit_val_char. reflexivity.
Qed.

Lemma lex_digits_exact ds s :
  Forall (fun d => d < 10)%N ds -> no_digit_head s ->
  lex_digits (map digit_char ds ++ s) = (ds, s).
Proof.
  intros Hd Hs. rewrite lex_digits_run by exact Hd.
  rewrite lex_digits_no_digit by exact Hs. cbn. rewrite app_nil_r.
  reflexivity.
Qed.

Lemma strip10_pow m j : forall f e,
  (m mod 10 <> 0)%N -> (j <= f)%nat ->
  strip10 f (m * 10 ^ N.of_nat j) e = (m, (e + Z.of_nat j)%Z).
Proof.
  induction j as [|j IH]; intros f e Hm Hj.
  - rewrite N.mul_1_r, Z.add_0_r.
    destruct f; cbn [strip10]; [reflexivity|].
    apply N.eqb_neq in Hm. rewrite Hm. reflexivity.
  - destruct f as [|f]; [lia|]. cbn [strip10].
    rewrite Nat2N.inj_succ, N.pow_succ_r'.
    replace (m * (10 * 10 ^ N.of_nat j))%N
      with (m * 10 ^ N.of_nat j * 10)%N by lia.
    rewrite N.Div0.mod_mul, N.div_mul by lia. cbn [N.eqb].
    rewrite IH by (auto; lia). f_equal. lia.
Qed.

Lemma size_pow10 m j :
  m <> 0%N -> (j <= N.to_nat (N.size (m * 10 ^ N.of_nat j)))%nat.
Proof.
  intros Hm.
  assert (Hp : (2 ^ N.of_nat j <= m * 10 ^ N.of_nat j)%N).
  { assert (2 ^ N.of_nat j <= 10 ^ N.of_nat j)%N
      by (apply N.pow_le_mono_l; lia).
    nia. }
  assert (H0 : (m * 10 ^ N.of_nat j <> 0)%N).
  { assert (2 ^ N.of_nat j <> 0)%N by (apply N.pow_nonzero; lia). lia. }
  rewrite N.size_log2 by exact H0.
  apply N.log2_le_pow2 in Hp; lia.
Qed.

Lemma make_number_pow neg m j e :
  m <> 0%N -> (m mod 10 <> 0)%N ->
  make_number neg (m * 10 ^ N.of_nat j) e
  = Num (if neg then - Z.of_N m else Z.of_N m) (e + Z.of_nat j).
Proof.
  intros Hm Hmod. unfold make_number.
  assert (H0 : (m * 10 ^ N.of_nat j <> 0)%N).
  { assert (10 ^ N.of_nat j <> 0)%N by (apply N.pow_nonzero; lia). lia. }
  apply N.eqb_neq in H0. rewrite H0.
  rewrite strip10_pow by (auto using size_pow10). reflexivity.
Qed.

Lemma make_number_normal neg m e :
  m <> 0%N -> (m mod 10 <> 0)%N ->
  make_number neg m e = Num (if neg then - Z.of_N m else Z.of_N m) e.
Proof.
  intros Hm Hmod.
  pose proof (make_number_pow neg m 0 e Hm Hmod) as H.
  cbn [N.of_nat] in H. rewrite N.pow_0_r, N.mul_1_r, Z.add_0_r in H.
  exact H.
Qed.

(** ** Numbers: printing, then lexing *)

Lemma ends_value_no_digit s : ends_value s -> no_digit_head s.
Proof.
  destruct s as [|c s]; cbn; [auto|].
  intros [-> | [-> | ->]]; reflexivity.
Qed.

Lemma lex_fraction_skip s :
  match s with [] => True | c :: _ => c <> 46%N end ->
  lex_fraction s = Some ([], s).
Proof.
  destruct s as [|c s]; [reflexivity|]. cbn [lex_fraction].
  intros H. apply N.eqb_neq in H. rewrite H. reflexivity.
Qed.

Lemma lex_fraction_dot fp r :
  Forall (fun d => d < 10)%N fp -> fp <> [] -> no_digit_head r ->
  lex_fraction (46%N :: map digit_char fp ++ r) = Some (fp, r).
Proof.
  intros Hs Hne Hr. cbn [lex_fraction N.eqb Pos.eqb].
  rewrite lex_digits_exact by assumption.
  destruct fp; [congruence | reflexivity].
Qed.

Lemma lex_exponent_skip s :
  match s with [] => True | c :: _ => c <> 101%N /\ c <> 69%N end ->
  lex_exponent s = Some (0%Z, s).
Proof.
  destruct s as [|c s]; [reflexivity|]. cbn [lex_exponent].
  intros [H1 H2]. apply N.eqb_neq in H1, H2. rewrite H1, H2. reflexivity.
Qed.

Lemma lex_exponent_e ex rest :
  ex <> 0%Z -> no_digit_head rest ->
  lex_exponent
    (ch "e" :: (if (ex <? 0)%Z then ch "-" else ch "+")
       :: map digit_char (to_digits (Z.abs_N ex)) ++ rest)
  = Some (ex, rest).
Proof.
  intros Hex Hr. unfold lex_exponent.
  change (ch "e" =? 101)%N with true. cbn [orb].
  assert (Hl : lex_digits (map digit_char (to_digits (Z.abs_N ex)) ++ rest)
               = (to_digits (Z.abs_N ex), rest))
    by (apply lex_digits_exact; [apply to_digits_small | exact Hr]).
  pose proof (to_digits_nonempty (Z.abs_N ex)) as Hne.
  pose proof (digits_val_to_digits (Z.abs_N ex)) as Hv.
  destruct (Z.ltb_spec ex 0).
  - change (ch "-" =? 45)%N with true. cbv iota. rewrite Hl.
    destruct (to_digits (Z.abs_N ex)); [congruence|].
    rewrite Hv. f_equal. f_equal. lia.
  - change (ch "+" =? 45)%N with false. change (ch "+" =? 43)%N with true.
    cbv iota. rewrite Hl.
    destruct (to_digits (Z.abs_N ex)); [congruence|].
    rewrite Hv. f_equal. f_equal. lia.
Qed.

Lemma parse_number_body_gen neg d ip' fp ex s2 s3 rest :
  Forall (fun d => d < 10)%N (d :: ip') ->
  d <> 0%N \/ ip' = [] ->
  no_digit_head s2 ->
  lex_fraction s2 = Some (fp, s3) ->
  lex_exponent s3 = Some (ex, rest) ->
  parse_number_body neg (map digit_char (d :: ip') ++ s2)
  = Some (make_number neg (digits_val ((d :: ip') ++ fp))
            (ex - Z.of_nat (length fp)), rest).
Proof.
  intros Hs Hz Hn Hf He. unfold parse_number_body.
  rewrite lex_digits_exact by assumption.
  assert ((d =? 0)%N && negb (length ip' =? 0)%nat = false) as ->.
  { destruct Hz as [Hz | ->].
    - apply N.eqb_neq in Hz. rewrite Hz. reflexivity.
    - apply andb_false_r. }
  rewrite Hf, He. reflexivity.
Qed.

Lemma map_digit_zeros j : repeat (ch "0") j = map digit_char (repeat 0%N j).
Proof. induction j as [|j IH]; cbn [repeat map]; [|rewrite IH]; reflexivity. Qed.

Lemma Forall_firstn_skipn {A} (P : A -> Prop) n l :
  Forall P l -> Forall P (firstn n l) /\ Forall P (skipn n l).
Proof.
  intros H. rewrite <- (firstn_skipn n l) in H.
  apply Forall_app in H. exact H.
Qed.

Lemma number_body_roundtrip (a : N) (e : Z) (neg : bool) (rest : jstring) :
  a <> 0%N -> (a mod 10 <> 0)%N -> ends_value rest ->
  parse_number_body neg
    (number_body (map digit_char (to_digits a)) e ++ rest)
  = Some (Num (if neg then - Z.of_N a else Z.of_N a) e, rest)
  /\ exists d t, number_body (map digit_char (to_digits a)) e
                 = digit_char d :: t /\ (d < 10)%N.
Proof.
  intros Ha Hmod Hrest.
  destruct (to_digits_head a Ha) as (d & tl & Hds & Hd).
  pose proof (to_digits_small a) as Hsmall.
  pose proof (digits_val_to_digits a) as Hval.
  rewrite Hds in *. clear Hds.
  assert (Hd10 : (d < 10)%N) by (inversion Hsmall; assumption).
  assert (Htl : Forall (fun d => d < 10)%N tl) by (inversion Hsmall; assumption).
  pose proof (ends_value_no_digit rest Hrest) as Hnd.
  assert (Hnodot : match rest with [] => True | c :: _ => c <> 46%N end).
  { destruct rest as [|c r]; [exact I|]. cbn in Hrest.
    destruct Hrest as [-> | [-> | ->]]; discriminate. }
  assert (Hnoe : match rest with
                 | [] => True
                 | c :: _ => c <> 101%N /\ c <> 69%N
                 end).
  { destruct rest as [|c r]; [exact I|]. cbn in Hrest.
    destruct Hrest as [-> | [-> | ->]]; split; discriminate. }
  unfold number_body. rewrite length_map.
  set (k := Z.of_nat (length (d :: tl))).
  assert (Hk : (1 <= k)%Z) by (subst k; cbn [length]; lia).
  destruct ((k <=? k + e) && (k + e <=? 21))%Z eqn:CA.
  { (* plain integer *)
    apply andb_prop in CA. destruct CA as [C1 C2].
    apply Z.leb_le in C1, C2.
    replace (k + e - k)%Z with e by lia.
    split; [|exists d; eexists; split; [reflexivity | exact Hd10]].
    rewrite map_digit_zeros, <- map_app.
    change ((d :: tl) ++ repeat 0%N (Z.to_nat e))
      with (d :: (tl ++ repeat 0%N (Z.to_nat e))).
    rewrite (parse_number_body_gen neg d _ [] 0 rest rest rest).
    - rewrite app_nil_r.
      change (d :: tl ++ repeat 0%N (Z.to_nat e))
        with ((d :: tl) ++ repeat 0%N (Z.to_nat e)).
      rewrite digits_val_app, digits_val_zeros, repeat_length, Hval.
      rewrite N.add_0_r, make_number_pow by assumption.
      f_equal. f_equal. f_equal. cbn [length]. lia.
    - constructor; [exact Hd10|]. apply Forall_app. split; [exact Htl|].
      apply Forall_forall. intros x Hx. apply repeat_spec in Hx. subst x. lia.
    - left. exact Hd.
    - exact Hnd.
    - apply lex_fraction_skip. exact Hnodot.
    - apply lex_exponent_skip. exact Hnoe. }
  destruct ((0 <? k + e) && (k + e <=? 21))%Z eqn:CB.
  { (* digits, point, digits *)
    apply andb_prop in CB. destruct CB as [C1 C2].
    apply Z.ltb_lt in C1. apply Z.leb_le in C2.
    apply andb_false_iff in CA.
    assert (He : (e < 0)%Z).
    { destruct CA as [CA|CA]; [apply Z.leb_gt in CA | apply Z.leb_gt in CA];
        lia. }
    set (p := Z.to_nat (k + e)).
    assert (Hp : (0 < p < length (d :: tl))%nat) by (subst p k; lia).
    rewrite firstn_map, skipn_map.
    destruct p as [|p'] eqn:Ep; [lia|].
    cbn [firstn].
    split; [|exists d; eexists; split; [reflexivity | exact Hd10]].
    rewrite <- app_assoc. cbn [app].
    change (digit_char d :: map digit_char (firstn p' tl))
      with (map digit_char (d :: firstn p' tl)).
    assert (Hfl : skipn (S p') (d :: tl) <> []).
    { intros Hnil. apply (f_equal (@length N)) in Hnil.
      rewrite length_skipn in Hnil. cbn [length] in Hnil, Hp. lia. }
    rewrite (parse_number_body_gen neg d _ (skipn (S p') (d :: tl)) 0
               _ rest rest).
    - change ((d :: firstn p' tl) ++ skipn (S p') (d :: tl))
        with (firstn (S p') (d :: tl) ++ skipn (S p') (d :: tl)).
      rewrite firstn_skipn, Hval, make_number_normal by assumption.
      f_equal. f_equal. f_equal. rewrite length_skipn.
      subst k. cbn [length] in *. lia.
    - constructor; [exact Hd10|].
      apply (Forall_firstn_skipn _ p' tl Htl).
    - left. exact Hd.
    - reflexivity.
    - apply lex_fraction_dot; [|exact Hfl | exact Hnd].
      apply (Forall_firstn_skipn _ (S p') (d :: tl) Hsmall).
    - apply lex_exponent_skip. exact Hnoe. }
  destruct ((-6 <? k + e) && (k + e <=? 0))%Z eqn:CC.
  { (* zero, point, zeros, digits *)
    apply andb_prop in CC. destruct CC as [C1 C2].
    apply Z.ltb_lt in C1. apply Z.leb_le in C2.
    split; [|exists 0%N; eexists; split; [reflexivity | lia]].
    rewrite map_digit_zeros. cbn [app]. rewrite <- map_app.
    change (ch "0" :: ch "." ::
              map digit_char (repeat 0%N (Z.to_nat (- (k + e))) ++ d :: tl)
              ++ rest)
      with (map digit_char [0%N] ++ 46%N ::
              map digit_char (repeat 0%N (Z.to_nat (- (k + e))) ++ d :: tl)
              ++ rest).
    rewrite (parse_number_body_gen neg 0 []
               (repeat 0%N (Z.to_nat (- (k + e))) ++ d :: tl) 0 _ rest rest).
    - cbn [app]. rewrite digits_val_cons, N.mul_0_l, N.add_0_l.
      rewrite digits_val_app, digits_val_zeros, N.mul_0_l, N.add_0_l, Hval.
      rewrite make_number_normal by assumption.
      f_equal. f_equal. f_equal. rewrite length_app, repeat_length.
      subst k. cbn [length] in *. lia.
    - constructor; [lia | constructor].
    - right. reflexivity.
    - reflexivity.
    - apply lex_fraction_dot; [| |exact Hnd].
      + apply Forall_app. split; [|exact Hsmall].
        apply Forall_forall. intros x Hx. apply repeat_spec in Hx.
        subst x. lia.
      + destruct (repeat 0%N (Z.to_nat (- (k + e)))); discriminate.
    - apply lex_exponent_skip. exact Hnoe. }
  (* exponential notation *)
  apply andb_false_iff in CA, CB, CC.
  assert (Hex : (k + e - 1 <> 0)%Z).
  { destruct CB as [CB|CB]; [apply Z.ltb_ge in CB | apply Z.leb_gt in CB];
      lia. }
  cbn [map].
  split; [|destruct (map digit_char tl);
           exists d; eexists; split; try reflexivity; exact Hd10].
  destruct tl as [|d2 tl2].
  - cbn [map app].
    change [digit_char d] with (map digit_char [d]).
    change (digit_char d :: ?x) with (map digit_char [d] ++ x).
    erewrite (parse_number_body_gen neg d [] [] (k + e - 1) _ _ rest).
    + cbn [app length]. rewrite Z.sub_0_r, Hval.
      rewrite make_number_normal by assumption.
      f_equal. f_equal. f_equal. subst k. cbn [length]. lia.
    + exact Hsmall.
    + left. exact Hd.
    + reflexivity.
    + apply lex_fraction_skip. discriminate.
    + apply lex_exponent_e; assumption.
  - cbn [map app]. rewrite <- app_assoc. cbn [app].
    change (digit_char d :: ch "." :: ?x)
      with (map digit_char [d] ++ 46%N :: x).
    change (digit_char d2 :: map digit_char tl2)
      with (map digit_char (d2 :: tl2)).
    erewrite (parse_number_body_gen neg d [] (d2 :: tl2) (k + e - 1) _ _ rest).
    + cbn [app]. rewrite Hval, make_number_normal by assumption.
      f_equal. f_equal. f_equal. subst k. cbn [length]. lia.
    + constructor; [exact Hd10 | constructor].
    + left. exact Hd.
    + reflexivity.
    + apply (lex_fraction_dot (d2 :: tl2));
        [exact Htl | discriminate | reflexivity].
    + apply lex_exponent_e; assumption.
Qed.

Lemma number_roundtrip (n : number) (rest : jstring) :
  wf_number n -> ends_value rest ->
  parse_number (number_to_string n ++ rest) = Some (n, rest)
  /\ exists c t, number_to_string n = c :: t
                 /\ (c = 45%N \/ is_digit c = true).
Proof.
  intros Hwf Hrest. destruct n as [m e]. unfold wf_number in Hwf.
  cbn [mant expo] in Hwf. unfold number_to_string. cbn [mant expo].
  destruct Hwf as [[-> ->] | [Hm Hmod]].
  - cbn [Z.eqb]. split; [|exists 48%N, []; split; [reflexivity | right; reflexivity]].
    change (u "0" ++ rest) with (map digit_char [0%N] ++ rest).
    unfold parse_number. cbn [map app]. change (digit_char 0 =? 45)%N with false.
    cbv iota.
    change (digit_char 0 :: rest) with (map digit_char [0%N] ++ rest).
    rewrite (parse_number_body_gen false 0 [] [] 0 rest rest rest).
    + reflexivity.
    + constructor; [lia | constructor].
    + right; reflexivity.
    + apply ends_value_no_digit; exact Hrest.
    + apply lex_fraction_skip. destruct rest as [|c r]; [exact I|].
      cbn in Hrest. destruct Hrest as [-> | [-> | ->]]; discriminate.
    + apply lex_exponent_skip. destruct rest as [|c r]; [exact I|].
      cbn in Hrest. destruct Hrest as [-> | [-> | ->]]; split; discriminate.
  - apply Z.eqb_neq in Hm as Hm'. rewrite Hm'.
    assert (Ha : Z.abs_N m <> 0%N) by lia.
    destruct (Z.ltb_spec m 0) as [Hneg|Hpos].
    + destruct (number_body_roundtrip (Z.abs_N m) e true rest Ha Hmod Hrest)
        as [Hp (d & t & Hb & Hd)].
      split; [|exists 45%N; eexists; split; [reflexivity | left; reflexivity]].
      cbn [app parse_number]. change (ch "-" =? 45)%N with true. cbv iota.
      rewrite Hp. f_equal. f_equal. f_equal. lia.
    + destruct (number_body_roundtrip (Z.abs_N m) e false rest Ha Hmod Hrest)
        as [Hp (d & t & Hb & Hd)].
      split.
      * rewrite Hb in *. cbn [app parse_number].
        assert ((digit_char d =? 45)%N = false) as ->
          by (apply N.eqb_neq; unfold digit_char; lia).
        cbn [app] in Hp. rewrite Hp. f_equal. f_equal. f_equal. lia.
      * rewrite Hb. exists (digit_char d), t. split; [reflexivity|].
        right. apply digit_char_is_digit. exact Hd.
Qed.

(** ** Strings: quoting, then lexing *)

Lemma hex_val_digit d : (d < 16)%N -> hex_val (hex_digit d) = Some d.
Proof.
  intros H. destruct d as [|p]; [reflexivity|].
  destruct p as [[[[p|p|]|[p|p|]|]|[[p|p|]|[p|p|]|]|]
                |[[[p|p|]|[p|p|]|]|[[p|p|]|[p|p|]|]|]|];
    try reflexivity; exfalso; lia.
Qed.

Lemma hex4_escape c :
  (c < 65536)%N ->
  hex4 (hex_digit (c / 4096 mod 16)) (hex_digit (c / 256 mod 16))
    (hex_digit (c / 16 mod 16)) (hex_digit (c mod 16)) = Some c.
Proof.
  intros H. unfold hex4.
  rewrite !hex_val_digit by (apply N.mod_lt; lia).
  f_equal. zify. Z.to_euclidean_division_equations. lia.
Qed.

Lemma parse_string_escape c tail :
  (c < 65536)%N ->
  parse_string_body (unicode_escape c ++ tail)
  = match parse_string_body tail with
    | Some (str, r) => Some (c :: str, r)
    | None => None
    end.
Proof.
  intros H. unfold unicode_escape. cbn [app parse_string_body N.eqb Pos.eqb].
  rewrite hex4_escape by exact H. reflexivity.
Qed.

Lemma parse_string_literal c tail :
  c <> 34%N -> c <> 92%N -> (32 <= c)%N ->
  parse_string_body (c :: tail)
  = match parse_string_body tail with
    | Some (str, r) => Some (c :: str, r)
    | None => None
    end.
Proof.
  intros H1 H2 H3. cbn [parse_string_body].
  apply N.eqb_neq in H1, H2. rewrite H1, H2.
  assert ((c <? 32)%N = false) as -> by (apply N.ltb_ge; exact H3).
  reflexivity.
Qed.

Lemma string_roundtrip_bounded (n : nat) : forall s rest,
  (length s <= n)%nat ->
  parse_string_body (quote_body s ++ 34%N :: rest) = Some (s, rest).
Proof.
  induction n as [|n IH]; intros s rest Hlen.
  - destruct s; [reflexivity | cbn in Hlen; lia].
  - destruct s as [|c s]; [reflexivity|]. cbn [length] in Hlen.
    assert (IHs : parse_string_body (quote_body s ++ 34%N :: rest)
                  = Some (s, rest)) by (apply IH; lia).
    cbn [quote_body].
    destruct (N.eqb_spec c 8) as [->|N8]; [cbn; rewrite IHs; reflexivity|].
    destruct (N.eqb_spec c 9) as [->|N9]; [cbn; rewrite IHs; reflexivity|].
    destruct (N.eqb_spec c 10) as [->|N10]; [cbn; rewrite IHs; reflexivity|].
    destruct (N.eqb_spec c 12) as [->|N12]; [cbn; rewrite IHs; reflexivity|].
    destruct (N.eqb_spec c 13) as [->|N13]; [cbn; rewrite IHs; reflexivity|].
    destruct (N.eqb_spec c 34) as [->|N34]; [cbn; rewrite IHs; reflexivity|].
    destruct (N.eqb_spec c 92) as [->|N92]; [cbn; rewrite IHs; reflexivity|].
    destruct (N.ltb_spec c 32) as [L32|G32].
    { rewrite <- app_assoc, parse_string_escape by lia.
      rewrite IHs. reflexivity. }
    unfold is_high_surrogate, is_low_surrogate.
    destruct ((55296 <=? c) && (c <=? 56319))%N eqn:Hh.
    { apply andb_prop in Hh. destruct Hh as [Hh1 Hh2].
      apply N.leb_le in Hh1, Hh2.
      destruct s as [|c2 s2].
      - rewrite parse_string_escape by lia. reflexivity.
      - destruct ((56320 <=? c2) && (c2 <=? 57343))%N eqn:Hl.
        + apply andb_prop in Hl. destruct Hl as [Hl1 Hl2].
          apply N.leb_le in Hl1, Hl2.
          cbn [app]. rewrite parse_string_literal by lia.
          rewrite parse_string_literal by lia.
          rewrite IH by (cbn [length] in Hlen; lia). reflexivity.
        + rewrite <- app_assoc, parse_string_escape by lia.
          rewrite IHs. reflexivity. }
    destruct ((56320 <=? c) && (c <=? 57343))%N eqn:Hl.
    { apply andb_prop in Hl. destruct Hl as [Hl1 Hl2].
      apply N.leb_le in Hl1, Hl2.
      rewrite <- app_assoc, parse_string_escape by lia.
      rewrite IHs. reflexivity. }
    cbn [app]. rewrite parse_string_literal by lia.
    rewrite IHs. reflexivity.
Qed.

Lemma string_roundtrip s rest :
  parse_string_body (quote_body s ++ 34%N :: rest) = Some (s, rest).
Proof. apply (string_roundtrip_bounded (length s)). lia. Qed.

(** ** Values: [JSON.stringify], then [JSON.parse] *)

Lemma wf_numberb_spec n : wf_numberb n = true -> wf_number n.
Proof.
  unfold wf_numberb, wf_number. intros H.
  apply orb_prop in H. destruct H as [H|H]; apply andb_prop in H;
    destruct H as [H1 H2].
  - left. split; apply Z.eqb_eq; assumption.
  - right. apply negb_true_iff in H1, H2. split.
    + apply Z.eqb_neq; assumption.
    + apply N.eqb_neq; assumption.
Qed.

Lemma set_own_fresh k v ps :
  existsb (jstring_eqb k) (map fst ps) = false ->
  set_own k v ps = ps ++ [(k, v)].
Proof.
  induction ps as [|[k' v'] ps IH]; cbn [set_own map fst existsb app];
    [reflexivity|].
  intros H. apply orb_false_iff in H. destruct H as [H1 H2].
  rewrite H1, IH by exact H2. reflexivity.
Qed.

Lemma existsb_app_keys k (a b : list jstring) :
  existsb (jstring_eqb k) (a ++ b)
  = existsb (jstring_eqb k) a || existsb (jstring_eqb k) b.
Proof. apply existsb_app. Qed.

Lemma jstring_eqb_sym a b : jstring_eqb a b = jstring_eqb b a.
Proof.
  destruct (jstring_eqb a b) eqn:E.
  - apply jstring_eqb_eq in E. subst. symmetry. apply jstring_eqb_refl.
  - symmetry. apply jstring_eqb_neq. apply jstring_eqb_neq in E. congruence.
Qed.

Lemma build_object_acc ms : forall acc,
  distinct_keys (map fst ms) = true ->
  (forall k, In k (map fst ms) ->
             existsb (jstring_eqb k) (map fst acc) = false) ->
  fold_left (fun ps kv => set_own (fst kv) (snd kv) ps) ms acc = acc ++ ms.
Proof.
  induction ms as [|[k v] ms IH]; intros acc Hd Hacc; cbn [fold_left].
  - rewrite app_nil_r. reflexivity.
  - cbn [map fst snd distinct_keys] in *.
    apply andb_prop in Hd. destruct Hd as [Hk Hd].
    apply negb_true_iff in Hk.
    rewrite set_own_fresh by (apply Hacc; left; reflexivity).
    rewrite IH.
    + rewrite <- app_assoc. reflexivity.
    + exact Hd.
    + intros k' Hin. rewrite map_app, existsb_app.
      rewrite Hacc by (right; exact Hin). cbn [map fst existsb orb].
      rewrite orb_false_r.
      destruct (jstring_eqb k' k) eqn:E; [|reflexivity].
      apply jstring_eqb_eq in E. subst k'.
      assert (existsb (jstring_eqb k) (map fst ms) = true).
      { apply existsb_exists. exists k. split; [exact Hin|].
        apply jstring_eqb_refl. }
      congruence.
Qed.

Lemma build_object_distinct ms :
  distinct_keys (map fst ms) = true -> build_object ms = ms.
Proof.
  intros H. unfold build_object. rewrite build_object_acc; auto.
Qed.

Lemma skip_ws_head c s : is_json_ws c = false -> skip_ws (c :: s) = c :: s.
Proof. intros H. cbn [skip_ws]. rewrite H. reflexivity. Qed.

Lemma stringify_head v :
  wf_value v = true ->
  exists c t, JSON_stringify v = c :: t /\ value_head c.
Proof.
  destruct v as [|[|]|n|s|l|ps]; cbn [wf_value JSON_stringify]; intros Hwf;
    try (eexists; eexists; split; [reflexivity|];
         repeat split; (reflexivity || discriminate)).
  destruct (number_roundtrip n [] (wf_numberb_spec n Hwf) I)
    as [_ (c & t & E & Hc)].
  exists c, t. split; [exact E|].
  destruct Hc as [-> | Hc]; [repeat split; (reflexivity || discriminate)|].
  unfold is_digit in Hc. apply andb_prop in Hc. destruct Hc as [H1 H2].
  apply N.leb_le in H1, H2. unfold value_head, is_json_ws.
  repeat split; try lia.
  repeat (apply orb_false_iff; split); apply N.eqb_neq; lia.
Qed.

Lemma skip_ws_value x r :
  (exists c t, JSON_stringify x = c :: t /\ value_head c) ->
  skip_ws (JSON_stringify x ++ r) = JSON_stringify x ++ r.
Proof.
  intros (c & t & E & Hc & _). rewrite E. cbn [app].
  apply skip_ws_head. exact Hc.
Qed.

Section container_roundtrip.
Variable parse_val : jstring -> pres value.

Lemma parse_elements_stringify (l : list value) : forall g rest,
  l <> [] -> (length l <= g)%nat ->
  Forall (fun x => forall r, ends_value r ->
                     parse_val (JSON_stringify x ++ r) = POk x r) l ->
  Forall (fun x => exists c t, JSON_stringify x = c :: t /\ value_head c) l ->
  parse_elements parse_val g
    (stringify_elements JSON_stringify l ++ 93%N :: rest)
  = POk l rest.
Proof.
  induction l as [|x l IH]; intros g rest Hne Hg Hp Hh; [congruence|].
  destruct g as [|g]; [cbn in Hg; lia|].
  inversion Hp as [|? ? Hx Hp']; subst.
  inversion Hh as [|? ? Hhx Hh']; subst.
  cbn [parse_elements stringify_elements].
  destruct l as [|y l'].
  - rewrite Hx by (cbn; auto). cbn [skip_ws is_json_ws N.eqb Pos.eqb orb].
    reflexivity.
  - rewrite <- app_assoc. cbn [app].
    rewrite Hx by (cbn; auto). cbn [skip_ws is_json_ws N.eqb Pos.eqb orb].
    inversion Hh' as [|? ? (c & t & E & Hc & _) _]; subst.
    assert (Hs : skip_ws (stringify_elements JSON_stringify (y :: l')
                          ++ 93%N :: rest)
                 = stringify_elements JSON_stringify (y :: l')
                   ++ 93%N :: rest).
    { cbn [stringify_elements]. destruct l'; rewrite E;
        cbn [app]; apply skip_ws_head; exact Hc. }
    rewrite Hs, IH; try assumption; [reflexivity | discriminate |].
    cbn [length] in *. lia.
Qed.

Lemma parse_members_stringify (ps : props) : forall g rest,
  ps <> [] -> (length ps <= g)%nat ->
  Forall (fun kv => forall r, ends_value r ->
                      parse_val (JSON_stringify (snd kv) ++ r)
                      = POk (snd kv) r) ps ->
  Forall (fun kv => exists c t, JSON_stringify (snd kv) = c :: t
                                /\ value_head c) ps ->
  parse_members parse_val g
    (stringify_members JSON_stringify ps ++ 125%N :: rest)
  = POk ps rest.
Proof.
  induction ps as [|[k x] ps IH]; intros g rest Hne Hg Hp Hh; [congruence|].
  destruct g as [|g]; [cbn in Hg; lia|].
  inversion Hp as [|? ? Hx Hp']; subst.
  inversion Hh as [|? ? Hhx Hh']; subst.
  cbn [snd] in *.
  cbn [parse_members stringify_members].
  unfold stringify_member, quote. cbn [fst snd].
  destruct ps as [|[k2 y] ps'].
  - cbn [app]. repeat rewrite <- app_assoc. cbn [app N.eqb Pos.eqb].
    rewrite string_roundtrip.
    cbn [skip_ws is_json_ws N.eqb Pos.eqb orb].
    rewrite skip_ws_value by exact Hhx.
    rewrite Hx by (cbn; auto). cbn [skip_ws is_json_ws N.eqb Pos.eqb orb].
    reflexivity.
  - cbn [app]. repeat rewrite <- app_assoc. cbn [app N.eqb Pos.eqb].
    rewrite string_roundtrip.
    cbn [skip_ws is_json_ws N.eqb Pos.eqb orb].
    rewrite skip_ws_value by exact Hhx.
    rewrite Hx by (cbn; auto). cbn [skip_ws is_json_ws N.eqb Pos.eqb orb].
    assert (Hs : skip_ws (stringify_members JSON_stringify ((k2, y) :: ps')
                          ++ 125%N :: rest)
                 = stringify_members JSON_stringify ((k2, y) :: ps')
                   ++ 125%N :: rest).
    { cbn [stringify_members]. unfold stringify_member, quote.
      destruct ps'; cbn [app]; reflexivity. }
    rewrite Hs, IH; try assumption; [reflexivity | discriminate |].
    cbn [length] in *. lia.
Qed.
End container_roundtrip.

Lemma parse_value_number f c s :
  c = 45%N \/ is_digit c = true ->
  parse_value (S f) (c :: s)
  = match parse_number (c :: s) with
    | Some (n, r) => POk (VNum n) r
    | None => PErr
    end.
Proof.
  intros H.
  assert (Hc : c = 45%N \/ (48 <= c <= 57)%N).
  { destruct H as [H|H]; [left; exact H | right].
    unfold is_digit in H. apply andb_prop in H. destruct H as [H1 H2].
    apply N.leb_le in H1, H2. lia. }
  cbn [parse_value].
  change (u "true") with [116; 114; 117; 101]%N.
  change (u "false") with [102; 97; 108; 115; 101]%N.
  change (u "null") with [110; 117; 108; 108]%N.
  cbn [startsWith].
  assert ((c =? 123)%N = false) as -> by (apply N.eqb_neq; lia).
  assert ((c =? 91)%N = false) as -> by (apply N.eqb_neq; lia).
  assert ((c =? 34)%N = false) as -> by (apply N.eqb_neq; lia).
  assert ((116 =? c)%N = false) as -> by (apply N.eqb_neq; lia).
  assert ((102 =? c)%N = false) as -> by (apply N.eqb_neq; lia).
  assert ((110 =? c)%N = false) as -> by (apply N.eqb_neq; lia).
  reflexivity.
Qed.

Lemma stringify_elements_length (str : value -> jstring) l :
  (length l <= S (length (stringify_elements str l)))%nat.
Proof.
  induction l as [|x l IH]; cbn [stringify_elements length]; [lia|].
  destruct l as [|y l']; [cbn [length]; lia|].
  rewrite length_app. cbn [length] in *. lia.
Qed.

Lemma stringify_elements_bound (str : value -> jstring) l x :
  In x l -> (length (str x) <= length (stringify_elements str l))%nat.
Proof.
  induction l as [|y l IH]; intros Hin; [destruct Hin|].
  cbn [stringify_elements].
  destruct Hin as [-> | Hin].
  - destruct l; [lia|]. rewrite length_app. lia.
  - destruct l as [|z l']; [destruct Hin|].
    rewrite length_app. cbn [length]. specialize (IH Hin). lia.
Qed.

Lemma stringify_members_length (str : value -> jstring) ps :
  (length ps <= S (length (stringify_members str ps)))%nat.
Proof.
  induction ps as [|x l IH]; cbn [stringify_members length]; [lia|].
  destruct l as [|y l']; [cbn [length]; lia|].
  rewrite length_app. cbn [length] in *. lia.
Qed.

Lemma stringify_members_bound (str : value -> jstring) ps kv :
  In kv ps ->
  (length (str (snd kv)) <= length (stringify_members str ps))%nat.
Proof.
  induction ps as [|y l IH]; intros Hin; [destruct Hin|].
  cbn [stringify_members].
  assert (Hm : forall p, (length (str (snd p))
                          <= length (stringify_member str p))%nat).
  { intros p. unfold stringify_member. rewrite length_app. cbn [length]. lia. }
  destruct Hin as [-> | Hin].
  - destruct l; [apply Hm|]. rewrite length_app. specialize (Hm kv). lia.
  - destruct l as [|z l']; [destruct Hin|].
    rewrite length_app. cbn [length]. specialize (IH Hin). lia.
Qed.

Lemma parse_value_stringify (v : value) :
  wf_value v = true ->
  forall fuel rest,
    (length (JSON_stringify v) <= fuel)%nat -> ends_value rest ->
    parse_value fuel (JSON_stringify v ++ rest) = POk v rest.
Proof.
  induction v as [|b|n|s|l IH|ps IH] using value_nested_ind;
    intros Hwf fuel rest Hf Hr.
  - destruct fuel; [cbn in Hf; lia | reflexivity].
  - destruct fuel; [destruct b; cbn in Hf; lia | destruct b; reflexivity].
  - cbn [wf_value] in Hwf. cbn [JSON_stringify] in *.
    destruct (number_roundtrip n rest (wf_numberb_spec n Hwf) Hr)
      as [Hp (c & t & E & Hc)].
    rewrite E in *. cbn [app] in *.
    destruct fuel; [cbn in Hf; lia|].
    rewrite parse_value_number by exact Hc.
    match goal with
    | |- match ?p with _ => _ end = _ =>
        replace p with (Some (n, rest)) by (symmetry; exact Hp)
    end.
    reflexivity.
  - destruct fuel; [cbn in Hf; lia|].
    cbn [JSON_stringify]. unfold quote. cbn [app parse_value N.eqb Pos.eqb].
    rewrite <- app_assoc. cbn [app]. rewrite string_roundtrip. reflexivity.
  - cbn [wf_value] in Hwf. cbn [JSON_stringify] in *.
    destruct fuel as [|f]; [cbn in Hf; lia|].
    cbn [app parse_value N.eqb Pos.eqb]. rewrite <- app_assoc. cbn [app].
    destruct l as [|x l']; [reflexivity|].
    assert (Hh : Forall (fun x => exists c t, JSON_stringify x = c :: t
                                              /\ value_head c) (x :: l')).
    { apply Forall_forall. intros y Hy. apply stringify_head.
      rewrite forallb_forall in Hwf. apply Hwf. exact Hy. }
    assert (Hs : skip_ws (stringify_elements JSON_stringify (x :: l')
                          ++ 93%N :: rest)
                 = stringify_elements JSON_stringify (x :: l')
                   ++ 93%N :: rest).
    { inversion Hh as [|? ? (c & t & E & Hc & _) _]; subst.
      cbn [stringify_elements]. destruct l'; rewrite E; cbn [app];
        apply skip_ws_head; exact Hc. }
    rewrite Hs.
    assert (Hc1 : exists c1 s2,
               stringify_elements JSON_stringify (x :: l') ++ 93%N :: rest
               = c1 :: s2 /\ c1 <> 93%N).
    { inversion Hh as [|? ? (c & t & E & _ & Hc & _) _]; subst.
      cbn [stringify_elements]. destruct l'; rewrite E; cbn [app];
        eexists; eexists; (split; [reflexivity | exact Hc]). }
    destruct Hc1 as (c1 & s2 & E1 & Hc1).
    rewrite E1. apply N.eqb_neq in Hc1. rewrite Hc1. rewrite <- E1.
    rewrite parse_elements_stringify; [reflexivity | discriminate | | | exact Hh].
    + pose proof (stringify_elements_length JSON_stringify (x :: l')).
      rewrite length_app. cbn [length] in *. lia.
    + apply Forall_forall. intros y Hy r Hr'.
      rewrite Forall_forall in IH. apply IH; try assumption.
      * rewrite forallb_forall in Hwf. apply Hwf. exact Hy.
      * pose proof (stringify_elements_bound JSON_stringify (x :: l') y Hy).
        cbn [length] in Hf. rewrite length_app in Hf. cbn [length] in Hf. lia.
  - cbn [wf_value] in Hwf. apply andb_prop in Hwf. destruct Hwf as [Hd Hwf].
    cbn [JSON_stringify] in *.
    destruct fuel as [|f]; [cbn in Hf; lia|].
    cbn [app parse_value N.eqb Pos.eqb]. rewrite <- app_assoc. cbn [app].
    destruct ps as [|[k x] ps']; [reflexivity|].
    assert (Hh : Forall (fun kv => exists c t,
                             JSON_stringify (snd kv) = c :: t
                             /\ value_head c) ((k, x) :: ps')).
    { apply Forall_forall. intros y Hy. apply stringify_head.
      rewrite forallb_forall in Hwf. apply Hwf. exact Hy. }
    assert (E1 : exists s2,
               stringify_members JSON_stringify ((k, x) :: ps')
                 ++ 125%N :: rest = 34%N :: s2).
    { cbn [stringify_members]. unfold stringify_member, quote.
      destruct ps'; cbn [app]; eexists; reflexivity. }
    destruct E1 as (s2 & E1). rewrite E1.
    cbn [skip_ws is_json_ws N.eqb Pos.eqb orb]. rewrite <- E1.
    rewrite parse_members_stringify;
      [rewrite build_object_distinct by exact Hd; reflexivity
      | discriminate | | | exact Hh].
    + pose proof (stringify_members_length JSON_stringify ((k, x) :: ps')).
      rewrite length_app. cbn [length] in *. lia.
    + apply Forall_forall. intros y Hy r Hr'.
      rewrite Forall_forall in IH. apply IH; try assumption.
      * rewrite forallb_forall in Hwf. apply Hwf. exact Hy.
      * pose proof (stringify_members_bound JSON_stringify
                      ((k, x) :: ps') y Hy).
        cbn [length] in Hf. rewrite length_app in Hf. cbn [length] in Hf. lia.
Qed.

(** [JSON.parse(JSON.stringify(v))] is [v]. *)
Lemma JSON_parse_stringify (v : value) :
  wf_value v = true -> JSON_parse (JSON_stringify v) = Ret v.
Proof.
  intros Hwf. unfold JSON_parse.
  pose proof (skip_ws_value v [] (stringify_head v Hwf)) as Hs.
  rewrite app_nil_r in Hs. rewrite Hs.
  assert (Hl : (length (JSON_stringify v)
                <= S (length (JSON_stringify v)))%nat) by lia.
  pose proof (parse_value_stringify v Hwf _ [] Hl I) as Hp.
  rewrite app_nil_r in Hp. rewrite Hp. reflexivity.
Qed.

(** ** Round trip of canonical responses *)

Lemma trimEnd_last s c :
  is_js_space c = false -> trimEnd (s ++ [c]) = s ++ [c].
Proof.
  intros H. unfold trimEnd. rewrite rev_app_distr. cbn [rev app trimStart].
  rewrite H. cbn [rev]. rewrite rev_involutive. reflexivity.
Qed.

Lemma trim_object_text ps :
  trim (JSON_stringify (VObj ps)) = JSON_stringify (VObj ps).
Proof.
  cbn [JSON_stringify]. unfold trim. cbn [trimStart].
  change (is_js_space 123) with false. cbv iota.
  change (123%N :: stringify_members JSON_stringify ps ++ [125%N])
    with ((123%N :: stringify_members JSON_stringify ps) ++ [125%N]).
  apply trimEnd_last. reflexivity.
Qed.

Lemma lookup_absent k ps :
  existsb (jstring_eqb k) (map fst ps) = false -> lookup k ps = None.
Proof.
  induction ps as [|[k' v] ps IH]; cbn [map fst existsb lookup];
    [reflexivity|].
  intros H. apply orb_false_iff in H. destruct H as [H1 H2].
  rewrite H1. apply IH. exact H2.
Qed.

Lemma lookup_other_key k ps :
  forallb (fun kv => jstring_eqb (fst kv) (u "status")
                     || jstring_eqb (fst kv) (u "result")
                     || jstring_eqb (fst kv) (u "message")
                     || jstring_eqb (fst kv) (u "metadata")) ps = true ->
  k <> u "status" -> k <> u "result" -> k <> u "message" ->
  k <> u "metadata" ->
  lookup k ps = None.
Proof.
  intros Hall H1 H2 H3 H4.
  induction ps as [|[k' v] ps IH]; [reflexivity|].
  cbn [forallb fst] in Hall. apply andb_prop in Hall.
  destruct Hall as [Hk Hall]. cbn [lookup].
  destruct (jstring_eqb k k') eqn:E; [|apply IH; exact Hall].
  apply jstring_eqb_eq in E. subst k'.
  apply jstring_eqb_neq in H1, H2, H3, H4.
  rewrite H1, H2, H3, H4 in Hk. discriminate Hk.
Qed.

(** C9. For every canonical object c = {status, result, message?,
    metadata?} (status 'success' or 'error', result an object, JSON values
    inside), normalizeResponse(robustJSONParse(JSON.stringify(c)).data)
    returns a response that equals c: property by property, what it holds
    is what c holds. *)
Theorem canonical_roundtrip (stack : nat) (ps : props) :
  canonical ps = true ->
  exists n,
    (r <- robustJSONParse (JSON_stringify (VObj ps)) ;;
     normalizeResponse stack (pr_data r)) = Ret n
    /\ forall k, lookup k (response_props n) = lookup k ps.
Proof.
  unfold canonical. intros H.
  apply andb_prop in H. destruct H as [H Hkeys].
  apply andb_prop in H. destruct H as [H Hmeta].
  apply andb_prop in H. destruct H as [H Hmsg].
  apply andb_prop in H. destruct H as [H Hres].
  apply andb_prop in H. destruct H as [Hwf Hst].
  rewrite (robustJSONParse_direct (JSON_stringify (VObj ps)) (VObj ps))
    by (rewrite trim_object_text; apply JSON_parse_stringify; exact Hwf).
  cbn [bind ok_result pr_data normalizeResponse].
  rewrite normalizeDefined_eq. unfold normalize_body.
  cbn [truthy negb typeof js_in js_get bind].
  destruct (lookup (u "status") ps) as [[| | |st| |]|] eqn:Est;
    try discriminate Hst.
  destruct (lookup (u "result") ps) as [[| | | | |res]|] eqn:Eres;
    try discriminate Hres.
  cbn [andb bind truthy]. eexists. split; [reflexivity|].
  intros k. unfold response_props. cbn [status result message metadata].
  assert (Hstatus : VStr (match status_of (Some (VStr st)) with
                          | status_success => u "success"
                          | status_error => u "error"
                          end) = VStr st).
  { cbn [status_of]. apply orb_prop in Hst.
    destruct (jstring_eqb st (u "error")) eqn:Ee.
    - apply jstring_eqb_eq in Ee. subst st. reflexivity.
    - destruct Hst as [Hs|Hs]; [|congruence].
      apply jstring_eqb_eq in Hs. subst st. reflexivity. }
  rewrite Hstatus.
  destruct (lookup (u "message") ps) as [m|] eqn:Em;
    destruct (lookup (u "metadata") ps) as [md|] eqn:Emd;
    cbn [app lookup];
    (destruct (jstring_eqb k (u "status")) eqn:K1;
     [apply jstring_eqb_eq in K1; subst k; rewrite Est; reflexivity|]);
    (destruct (jstring_eqb k (u "result")) eqn:K2;
     [apply jstring_eqb_eq in K2; subst k; rewrite Eres; reflexivity|]);
    (destruct (jstring_eqb k (u "message")) eqn:K3;
     [apply jstring_eqb_eq in K3; subst k; rewrite Em; reflexivity|]);
    (destruct (jstring_eqb k (u "metadata")) eqn:K4;
     [apply jstring_eqb_eq in K4; subst k; rewrite Emd; reflexivity|]);
    rewrite (lookup_other_key k ps Hkeys)
      by (apply jstring_eqb_neq; assumption);
    reflexivity.
Qed.

Lemma canonical_roundtrip_witness :
  exists n,
    (r <- robustJSONParse
            (uq "{'status':'error','result':{'a':-12.5,'b':[true,null,'x\ny'],'c':{}},'message':'no \'luck\''}") ;;
     normalizeResponse 0 (pr_data r)) = Ret n
    /\ status n = status_error
    /\ lookup (u "result") (response_props n)
       = Some (VObj [(u "a", VNum (Num (-125) (-1)));
                     (u "b", VArr [VBool true; VNull; VStr (u "x" ++ 10%N :: u "y")]);
                     (u "c", VObj [])])
    /\ message n = Some (VStr (u "no " ++ 34%N :: u "luck" ++ [34%N]))
    /\ metadata n = None.
Proof.
  destruct (canonical_roundtrip 0
              [(u "status", VStr (u "error"));
               (u "result",
                VObj [(u "a", VNum (Num (-125) (-1)));
                      (u "b", VArr [VBool true; VNull;
                                    VStr (u "x" ++ 10%N :: u "y")]);
                      (u "c", VObj [])]);
               (u "message", VStr (u "no " ++ 34%N :: u "luck" ++ [34%N]))])
    as (n & Hn & Hk).
  - vm_compute. reflexivity.
  - exists n. split; [exact Hn|].
    assert (E : Ret n
                = Ret (mkNormalized status_error
                         (VObj [(u "a", VNum (Num (-125) (-1)));
                                (u "b", VArr [VBool true; VNull;
                                              VStr (u "x" ++ 10%N :: u "y")]);
                                (u "c", VObj [])])
                         (Some (VStr (u "no " ++ 34%N :: u "luck" ++ [34%N])))
                         None)).
    { rewrite <- Hn. vm_compute. reflexivity. }
    injection E as ->. repeat split.
Defined.

(* ================================================================== *)
(** ** The recursion budget of [JSON_parse] is never exhausted *)

Lemma skip_ws_length s : (length (skip_ws s) <= length s)%nat.
Proof.
  induction s as [|c s IH]; cbn [skip_ws length]; [lia|].
  destruct (is_json_ws c); cbn [length]; lia.
Qed.

Lemma lex_digits_length s : (length (snd (lex_digits s)) <= length s)%nat.
Proof.
  induction s as [|c s IH]; cbn [lex_digits length snd]; [lia|].
  destruct (is_digit c); [|cbn [snd length]; lia].
  destruct (lex_digits s). cbn [snd] in *. lia.
Qed.

Lemma lex_fraction_length s fp r :
  lex_fraction s = Some (fp, r) -> (length r <= length s)%nat.
Proof.
  unfold lex_fraction. destruct s as [|c s]; [intros [= <- <-]; lia|].
  destruct (c =? 46)%N; [|intros [= <- <-]; lia].
  pose proof (lex_digits_length s) as H.
  destruct (lex_digits s) as [[|d ds] s']; [discriminate|].
  intros [= <- <-]. cbn [snd length] in *. lia.
Qed.

Lemma lex_exponent_length s e r :
  lex_exponent s = Some (e, r) -> (length r <= length s)%nat.
Proof.
  unfold lex_exponent. destruct s as [|c s]; [intros [= <- <-]; lia|].
  destruct ((c =? 101)%N || (c =? 69)%N); [|intros [= <- <-]; lia].
  destruct s as [|c1 r'].
  - cbn. discriminate.
  - destruct (c1 =? 45)%N; [|destruct (c1 =? 43)%N].
    + pose proof (lex_digits_length r') as Hl.
      destruct (lex_digits r') as [[|d ds] s']; [discriminate|].
      intros [= <- <-]. cbn [snd length] in *. lia.
    + pose proof (lex_digits_length r') as Hl.
      destruct (lex_digits r') as [[|d ds] s']; [discriminate|].
      intros [= <- <-]. cbn [snd length] in *. lia.
    + pose proof (lex_digits_length (c1 :: r')) as Hl.
      destruct (lex_digits (c1 :: r')) as [[|d ds] s']; [discriminate|].
      intros [= <- <-]. cbn [snd length] in *. lia.
Qed.

Lemma parse_number_body_length neg s n r :
  parse_number_body neg s = Some (n, r) -> (length r <= length s)%nat.
Proof.
  unfold parse_number_body. pose proof (lex_digits_length s) as Hl.
  destruct (lex_digits s) as [[|d ip] s2]; [discriminate|].
  destruct ((d =? 0)%N && negb (length ip =? 0)%nat); [discriminate|].
  destruct (lex_fraction s2) as [[fp s3]|] eqn:Ef; [|discriminate].
  destruct (lex_exponent s3) as [[e s4]|] eqn:Ee; [|discriminate].
  intros [= <- <-].
  apply lex_fraction_length in Ef. apply lex_exponent_length in Ee.
  cbn [snd] in Hl. lia.
Qed.

Lemma parse_number_length s n r :
  parse_number s = Some (n, r) -> (length r <= length s)%nat.
Proof.
  unfold parse_number. destruct s as [|c s]; [discriminate|].
  destruct (c =? 45)%N; intros H; apply parse_number_body_length in H;
    cbn [length] in *; lia.
Qed.

Lemma parse_string_body_length_bounded (n : nat) : forall s x r,
  (length s <= n)%nat ->
  parse_string_body s = Some (x, r) -> (length r < length s)%nat.
Proof.
  induction n as [|n IH]; intros s x r Hn; destruct s as [|c s];
    try discriminate; cbn [length] in Hn; [lia|].
  cbn [parse_string_body].
  destruct (c =? 34)%N; [intros [= <- <-]; cbn [length]; lia|].
  destruct (c =? 92)%N.
  - destruct s as [|e s2]; [discriminate|].
    destruct (e =? 117)%N.
    + destruct s2 as [|h1 [|h2 [|h3 [|h4 s3]]]]; try discriminate.
      destruct (hex4 h1 h2 h3 h4); [|discriminate].
      destruct (parse_string_body s3) as [[str r']|] eqn:E; [|discriminate].
      intros [= <- <-]. apply IH in E; cbn [length] in *; lia.
    + destruct (simple_escape e); [|discriminate].
      destruct (parse_string_body s2) as [[str r']|] eqn:E; [|discriminate].
      intros [= <- <-]. apply IH in E; cbn [length] in *; lia.
  - destruct (c <? 32)%N; [discriminate|].
    destruct (parse_string_body s) as [[str r']|] eqn:E; [|discriminate].
    intros [= <- <-]. apply IH in E; cbn [length] in *; lia.
Qed.

Lemma parse_string_body_length s x r :
  parse_string_body s = Some (x, r) -> (length r < length s)%nat.
Proof. apply (parse_string_body_length_bounded (length s)). lia. Qed.

Section container_budget.
Variable parse_val : jstring -> pres value.
Variable bound : nat.
Hypothesis parse_val_budget :
  forall s, (length s <= bound)%nat -> parse_val s <> PFuel.
Hypothesis parse_val_length :
  forall s v r, (length s <= bound)%nat ->
                parse_val s = POk v r -> (length r <= length s)%nat.

Lemma parse_elements_budget (g : nat) : forall s,
  (length s <= bound)%nat -> (length s < g)%nat ->
  parse_elements parse_val g s <> PFuel
  /\ forall vs r, parse_elements parse_val g s = POk vs r ->
                  (length r <= length s)%nat.
Proof.
  induction g as [|g IH]; intros s Hb Hg; [lia|].
  cbn [parse_elements].
  pose proof (parse_val_budget s Hb) as Hf.
  pose proof (fun v r => parse_val_length s v r Hb) as Hl.
  destruct (parse_val s) as [v r| |]; [|split; discriminate|congruence].
  specialize (Hl v r eq_refl).
  pose proof (skip_ws_length r) as Hw.
  destruct (skip_ws r) as [|c r2]; [split; discriminate|].
  cbn [length] in Hw.
  destruct (c =? 44)%N.
  - pose proof (skip_ws_length r2) as Hw2.
    destruct (IH (skip_ws r2)) as [Hnf Hlen]; [lia | lia |].
    destruct (parse_elements parse_val g (skip_ws r2)) as [vs r'| |];
      [|split; discriminate|congruence].
    split; [discriminate|]. intros vs0 r0 [= <- <-].
    specialize (Hlen vs r' eq_refl). lia.
  - destruct (c =? 93)%N; [|split; discriminate].
    split; [discriminate|]. intros vs0 r0 [= <- <-]. lia.
Qed.

Lemma parse_members_budget (g : nat) : forall s,
  (length s <= bound)%nat -> (length s < g)%nat ->
  parse_members parse_val g s <> PFuel
  /\ forall ms r, parse_members parse_val g s = POk ms r ->
                  (length r <= length s)%nat.
Proof.
  induction g as [|g IH]; intros s Hb Hg; [lia|].
  cbn [parse_members].
  destruct s as [|c s1]; [split; discriminate|]. cbn [length] in Hb, Hg.
  destruct (c =? 34)%N; [|split; discriminate].
  destruct (parse_string_body s1) as [[k r]|] eqn:Ek; [|split; discriminate].
  apply parse_string_body_length in Ek.
  pose proof (skip_ws_length r) as Hw.
  destruct (skip_ws r) as [|c1 r1]; [split; discriminate|].
  cbn [length] in Hw.
  destruct (c1 =? 58)%N; [|split; discriminate].
  pose proof (skip_ws_length r1) as Hw1.
  assert (Hb1 : (length (skip_ws r1) <= bound)%nat) by lia.
  pose proof (parse_val_budget _ Hb1) as Hf.
  pose proof (fun v r => parse_val_length _ v r Hb1) as Hl.
  destruct (parse_val (skip_ws r1)) as [v r2| |];
    [|split; discriminate|congruence].
  specialize (Hl v r2 eq_refl).
  pose proof (skip_ws_length r2) as Hw2.
  destruct (skip_ws r2) as [|c2 r3]; [split; discriminate|].
  cbn [length] in Hw2.
  destruct (c2 =? 44)%N.
  - pose proof (skip_ws_length r3) as Hw3.
    destruct (IH (skip_ws r3)) as [Hnf Hlen]; [lia | lia |].
    destruct (parse_members parse_val g (skip_ws r3)) as [ms r'| |];
      [|split; discriminate|congruence].
    split; [discriminate|]. intros ms0 r0 [= <- <-].
    specialize (Hlen ms r' eq_refl). cbn [length]. lia.
  - destruct (c2 =? 125)%N; [|split; discriminate].
    split; [discriminate|]. intros ms0 r0 [= <- <-]. cbn [length]. lia.
Qed.
End container_budget.

Lemma length_skipn_le {A} n (l : list A) : (length (skipn n l) <= length l)%nat.
Proof. rewrite length_skipn. lia. Qed.

Lemma parse_value_budget (f : nat) : forall s,
  (length s < f)%nat ->
  parse_value f s <> PFuel
  /\ forall v r, parse_value f s = POk v r -> (length r <= length s)%nat.
Proof.
  induction f as [|f IH]; intros s Hf; [lia|].
  cbn [parse_value].
  destruct s as [|c s']; [split; discriminate|]. cbn [length] in Hf.
  assert (Hpv1 : forall s0, (length s0 <= length s')%nat ->
                            parse_value f s0 <> PFuel)
    by (intros s0 H0; apply IH; lia).
  assert (Hpv2 : forall s0 v r, (length s0 <= length s')%nat ->
                   parse_value f s0 = POk v r -> (length r <= length s0)%nat)
    by (intros s0 v r H0; apply IH; lia).
  pose proof (skip_ws_length s') as Hw.
  destruct (c =? 123)%N.
  { destruct (skip_ws s') as [|c1 s2] eqn:Es; [split; discriminate|].
    destruct (c1 =? 125)%N.
    - split; [discriminate|]. intros v r [= <- <-].
      cbn [length] in *. lia.
    - destruct (parse_members_budget (parse_value f) (length s') Hpv1 Hpv2
                  (S (length s')) (c1 :: s2)) as [Hnf Hlen]; [lia | lia |].
      destruct (parse_members (parse_value f) (S (length s')) (c1 :: s2))
        as [ms r| |]; [|split; discriminate|congruence].
      split; [discriminate|]. intros v r0 [= <- <-].
      specialize (Hlen ms r eq_refl). cbn [length]. lia. }
  destruct (c =? 91)%N.
  { destruct (skip_ws s') as [|c1 s2] eqn:Es; [split; discriminate|].
    destruct (c1 =? 93)%N.
    - split; [discriminate|]. intros v r [= <- <-].
      cbn [length] in *. lia.
    - destruct (parse_elements_budget (parse_value f) (length s') Hpv1 Hpv2
                  (S (length s')) (c1 :: s2)) as [Hnf Hlen]; [lia | lia |].
      destruct (parse_elements (parse_value f) (S (length s')) (c1 :: s2))
        as [vs r| |]; [|split; discriminate|congruence].
      split; [discriminate|]. intros v r0 [= <- <-].
      specialize (Hlen vs r eq_refl). cbn [length]. lia. }
  destruct (c =? 34)%N.
  { destruct (parse_string_body s') as [[str r]|] eqn:E; [|split; discriminate].
    apply parse_string_body_length in E.
    split; [discriminate|]. intros v r0 [= <- <-]. cbn [length]. lia. }
  destruct (startsWith (u "true") (c :: s')).
  { split; [discriminate|]. intros v r [= <- <-].
    exact (length_skipn_le 4 (c :: s')). }
  destruct (startsWith (u "false") (c :: s')).
  { split; [discriminate|]. intros v r [= <- <-].
    exact (length_skipn_le 5 (c :: s')). }
  destruct (startsWith (u "null") (c :: s')).
  { split; [discriminate|]. intros v r [= <- <-].
    exact (length_skipn_le 4 (c :: s')). }
  destruct (parse_number (c :: s')) as [[n r]|] eqn:E; [|split; discriminate].
  apply parse_number_length in E.
  split; [discriminate|]. intros v r0 [= <- <-]. exact E.
Qed.

(** The budget [JSON_parse] starts with is enough on every text: its
    SyntaxError is always a syntax error. *)
Lemma JSON_parse_budget (text : jstring) :
  parse_value (S (length text)) (skip_ws text) <> PFuel.
Proof.
  apply parse_value_budget. pose proof (skip_ws_length text). lia.
Qed.

(** ** The sanitiser *)

(** The third replacement of cleanJsonString puts back the two characters
    it matched: the step changes nothing. *)
Lemma fix_newlines_bounded (n : nat) : forall prev s,
  (length s <= n)%nat -> fix_newlines prev s = s.
Proof.
  induction n as [|n IH]; intros prev s Hn.
  - destruct s; [reflexivity | cbn in Hn; lia].
  - destruct s as [|c [|c2 s2]]; try reflexivity.
    cbn [fix_newlines length] in *.
    destruct ((c =? 92)%N && (c2 =? 110)%N
              && negb match prev with
                      | Some p => (p =? 92)%N
                      | None => false
                      end) eqn:E.
    + apply andb_prop in E. destruct E as [E _].
      apply andb_prop in E. destruct E as [E1 E2].
      apply N.eqb_eq in E1, E2. subst. rewrite IH by lia. reflexivity.
    + f_equal. apply (IH (Some c) (c2 :: s2)). cbn [length]. lia.
Qed.

Lemma fix_newlines_noop prev s : fix_newlines prev s = s.
Proof. apply (fix_newlines_bounded (length s)). lia. Qed.

(* ================================================================== *)
(** * Further properties *)

(** ** robustJSONParse: shape of the results *)

Lemma producing_not_none s : producing s = true -> s <> st_none.
Proof. destruct s; (discriminate || intros _; discriminate). Qed.

(** X1. Whatever the input, a failure of robustJSONParse carries no data,
    the trimmed input as raw and a non-empty error; a success carries
    neither raw nor error; and the strategy is none exactly when the input
    is the empty string. *)
Theorem robustJSONParse_result_shape (input : jstring) :
  exists r,
    robustJSONParse input = Ret r
    /\ (pr_success r = false ->
        pr_data r = None /\ pr_raw r = Some (trim input)
        /\ exists e, pr_error r = Some e /\ e <> [])
    /\ (pr_success r = true -> pr_raw r = None /\ pr_error r = None)
    /\ (pr_strategy r = Some st_none <-> input = []).
Proof.
  destruct (robustJSONParse_cases input)
    as [[-> H] | [(v & s & p & H & Hs & _) | H]]; rewrite H; eexists;
    (split; [reflexivity|]); cbn.
  - repeat split; intros; try discriminate.
    eexists; split; [reflexivity | discriminate].
  - repeat split; intros; try discriminate.
    + injection H0 as ->. discriminate Hs.
    + subst input. vm_compute in H. discriminate H.
  - repeat split; intros; try discriminate.
    + eexists; split; [reflexivity | discriminate].
    + subst input. vm_compute in H. discriminate H.
Qed.

Lemma trimStart_spaces s : forallb is_js_space s = true -> trimStart s = [].
Proof.
  induction s as [|c s IH]; [reflexivity|]. cbn [forallb trimStart].
  intros H. apply andb_prop in H. destruct H as [-> H]. auto.
Qed.

Lemma trim_spaces s : forallb is_js_space s = true -> trim s = [].
Proof. intros H. unfold trim. rewrite trimStart_spaces by exact H. reflexivity. Qed.

Lemma robustJSONParse_trim (input input' : jstring) :
  input <> [] -> input' <> [] -> trim input = trim input' ->
  robustJSONParse input = robustJSONParse input'.
Proof.
  intros H1 H2 Ht. unfold robustJSONParse.
  destruct input as [|c l]; [congruence|].
  destruct input' as [|c' l']; [congruence|].
  rewrite Ht. reflexivity.
Qed.

(** X2. A non-empty input made of white space only is not treated as the
    empty input: robustJSONParse answers with strategy raw_fallback and
    the empty string as raw. *)
Theorem whitespace_only_is_raw_fallback (input : jstring) :
  input <> [] -> forallb is_js_space input = true ->
  robustJSONParse input = Ret (raw_fallback_result []).
Proof.
  intros Hne Hws.
  rewrite (robustJSONParse_trim input [32%N]); [reflexivity | exact Hne | discriminate |].
  rewrite trim_spaces by exact Hws. reflexivity.
Qed.

Lemma whitespace_only_is_raw_fallback_witness :
  robustJSONParse [32; 9; 10; 13; 160; 65279]%N = Ret (raw_fallback_result []).
Proof.
  apply (whitespace_only_is_raw_fallback [32; 9; 10; 13; 160; 65279]%N).
  - discriminate.
  - reflexivity.
Defined.

Lemma trimStart_app_spaces a s :
  forallb is_js_space a = true -> trimStart (a ++ s) = trimStart s.
Proof.
  induction a as [|c a IH]; [reflexivity|]. cbn [forallb app trimStart].
  intros H. apply andb_prop in H. destruct H as [-> H]. auto.
Qed.

Lemma trimStart_app_nonspace s b :
  trimStart s <> [] -> trimStart (s ++ b) = trimStart s ++ b.
Proof.
  induction s as [|c s IH]; [intros H; exfalso; apply H; reflexivity|].
  cbn [app trimStart].
  destruct (is_js_space c); [exact IH | reflexivity].
Qed.

Lemma trimStart_all_or_some s :
  forallb is_js_space s = true \/ trimStart s <> [].
Proof.
  induction s as [|c s IH]; [left; reflexivity|]. cbn [forallb trimStart].
  destruct (is_js_space c); [exact IH | right; discriminate].
Qed.

Lemma forallb_rev {A} (f : A -> bool) l :
  forallb f (rev l) = forallb f l.
Proof.
  induction l as [|x l IH]; [reflexivity|]. cbn [rev forallb].
  rewrite forallb_app, IH. cbn [forallb]. rewrite andb_true_r. apply andb_comm.
Qed.

Lemma trimEnd_app_spaces s b :
  forallb is_js_space b = true -> trimEnd (s ++ b) = trimEnd s.
Proof.
  intros H. unfold trimEnd. rewrite rev_app_distr.
  rewrite trimStart_app_spaces by (rewrite forallb_rev; exact H).
  reflexivity.
Qed.

Lemma trim_surrounded a s b :
  forallb is_js_space a = true -> forallb is_js_space b = true ->
  trim (a ++ s ++ b) = trim s.
Proof.
  intros Ha Hb. unfold trim. rewrite trimStart_app_spaces by exact Ha.
  destruct (trimStart_all_or_some s) as [Hs|Hs].
  - rewrite (trimStart_spaces s Hs).
    rewrite trimStart_spaces; [reflexivity|].
    rewrite forallb_app, Hs, Hb. reflexivity.
  - rewrite trimStart_app_nonspace by exact Hs.
    apply trimEnd_app_spaces. exact Hb.
Qed.

(** X3. White space around the input makes no difference: for white space
    a and b and a non-empty s, robustJSONParse(a + s + b) is
    robustJSONParse(s), raw text and strategy included. *)
Theorem surrounding_whitespace_ignored (a s b : jstring) :
  s <> [] ->
  forallb is_js_space a = true -> forallb is_js_space b = true ->
  robustJSONParse (a ++ s ++ b) = robustJSONParse s.
Proof.
  intros Hs Ha Hb. apply robustJSONParse_trim.
  - destruct a; [destruct s; [exfalso; apply Hs; reflexivity | discriminate]
                | discriminate].
  - exact Hs.
  - apply trim_surrounded; assumption.
Qed.

Lemma surrounding_whitespace_ignored_witness :
  robustJSONParse ([13; 10]%N ++ uq "{'a':1,}" ++ [32; 10]%N)
  = robustJSONParse (uq "{'a':1,}").
Proof.
  apply (surrounding_whitespace_ignored [13; 10]%N (uq "{'a':1,}") [32; 10]%N).
  - discriminate.
  - reflexivity.
  - reflexivity.
Defined.

(** ** partialRecovery *)

Lemma map_fst_set_own k v ps :
  map fst (set_own k v ps)
  = if existsb (jstring_eqb k) (map fst ps) then map fst ps
    else map fst ps ++ [k].
Proof.
  induction ps as [|[k' v'] ps IH]; [reflexivity|].
  cbn [set_own map fst existsb].
  destruct (jstring_eqb k k'); [reflexivity|].
  cbn [map fst orb]. rewrite IH.
  destruct (existsb (jstring_eqb k) (map fst ps)); reflexivity.
Qed.

Lemma distinct_keys_snoc ks k :
  distinct_keys ks = true -> existsb (jstring_eqb k) ks = false ->
  distinct_keys (ks ++ [k]) = true.
Proof.
  induction ks as [|x ks IH]; [reflexivity|].
  cbn [distinct_keys existsb app]. intros Hd Hk.
  apply andb_prop in Hd. destruct Hd as [Hx Hd].
  apply orb_false_iff in Hk. destruct Hk as [Hkx Hk].
  rewrite existsb_app. cbn [existsb].
  apply negb_true_iff in Hx. rewrite Hx, (jstring_eqb_sym x k), Hkx.
  cbn [orb negb andb]. apply IH; assumption.
Qed.

Lemma set_own_distinct k v ps :
  distinct_keys (map fst ps) = true ->
  distinct_keys (map fst (set_own k v ps)) = true.
Proof.
  intros H. rewrite map_fst_set_own.
  destruct (existsb (jstring_eqb k) (map fst ps)) eqn:E; [exact H|].
  apply distinct_keys_snoc; assumption.
Qed.

Lemma assign_prop_invariant k v result :
  recovered_ok result -> recovered_ok (assign_prop k v result).
Proof.
  destruct result as [proto ps]. unfold recovered_ok. cbn [fst snd].
  intros (Hd & Hb & Ho).
  assert (Hrep : recovered_ok
                   (match v with
                    | VNull => (NullPrototype, ps)
                    | VObj _ | VArr _ => (ParsedPrototype v, ps)
                    | _ => (proto, ps)
                    end)).
  { destruct v; unfold recovered_ok; cbn [fst snd];
      (split; [exact Hd|]);
      (split;
       [first [exact Hb | intros H; discriminate H]
       |first [exact Ho
              | intros o' H; first [discriminate H
                                   | injection H as <-; discriminate]]]). }
  unfold assign_prop, recovered_ok in *.
  destruct (jstring_eqb k (u "__proto__")) eqn:E; cbn [negb fst snd].
  - apply jstring_eqb_eq in E. subst k.
    destruct (lookup (u "__proto__") ps) as [x|] eqn:El; cbn [orb].
    + cbn [fst snd]. split; [apply set_own_distinct; exact Hd|].
      split; [|exact Ho]. intros Hp. discriminate (Hb Hp).
    + assert (Hset : forall p,
                 p <> BuiltinPrototype ->
                 (forall o, p = ParsedPrototype o -> to_object o <> None) ->
                 distinct_keys
                   (map fst (snd (p, set_own (u "__proto__") v ps))) = true
                 /\ (fst (p, set_own (u "__proto__") v ps) = BuiltinPrototype ->
                     lookup (u "__proto__")
                       (snd (p, set_own (u "__proto__") v ps)) = None)
                 /\ (forall o,
                       fst (p, set_own (u "__proto__") v ps)
                       = ParsedPrototype o -> to_object o <> None)).
      { intros p Hp Hpo. cbn [fst snd].
        split; [apply set_own_distinct; exact Hd|].
        split; [intros H; contradiction | exact Hpo]. }
      destruct proto as [| |o].
      * exact Hrep.
      * apply Hset; [discriminate | exact Ho].
      * destruct o as [| | | | |ops]; try exact Hrep.
        destruct (lookup (u "__proto__") ops);
          [apply Hset; [discriminate | exact Ho] | exact Hrep].
  - cbn [fst snd]. split; [apply set_own_distinct; exact Hd|].
    split; [|exact Ho]. intros Hp.
    rewrite lookup_set_own_other; [exact (Hb Hp)|].
    apply jstring_eqb_neq in E. congruence.
Qed.

Lemma partialRecovery_invariant input result :
  partialRecovery input = Some result -> recovered_ok result.
Proof.
  unfold partialRecovery.
  assert (H : forall ms acc,
             recovered_ok acc ->
             recovered_ok
               (fold_left
                  (fun result m =>
                     assign_prop (fst m) (recovered_value (snd m)) result)
                  ms acc)).
  { induction ms as [|m ms IH]; intros acc Hacc; [exact Hacc|].
    cbn [fold_left]. apply IH. apply assign_prop_invariant. exact Hacc. }
  destruct (kv_matches 0 input) as [|m ms]; [discriminate|].
  intros [= <-]. apply (H (m :: ms) (BuiltinPrototype, [])).
  repeat split; discriminate.
Qed.

(** X4. When robustJSONParse reports strategy partial_recovery, its data
    is an object with at least one own key and no own key twice. Its
    prototype is the built-in one, null, or an object or array that was
    parsed from a recovered __proto__ pair, and it has an own key
    __proto__ only when its prototype is no longer the built-in one. *)
Theorem partial_recovery_data_shape (input : jstring) (r : ParseResult) :
  robustJSONParse input = Ret r ->
  pr_strategy r = Some st_partial_recovery ->
  exists ps,
    pr_data r = Some (VObj ps) /\ ps <> []
    /\ distinct_keys (map fst ps) = true
    /\ (pr_prototype r = BuiltinPrototype ->
        lookup (u "__proto__") ps = None)
    /\ (forall o, pr_prototype r = ParsedPrototype o -> to_object o <> None).
Proof.
  unfold robustJSONParse.
  destruct input as [|c l]; [intros [= <-]; discriminate|].
  remember (trim (c :: l)) as trimmed eqn:Et. clear Et.
  unfold try_or, bind.
  destruct (JSON_parse trimmed); [intros [= <-]; discriminate|].
  destruct (JSON_parse (cleanJsonString trimmed)); [intros [= <-]; discriminate|].
  assert (Hp : forall r,
             match partialRecovery trimmed with
             | Some (proto, ((_ :: _) as ps)) =>
                 Ret (mkParseResult true (Some (VObj ps)) None None
                        (Some st_partial_recovery) proto)
             | _ =>
                 Ret (mkParseResult false None (Some trimmed)
                        (Some (u "All parsing strategies failed"))
                        (Some st_raw_fallback) BuiltinPrototype)
             end = Ret r ->
             pr_strategy r = Some st_partial_recovery ->
             exists ps,
               pr_data r = Some (VObj ps) /\ ps <> []
               /\ distinct_keys (map fst ps) = true
               /\ (pr_prototype r = BuiltinPrototype ->
                   lookup (u "__proto__") ps = None)
               /\ (forall o, pr_prototype r = ParsedPrototype o ->
                             to_object o <> None)).
  { intros r0.
    destruct (partialRecovery trimmed) as [[proto [|q ps]]|] eqn:Ep;
      intros [= <-]; try discriminate.
    intros _. exists (q :: ps). split; [reflexivity|].
    split; [discriminate|].
    exact (partialRecovery_invariant trimmed _ Ep). }
  destruct (extractJsonFromText trimmed) as [[|x ex]|]; try apply Hp.
  destruct (JSON_parse (x :: ex)); [intros [= <-]; discriminate|].
  destruct (JSON_parse (cleanJsonString (x :: ex)));
    [intros [= <-]; discriminate | apply Hp].
Qed.

Lemma partial_recovery_data_shape_witness :
  exists ps,
    pr_data (mkParseResult true
               (Some (VObj [(u "__proto__", VNum (Num 7 0))]))
               None None (Some st_partial_recovery) NullPrototype)
    = Some (VObj ps)
    /\ ps <> [] /\ distinct_keys (map fst ps) = true
    /\ (NullPrototype = BuiltinPrototype ->
        lookup (u "__proto__") ps = None)
    /\ (forall o, NullPrototype = ParsedPrototype o -> to_object o <> None).
Proof.
  apply (partial_recovery_data_shape (uq "'__proto__': null, '__proto__': 7")).
  - vm_compute. reflexivity.
  - reflexivity.
Defined.

(** ** robustJSONParse after JSON.stringify *)

Lemma digit_char_nonspace d : (d < 10)%N -> is_js_space (digit_char d) = false.
Proof.
  intros H. unfold is_js_space, digit_char.
  repeat match goal with
         | |- context [(?a =? ?b)%N] =>
             destruct (N.eqb_spec a b); [exfalso; lia|]
         | |- context [(?a <=? ?b)%N] => destruct (N.leb_spec a b)
         end; try reflexivity; exfalso; lia.
Qed.

Lemma digits_nonspace ds :
  Forall (fun d => d < 10)%N ds ->
  Forall (fun c => is_js_space c = false) (map digit_char ds).
Proof.
  induction 1 as [|d ds Hd _ IH]; cbn [map]; constructor;
    [apply digit_char_nonspace; exact Hd | exact IH].
Qed.

Lemma repeat_nonspace c n :
  is_js_space c = false -> Forall (fun c => is_js_space c = false) (repeat c n).
Proof. intros H. induction n; cbn [repeat]; constructor; auto. Qed.

Lemma number_body_nonspace ds e :
  Forall (fun c => is_js_space c = false) ds -> ds <> [] ->
  Forall (fun c => is_js_space c = false) (number_body ds e)
  /\ number_body ds e <> [].
Proof.
  intros Hds Hne. unfold number_body.
  assert (H0 : is_js_space (ch "0") = false) by reflexivity.
  assert (Hx : Forall (fun c => is_js_space c = false)
                 (map digit_char
                    (to_digits (Z.abs_N (Z.of_nat (length ds) + e - 1)))))
    by (apply digits_nonspace, to_digits_small).
  destruct ((Z.of_nat (length ds) <=? Z.of_nat (length ds) + e)
            && (Z.of_nat (length ds) + e <=? 21))%Z.
  { split; [apply Forall_app; split; [exact Hds | apply repeat_nonspace, H0]|].
    destruct ds; [congruence | discriminate]. }
  destruct ((0 <? Z.of_nat (length ds) + e)
            && (Z.of_nat (length ds) + e <=? 21))%Z.
  { split.
    - apply Forall_app. split; [apply Forall_firstn_skipn; exact Hds|].
      constructor; [reflexivity | apply Forall_firstn_skipn; exact Hds].
    - destruct (firstn _ ds); discriminate. }
  destruct ((-6 <? Z.of_nat (length ds) + e)
            && (Z.of_nat (length ds) + e <=? 0))%Z.
  { split; [|discriminate].
    constructor; [reflexivity|]. constructor; [reflexivity|].
    apply Forall_app. split; [apply repeat_nonspace, H0 | exact Hds]. }
  destruct ds as [|d [|d2 tl]]; [congruence | |].
  - inversion Hds; subst. split; [|discriminate].
    constructor; [assumption|]. constructor; [reflexivity|].
    constructor; [destruct (_ <? 0)%Z; reflexivity | exact Hx].
  - inversion Hds; subst. split; [|discriminate].
    constructor; [assumption|]. constructor; [reflexivity|].
    apply Forall_app. split; [assumption|].
    constructor; [reflexivity|].
    constructor; [destruct (_ <? 0)%Z; reflexivity | exact Hx].
Qed.

Lemma number_to_string_nonspace n :
  Forall (fun c => is_js_space c = false) (number_to_string n)
  /\ number_to_string n <> [].
Proof.
  unfold number_to_string.
  destruct (mant n =? 0)%Z; [split; [repeat constructor | discriminate]|].
  destruct (number_body_nonspace
              (map digit_char (to_digits (Z.abs_N (mant n)))) (expo n))
    as [Hf Hne].
  - apply digits_nonspace, to_digits_small.
  - pose proof (to_digits_nonempty (Z.abs_N (mant n))) as H.
    destruct (to_digits (Z.abs_N (mant n))); [congruence | discriminate].
  - destruct (mant n <? 0)%Z; [|split; assumption].
    split; [constructor; [reflexivity | exact Hf] | discriminate].
Qed.

Lemma trim_fixed s c t t' c' :
  s = c :: t -> s = t' ++ [c'] ->
  is_js_space c = false -> is_js_space c' = false ->
  trim s = s.
Proof.
  intros E1 E2 H1 H2. unfold trim.
  rewrite E1 at 1. cbn [trimStart]. rewrite H1, <- E1, E2.
  apply trimEnd_last. exact H2.
Qed.

Lemma trim_stringify v : trim (JSON_stringify v) = JSON_stringify v.
Proof.
  destruct v as [|[|]|n|s|l|ps]; try reflexivity.
  - destruct (number_to_string_nonspace n) as [Hf Hne].
    cbn [JSON_stringify].
    destruct (number_to_string n) as [|c t] eqn:E; [congruence|].
    destruct (@exists_last _ (c :: t)) as (t' & c' & E'); [discriminate|].
    apply (trim_fixed _ c t t' c'); auto.
    + inversion Hf; assumption.
    + rewrite E' in Hf. apply Forall_app in Hf. destruct Hf as [_ Hf].
      inversion Hf; assumption.
  - cbn [JSON_stringify]. unfold quote.
    apply (trim_fixed _ 34%N (quote_body s ++ [34%N]) (34%N :: quote_body s)
             34%N); reflexivity.
  - cbn [JSON_stringify].
    apply (trim_fixed _ 91%N (stringify_elements JSON_stringify l ++ [93%N])
             (91%N :: stringify_elements JSON_stringify l) 93%N); reflexivity.
  - apply trim_object_text.
Qed.

(** X5. robustJSONParse undoes JSON.stringify: for every JSON value v
    (numbers as exact decimals, objects without repeated keys),
    robustJSONParse(JSON.stringify(v)) succeeds with strategy direct and
    data v. *)
Theorem robustJSONParse_stringify (v : value) :
  wf_value v = true ->
  robustJSONParse (JSON_stringify v) = Ret (ok_result v st_direct).
Proof.
  intros Hwf. apply robustJSONParse_direct.
  rewrite trim_stringify. apply JSON_parse_stringify. exact Hwf.
Qed.

Lemma robustJSONParse_stringify_witness :
  robustJSONParse (uq "[-0.5,'a b',{'k':[null,1e+30]},false,' ']")
  = Ret (ok_result
           (VArr [VNum (Num (-5) (-1)); VStr (u "a b");
                  VObj [(u "k", VArr [VNull; VNum (Num 1 30)])];
                  VBool false; VStr (u " ")])
           st_direct).
Proof.
  apply (robustJSONParse_stringify
           (VArr [VNum (Num (-5) (-1)); VStr (u "a b");
                  VObj [(u "k", VArr [VNull; VNum (Num 1 30)])];
                  VBool false; VStr (u " ")])).
  reflexivity.
Defined.

(** ** cleanJsonString *)

Lemma trimStart_length s : (length (trimStart s) <= length s)%nat.
Proof.
  induction s as [|c s IH]; cbn [trimStart length]; [lia|].
  destruct (is_js_space c); cbn [length]; lia.
Qed.

Lemma trim_length s : (length (trim s) <= length s)%nat.
Proof.
  unfold trim, trimEnd. rewrite length_rev.
  pose proof (trimStart_length (rev (trimStart s))) as H.
  rewrite length_rev in H. pose proof (trimStart_length s). lia.
Qed.

Lemma strip_trailing_commas_length s :
  (length (strip_trailing_commas s) <= length s)%nat.
Proof.
  induction s as [|c s IH]; cbn [strip_trailing_commas length]; [lia|].
  destruct ((c =? 44)%N && closer_follows s); cbn [length]; lia.
Qed.

Lemma strip_bom_length s : (length (strip_bom s) <= length s)%nat.
Proof.
  destruct s as [|c s]; cbn [strip_bom length]; [lia|].
  destruct (c =? 65279)%N; cbn [length]; lia.
Qed.

Lemma strip_bom_Forall (P : N -> Prop) s :
  Forall P s -> Forall P (strip_bom s).
Proof.
  intros H. destruct s as [|c s]; cbn [strip_bom]; [exact H|].
  destruct (c =? 65279)%N; [inversion H; assumption | exact H].
Qed.

(** X6. The text cleanJsonString returns holds none of the control
    characters U+0000-U+0008, U+000B, U+000C, U+000E-U+001F, and is never
    longer than the input. *)
Theorem cleanJsonString_no_control (input : jstring) :
  Forall (fun c => is_control c = false) (cleanJsonString input)
  /\ (length (cleanJsonString input) <= length input)%nat.
Proof.
  unfold cleanJsonString. rewrite fix_newlines_noop. split.
  - apply strip_bom_Forall. unfold strip_control.
    apply Forall_forall. intros c Hc. apply filter_In in Hc.
    destruct Hc as [_ Hc]. apply negb_true_iff in Hc. exact Hc.
  - pose proof (strip_bom_length
                  (strip_control (strip_trailing_commas (trim input)))).
    pose proof (filter_length_le (fun c => negb (is_control c))
                  (strip_trailing_commas (trim input))).
    pose proof (strip_trailing_commas_length (trim input)).
    pose proof (trim_length input). unfold strip_control in *. lia.
Qed.

(** X7. The third replacement of cleanJsonString, which targets a reverse
    solidus followed by n, writes back the two characters it matched: on
    every input the cleaned text is the trimmed input with the trailing
    commas, then the control characters, then a leading byte-order mark
    removed, and nothing else. *)
Theorem cleanJsonString_steps (input : jstring) :
  cleanJsonString input
  = strip_bom (strip_control (strip_trailing_commas (trim input)))
  /\ forall prev s, fix_newlines prev s = s.
Proof.
  split; [|intros; apply fix_newlines_noop].
  unfold cleanJsonString. rewrite fix_newlines_noop. reflexivity.
Qed.

(** ** extractJsonFromText *)

Lemma nth_error_middle {A} (pre : list A) x s :
  nth_error (pre ++ x :: s) (length pre) = Some x.
Proof. induction pre as [|y pre IH]; [reflexivity | exact IH]. Qed.

Lemma balanced_scan_spec (o c : N) (input : jstring) : forall s pre depth start st en,
  input = pre ++ s ->
  (start = (-1)%Z
   \/ (0 <= start < Z.of_nat (length pre))%Z
      /\ nth_error input (Z.to_nat start) = Some o) ->
  balanced_scan o c s (Z.of_nat (length pre)) depth start = (st, en) ->
  en <> (-1)%Z ->
  (st = (-1)%Z
   \/ (0 <= st < en)%Z /\ nth_error input (Z.to_nat st) = Some o)
  /\ (Z.of_nat (length pre) < en <= Z.of_nat (length input))%Z
  /\ nth_error input (Z.to_nat (en - 1)) = Some c.
Proof.
  induction s as [|x s IH]; intros pre depth start st en Hin Hst Hscan Hen.
  - cbn in Hscan. injection Hscan as <- <-. congruence.
  - cbn [balanced_scan] in Hscan.
    assert (Hin' : input = (pre ++ [x]) ++ s)
      by (rewrite <- app_assoc; exact Hin).
    assert (Hlen : Z.of_nat (length (pre ++ [x]))
                   = (Z.of_nat (length pre) + 1)%Z)
      by (rewrite length_app; cbn [length]; lia).
    assert (Hx : nth_error input (length pre) = Some x)
      by (rewrite Hin; apply nth_error_middle).
    assert (Hkeep : start = (-1)%Z
                    \/ (0 <= start < Z.of_nat (length (pre ++ [x])))%Z
                       /\ nth_error input (Z.to_nat start) = Some o).
    { destruct Hst as [Hst | [Hst1 Hst2]]; [left; exact Hst | right].
      split; [lia | exact Hst2]. }
    destruct (N.eqb_spec x o) as [->|Hxo].
    + rewrite <- Hlen in Hscan.
      apply (IH (pre ++ [o])) in Hscan; [|exact Hin'| |exact Hen].
      * destruct Hscan as (H1 & H2 & H3). repeat split; try assumption; lia.
      * destruct (depth =? 0)%Z; [|exact Hkeep].
        right. split; [lia|]. rewrite Nat2Z.id. exact Hx.
    + destruct (N.eqb_spec x c) as [->|Hxc].
      * destruct (depth - 1 =? 0)%Z.
        -- injection Hscan as <- <-. split; [|split].
           ++ destruct Hst as [Hst | [Hst1 Hst2]]; [left; exact Hst | right].
              split; [lia | exact Hst2].
           ++ rewrite Hin, length_app. cbn [length]. lia.
           ++ replace (Z.of_nat (length pre) + 1 - 1)%Z
                with (Z.of_nat (length pre)) by lia.
              rewrite Nat2Z.id. exact Hx.
        -- rewrite <- Hlen in Hscan.
           apply (IH (pre ++ [c])) in Hscan; try assumption.
           destruct Hscan as (H1 & H2 & H3). repeat split; try assumption; lia.
      * rewrite <- Hlen in Hscan.
        apply (IH (pre ++ [x])) in Hscan; try assumption.
        destruct Hscan as (H1 & H2 & H3). repeat split; try assumption; lia.
Qed.

Lemma skipn_length_app {A} (l1 l2 : list A) : skipn (length l1) (l1 ++ l2) = l2.
Proof. induction l1 as [|x l1 IH]; [reflexivity | exact IH]. Qed.

Lemma firstn_length_app {A} (l1 l2 : list A) :
  firstn (length l1) (l1 ++ l2) = l1.
Proof.
  induction l1 as [|x l1 IH]; [reflexivity|]. cbn [length app firstn].
  rewrite IH. reflexivity.
Qed.

Lemma balanced_span_inside (o c : N) (input span : jstring) :
  o <> c ->
  balanced_span o c input = Some span ->
  exists pre mid post,
    input = pre ++ o :: mid ++ c :: post /\ span = o :: mid ++ [c].
Proof.
  intros Hoc. unfold balanced_span.
  destruct (has_open_then_close o c input); [|discriminate].
  destruct (balanced_scan o c input 0 0 (-1)) as [st en] eqn:Hscan.
  destruct (Z.eqb_spec st (-1)) as [|Hst]; [discriminate|].
  destruct (Z.eqb_spec en (-1)) as [|Hen]; [discriminate|].
  cbn [negb andb]. intros [= <-].
  destruct (balanced_scan_spec o c input input [] 0%Z (-1)%Z st en)
    as ([H1 | [H1 H1']] & H2 & H3); auto; [congruence|].
  cbn [length] in H2.
  apply nth_error_split in H1'. destruct H1' as (l1 & l2 & E1 & L1).
  assert (Hlt : (st < en - 1)%Z).
  { destruct (Z.eq_dec st (en - 1)) as [E|E]; [|lia].
    rewrite <- E in H3. rewrite E1, <- L1, nth_error_middle in H3. congruence. }
  assert (H3' : nth_error l2 (Z.to_nat (en - 1) - length l1 - 1) = Some c).
  { rewrite E1 in H3.
    rewrite nth_error_app2 in H3 by lia.
    destruct (Z.to_nat (en - 1) - length l1)%nat as [|k] eqn:Ek; [lia|].
    cbn [nth_error] in H3. replace (S k - 1)%nat with k by lia. exact H3. }
  apply nth_error_split in H3'. destruct H3' as (mid & post & E2 & L2).
  exists l1, mid, post. subst l2. split; [exact E1|].
  unfold substring. rewrite E1, <- L1, skipn_length_app.
  replace (Z.to_nat en - length l1)%nat with (length (o :: mid ++ [c]))
    by (cbn [length]; rewrite length_app; cbn [length]; lia).
  change (o :: mid ++ c :: post) with ((o :: mid) ++ c :: post).
  replace ((o :: mid) ++ c :: post) with ((o :: mid ++ [c]) ++ post)
    by (cbn [app]; rewrite <- app_assoc; reflexivity).
  apply firstn_length_app.
Qed.

(** X8. Without a fenced code block, what extractJsonFromText returns is a
    contiguous piece of the input that begins with an opening brace and
    ends with a closing brace, or begins with an opening bracket and ends
    with a closing bracket. *)
Theorem extracted_span_inside (input span : jstring) :
  match_code_block input = None ->
  extractJsonFromText input = Some span ->
  exists pre mid post,
    (input = pre ++ ch "{" :: mid ++ ch "}" :: post
     /\ span = ch "{" :: mid ++ [ch "}"])
    \/ (input = pre ++ ch "[" :: mid ++ ch "]" :: post
        /\ span = ch "[" :: mid ++ [ch "]"]).
Proof.
  intros Hf. unfold extractJsonFromText. rewrite Hf.
  destruct (balanced_span 123 125 input) as [sp|] eqn:Eo.
  - intros [= <-].
    destruct (balanced_span_inside 123 125 input sp) as (pre & mid & post & H);
      [discriminate | exact Eo |].
    exists pre, mid, post. left. exact H.
  - intros Ea.
    destruct (balanced_span_inside 91 93 input span) as (pre & mid & post & H);
      [discriminate | exact Ea |].
    exists pre, mid, post. right. exact H.
Qed.

Lemma extracted_span_inside_witness :
  exists pre mid post,
    (uq "see } {'a':{'b':[1]}} and {more}"
     = pre ++ ch "{" :: mid ++ ch "}" :: post
     /\ uq "{'b':[1]}" = ch "{" :: mid ++ [ch "}"])
    \/ (uq "see } {'a':{'b':[1]}} and {more}"
        = pre ++ ch "[" :: mid ++ ch "]" :: post
        /\ uq "{'b':[1]}" = ch "[" :: mid ++ [ch "]"]).
Proof.
  apply (extracted_span_inside (uq "see } {'a':{'b':[1]}} and {more}")
           (uq "{'b':[1]}")).
  - reflexivity.
  - vm_compute. reflexivity.
Defined.

Lemma find_sub_fence_none s : ~ In 96%N s -> find_sub fence s = None.
Proof.
  induction s as [|c s IH]; intros Hn; [reflexivity|].
  unfold fence in *. cbn [find_sub startsWith].
  assert ((96 =? c)%N = false) as ->
    by (apply N.eqb_neq; intros E; apply Hn; left; symmetry; exact E).
  cbn [andb]. rewrite IH; [reflexivity|].
  intros Hin. apply Hn. right. exact Hin.
Qed.

Lemma has_open_then_close_found o c pre body post :
  has_open_then_close o c (pre ++ o :: body ++ c :: post) = true.
Proof.
  induction pre as [|x pre IH]; cbn [app has_open_then_close].
  - rewrite N.eqb_refl. cbn [andb].
    assert (existsb (N.eqb c) (body ++ c :: post) = true) as ->; [|reflexivity].
    apply existsb_exists. exists c. split; [|apply N.eqb_refl].
    apply in_or_app. right. left. reflexivity.
  - rewrite IH. destruct ((x =? o)%N && _); reflexivity.
Qed.

Lemma balanced_scan_skip o c t : forall s i depth start,
  ~ In o t -> ~ In c t ->
  balanced_scan o c (t ++ s) i depth start
  = balanced_scan o c s (i + Z.of_nat (length t)) depth start.
Proof.
  induction t as [|x t IH]; intros s i depth start Ho Hc.
  - cbn [app length]. rewrite Z.add_0_r. reflexivity.
  - cbn [app balanced_scan length].
    assert ((x =? o)%N = false) as ->
      by (apply N.eqb_neq; intros ->; apply Ho; left; reflexivity).
    assert ((x =? c)%N = false) as ->
      by (apply N.eqb_neq; intros ->; apply Hc; left; reflexivity).
    rewrite IH;
      [f_equal; lia
      | intros H; apply Ho; right; exact H
      | intros H; apply Hc; right; exact H].
Qed.

(** X9. A brace-free body between braces, standing in a text that has no
    other brace before it and no backquote at all, is what
    extractJsonFromText returns, braces included, whatever follows the
    closing brace. *)
Theorem embedded_flat_object_extracted (pre body post : jstring) :
  ~ In (ch "`") (pre ++ body ++ post) ->
  ~ In (ch "{") pre -> ~ In (ch "}") pre ->
  ~ In (ch "{") body -> ~ In (ch "}") body ->
  extractJsonFromText (pre ++ ch "{" :: body ++ ch "}" :: post)
  = Some (ch "{" :: body ++ [ch "}"]).
Proof.
  intros Hq Hp1 Hp2 Hb1 Hb2. unfold extractJsonFromText, match_code_block.
  rewrite find_sub_fence_none.
  2:{ intros Hin. apply Hq. apply in_app_or in Hin.
      destruct Hin as [Hin|Hin]; [apply in_or_app; left; exact Hin|].
      destruct Hin as [Hin|Hin]; [discriminate Hin|].
      apply in_app_or in Hin. apply in_or_app. right.
      destruct Hin as [Hin|Hin]; [apply in_or_app; left; exact Hin|].
      destruct Hin as [Hin|Hin]; [discriminate Hin|].
      apply in_or_app. right. exact Hin. }
  unfold balanced_span.
  change (ch "{") with 123%N in *. change (ch "}") with 125%N in *.
  rewrite has_open_then_close_found.
  rewrite balanced_scan_skip by assumption.
  cbn [balanced_scan N.eqb Pos.eqb Z.eqb Z.add].
  rewrite balanced_scan_skip by assumption.
  cbn [balanced_scan N.eqb Pos.eqb].
  replace (1 - 1 =? 0)%Z with true by reflexivity.
  assert (H1 : (Z.of_nat (length pre) =? -1)%Z = false)
    by (apply Z.eqb_neq; lia).
  assert (H2 : (Z.of_nat (length pre) + 1 + Z.of_nat (length body) + 1
                =? -1)%Z = false) by (apply Z.eqb_neq; lia).
  rewrite H1, H2. cbn [negb andb]. f_equal. unfold substring.
  rewrite Nat2Z.id, skipn_length_app.
  replace (Z.to_nat (Z.of_nat (length pre) + 1 + Z.of_nat (length body) + 1)
           - length pre)%nat
    with (length (123%N :: body ++ [125%N]))
    by (cbn [length]; rewrite length_app; cbn [length]; lia).
  replace (123%N :: body ++ 125%N :: post)
    with ((123%N :: body ++ [125%N]) ++ post)
    by (cbn [app]; rewrite <- app_assoc; reflexivity).
  apply firstn_length_app.
Qed.

Lemma embedded_flat_object_extracted_witness :
  extractJsonFromText
    (u "Result: " ++ ch "{" :: uq "'ok':true,'n':[1,2]" ++ ch "}"
       :: u " - see {docs}")
  = Some (ch "{" :: uq "'ok':true,'n':[1,2]" ++ [ch "}"]).
Proof.
  apply (embedded_flat_object_extracted (u "Result: ")
           (uq "'ok':true,'n':[1,2]") (u " - see {docs}"));
    cbn; intros H;
    repeat (destruct H as [H|H]; [discriminate H|]); exact H.
Defined.

(** ** parseSSEEvent: returns and throws *)

Lemma robustJSONParse_returns input : exists r, robustJSONParse input = Ret r.
Proof.
  destruct (robustJSONParse_cases input)
    as [[_ H] | [(v & s & p & H & _) | H]]; eauto.
Qed.



Lemma or_string_nonempty a b : b <> [] -> or_string a b <> [].
Proof. intros Hb. destruct a as [[|c s]|]; cbn; (assumption || discriminate). Qed.

Lemma parseSSEEvent_returned (now eventType data : jstring)
    (requestId : option jstring) (e : ParsedSSEEvent) :
  parseSSEEvent now eventType data requestId = Ret e ->
  (ev_success e = true ->
   exists ev t ts,
     ev_event e = Some ev /\ get_named (u "type") ev = Some t
     /\ ev_eventType e = Some t
     /\ get_named (u "timestamp") ev = Some ts
     /\ ev_raw e = None /\ ev_error e = None)
  /\ (ev_success e = false ->
      ev_event e = None /\ ev_eventType e = Some (VStr (u "parse_error"))
      /\ (exists raw, ev_raw e = Some raw)
      /\ exists err, ev_error e = Some err /\ err <> []).
Proof.
  unfold parseSSEEvent, parseSSEEvent_with.
  destruct (jstring_eqb data (u "[DONE]")).
  { intros [= <-]. cbn [ev_success]. split; [intros _|discriminate].
    eexists; eexists; eexists. repeat split. }
  destruct (robustJSONParse_returns data) as [r ->]. cbn [bind].
  assert (Hfail :
    forall e,
      Ret (mkParsedSSEEvent false None (Some (VStr (u "parse_error")))
             (Some (or_string (pr_raw r) data))
             (Some (or_string (pr_error r) (u "Failed to parse SSE data")))
             (pr_strategy r)) = Ret e ->
      (ev_success e = true ->
       exists ev t ts,
         ev_event e = Some ev /\ get_named (u "type") ev = Some t
         /\ ev_eventType e = Some t
         /\ get_named (u "timestamp") ev = Some ts
         /\ ev_raw e = None /\ ev_error e = None)
      /\ (ev_success e = false ->
          ev_event e = None /\ ev_eventType e = Some (VStr (u "parse_error"))
          /\ (exists raw, ev_raw e = Some raw)
          /\ exists err, ev_error e = Some err /\ err <> [])).
  { intros e0 [= <-]. cbn. split; [discriminate | intros _].
    repeat split; eauto.
    eexists; split; [reflexivity|]. apply or_string_nonempty. discriminate. }
  destruct (pr_success r && truthy_opt (pr_data r)); [|apply Hfail].
  destruct (pr_data r) as [d|]; [|apply Hfail].
  destruct (event_object (pr_prototype r) d) as [o|]; [|discriminate].
  intros [= <-]. cbn [ev_success ev_event ev_eventType ev_raw ev_error].
  split; [intros _|discriminate].
  assert (Ktr : u "type" <> u "request_id") by discriminate.
  assert (Kts : u "type" <> u "timestamp") by discriminate.
  assert (Ksr : u "timestamp" <> u "request_id") by discriminate.
  set (kt := u "type") in *. set (kr := u "request_id") in *.
  set (ks := u "timestamp") in *.
  set (e1 := if negb (truthy_opt (get_named kt o))
             then set_named kt (VStr eventType) o else o).
  set (e2 := if negb (truthy_opt (get_named kr e1))
                && negb (jstring_eqb (or_string requestId []) [])
             then set_named kr (VStr (or_string requestId [])) e1 else e1).
  set (e3 := if negb (truthy_opt (get_named ks e2))
             then set_named ks (VStr now) e2 else e2).
  assert (H1 : exists t, get_named kt e1 = Some t
                         /\ (if truthy t then t else VStr eventType) = t).
  { unfold e1. destruct (get_named kt o) as [t|] eqn:Et; cbn [truthy_opt].
    - destruct (truthy t) eqn:Tt; cbn [negb].
      + exists t. rewrite Et, Tt. auto.
      + exists (VStr eventType). rewrite get_set_named_same.
        split; [reflexivity | destruct (truthy (VStr eventType)); reflexivity].
    - cbn [negb]. exists (VStr eventType). rewrite get_set_named_same.
      split; [reflexivity | destruct (truthy (VStr eventType)); reflexivity]. }
  destruct H1 as (t & Ht & Htt).
  assert (H2 : get_named kt e2 = Some t).
  { unfold e2.
    destruct (negb (truthy_opt (get_named kr e1))
              && negb (jstring_eqb (or_string requestId []) []));
      [|exact Ht].
    rewrite get_set_named_other by exact Ktr. exact Ht. }
  assert (H3 : get_named kt e3 = Some t).
  { unfold e3. destruct (negb (truthy_opt (get_named ks e2))); [|exact H2].
    rewrite get_set_named_other by exact Kts. exact H2. }
  assert (H4 : exists ts, get_named ks e3 = Some ts).
  { unfold e3. destruct (get_named ks e2) as [ts|] eqn:Ets; cbn [truthy_opt].
    - destruct (truthy ts); cbn [negb].
      + exists ts. exact Ets.
      + eexists. apply get_set_named_same.
    - cbn [negb]. eexists. apply get_set_named_same. }
  destruct H4 as (ts & Hts).
  exists e3, t, ts. rewrite H3, Htt. repeat split; assumption.
Qed.

(** X11. Whenever parseSSEEvent returns: a success carries an event on
    which a type reads (its own, or one inherited from the prototype that
    partial recovery gave the payload), which is the reported eventType,
    and a timestamp, and carries neither raw nor error; a failure carries
    no event, the eventType parse_error, a raw text and a non-empty error
    message. *)
Theorem parseSSEEvent_result_shape (now eventType data : jstring)
    (requestId : option jstring) (e : ParsedSSEEvent) :
  parseSSEEvent now eventType data requestId = Ret e ->
  (ev_success e = true ->
   exists ev t ts,
     ev_event e = Some ev /\ get_named (u "type") ev = Some t
     /\ ev_eventType e = Some t
     /\ get_named (u "timestamp") ev = Some ts
     /\ ev_raw e = None /\ ev_error e = None)
  /\ (ev_success e = false ->
      ev_event e = None /\ ev_eventType e = Some (VStr (u "parse_error"))
      /\ (exists raw, ev_raw e = Some raw)
      /\ exists err, ev_error e = Some err /\ err <> []).
Proof. apply parseSSEEvent_returned. Qed.

Lemma parseSSEEvent_result_shape_witness :
  exists ev t ts,
    ev_event (mkParsedSSEEvent true
                (Some (RecoveredObject
                         (ParsedPrototype
                            (VObj [(u "type", VStr (u "tool_blocked"))]))
                         [(u "x", VNum (Num 1 0));
                          (u "timestamp", VStr (u "T"))]))
                (Some (VStr (u "tool_blocked"))) None None
                (Some st_partial_recovery))
    = Some ev
    /\ get_named (u "type") ev = Some t
    /\ Some (VStr (u "tool_blocked")) = Some t
    /\ get_named (u "timestamp") ev = Some ts
    /\ @None jstring = None /\ @None jstring = None.
Proof.
  destruct (parseSSEEvent_result_shape (u "T") (u "message")
              (uq "} '__proto__': {'type':'tool_blocked'}, 'x': 1") None
              (mkParsedSSEEvent true
                 (Some (RecoveredObject
                          (ParsedPrototype
                             (VObj [(u "type", VStr (u "tool_blocked"))]))
                          [(u "x", VNum (Num 1 0));
                           (u "timestamp", VStr (u "T"))]))
                 (Some (VStr (u "tool_blocked"))) None None
                 (Some st_partial_recovery)))
    as [H _].
  - vm_compute. reflexivity.
  - apply H. reflexivity.
Defined.

(** X12. A frame whose data is [DONE] surrounded by white space (a
    trailing carriage return, for instance) is not recognised as the
    completion marker: parseSSEEvent returns a parse_error failure with
    raw [DONE] and strategy raw_fallback. *)
Theorem padded_done_is_parse_error (now eventType data : jstring)
    (requestId : option jstring) :
  data <> u "[DONE]" -> trim data = u "[DONE]" ->
  parseSSEEvent now eventType data requestId
  = Ret (mkParsedSSEEvent false None (Some (VStr (u "parse_error")))
           (Some (u "[DONE]")) (Some (u "All parsing strategies failed"))
           (Some st_raw_fallback)).
Proof.
  intros Hne Ht. unfold parseSSEEvent, parseSSEEvent_with.
  apply jstring_eqb_neq in Hne. rewrite Hne.
  rewrite (robustJSONParse_trim data (u "[DONE]")).
  - reflexivity.
  - intros ->. discriminate Ht.
  - discriminate.
  - rewrite Ht. reflexivity.
Qed.

Lemma padded_done_is_parse_error_witness :
  parseSSEEvent (u "T") (u "message") (u "[DONE]" ++ [13%N]) None
  = Ret (mkParsedSSEEvent false None (Some (VStr (u "parse_error")))
           (Some (u "[DONE]")) (Some (u "All parsing strategies failed"))
           (Some st_raw_fallback)).
Proof.
  apply (padded_done_is_parse_error (u "T") (u "message")
           (u "[DONE]" ++ [13%N]) None).
  - discriminate.
  - reflexivity.
Defined.

(** ** parseSSEStream *)

Lemma emit_returns now requestId fs : forall events0 events,
  emit now requestId fs events0 = Ret events ->
  exists new,
    events = events0 ++ new /\ length new = length fs
    /\ forall i t d,
         nth_error fs i = Some (t, d) ->
         exists ev,
           nth_error new i = Some ev
           /\ parseSSEEvent (now (length events0 + i)%nat) t d requestId
              = Ret ev.
Proof.
  induction fs as [|[t d] fs IH]; intros events0 events H.
  - cbn in H. injection H as <-. exists []. rewrite app_nil_r.
    repeat split. intros [|i] ? ? Hn; discriminate Hn.
  - cbn [emit] in H.
    destruct (parseSSEEvent (now (length events0)) t d requestId) as [ev|]
      eqn:Ev; [|discriminate H].
    cbn [bind] in H. apply IH in H. destruct H as (new & -> & Hl & Hn).
    exists (ev :: new). rewrite <- app_assoc. split; [reflexivity|].
    split; [cbn [length]; lia|].
    intros [|i] t' d' Hi.
    + injection Hi as <- <-. exists ev. rewrite Nat.add_0_r. auto.
    + cbn [nth_error] in *. destruct (Hn i t' d' Hi) as (ev' & H1 & H2).
      exists ev'. split; [exact H1|].
      rewrite length_app in H2. cbn [length] in H2.
      replace (length events0 + S i)%nat with (length events0 + 1 + i)%nat
        by lia.
      exact H2.
Qed.

(** X13. When parseSSEStream returns, it returns one event per frame that
    collected data, in the order of the frames: the i-th event is what
    parseSSEEvent returns on the i-th frame's declared type (message when
    none was given) and its data lines joined by a line feed. *)
Theorem parseSSEStream_returns_frame_events (now : nat -> jstring)
    (requestId : option jstring) (rawSSE : jstring)
    (events : list ParsedSSEEvent) :
  parseSSEStream now requestId rawSSE = Ret events ->
  length events = length (frames (split_lines rawSSE) None [])
  /\ forall i t d,
       nth_error (frames (split_lines rawSSE) None []) i = Some (t, d) ->
       exists ev,
         nth_error events i = Some ev
         /\ parseSSEEvent (now i) t d requestId = Ret ev.
Proof.
  rewrite parseSSEStream_frames. intros H.
  apply emit_returns in H. destruct H as (new & -> & Hl & Hn).
  split; [exact Hl | exact Hn].
Qed.

Lemma parseSSEStream_returns_frame_events_witness :
  length [mkParsedSSEEvent false None (Some (VStr (u "parse_error")))
            (Some (u "a" ++ 10%N :: u "b"))
            (Some (u "All parsing strategies failed"))
            (Some st_raw_fallback)]
  = length (frames (split_lines (u "data: a" ++ 10%N :: u "data: b")) None []).
Proof.
  apply (parseSSEStream_returns_frame_events (fun _ => u "T") None
           (u "data: a" ++ 10%N :: u "data: b")).
  vm_compute. reflexivity.
Defined.

Lemma stream_loop_no_data now requestId lines : forall events cet,
  Forall (fun l => startsWith (u "data: ") l = false) lines ->
  stream_loop now requestId lines events cet [] = Ret events.
Proof.
  induction lines as [|l lines IH]; intros events cet H; [reflexivity|].
  inversion H as [|? ? Hl Hr]; subst. cbn [stream_loop].
  destruct (jstring_eqb (trim l) []).
  - cbn [flush_frame bind]. apply IH. exact Hr.
  - unfold parseSSELine. rewrite Hl.
    destruct (startsWith (u "event: ") l); cbn [fst snd]; apply IH; exact Hr.
Qed.

(** X14. A stream in which no line begins with the data prefix yields no
    event at all, whatever event lines, comments and blank lines it
    holds. *)
Theorem no_data_lines_no_events (now : nat -> jstring)
    (requestId : option jstring) (rawSSE : jstring) :
  Forall (fun l => startsWith (u "data: ") l = false) (split_lines rawSSE) ->
  parseSSEStream now requestId rawSSE = Ret [].
Proof. intros H. apply stream_loop_no_data. exact H. Qed.

Lemma no_data_lines_no_events_witness :
  parseSSEStream (fun _ => u "T") None
    (u "event: ping" ++ 10%N :: u ": keep-alive" ++ 10%N :: 10%N
       :: u "retry: 3000" ++ [10%N])
  = Ret [].
Proof.
  apply (no_data_lines_no_events (fun _ => u "T") None).
  repeat constructor.
Defined.

(** *** Frames written to the wire and read back *)

Lemma join_split_lines d : join_lines (split_lines d) = d.
Proof.
  induction d as [|c d IH]; [reflexivity|]. cbn [split_lines].
  pose proof (split_lines_nonempty d) as Hne.
  destruct (c =? 10)%N eqn:E.
  - apply N.eqb_eq in E. subst c. cbn [join_lines].
    destruct (split_lines d) as [|l ls]; [congruence|].
    cbn [app]. rewrite IH. reflexivity.
  - destruct (split_lines d) as [|l ls]; [congruence|].
    cbn [join_lines] in *. destruct ls; cbn [app]; rewrite IH; reflexivity.
Qed.

Lemma split_lines_no_newline d :
  Forall (fun l => ~ In 10%N l) (split_lines d).
Proof.
  induction d as [|c d IH]; [repeat constructor; auto|]. cbn [split_lines].
  destruct (N.eqb_spec c 10) as [->|Hc]; [constructor; auto|].
  destruct (split_lines d) as [|l ls].
  - constructor; [|constructor]. intros [H|[]]. congruence.
  - inversion IH; subst. constructor; [|assumption].
    intros [H|H]; [congruence | auto].
Qed.

Lemma split_terminated ls :
  Forall (fun l => ~ In 10%N l) ls ->
  split_lines (concat (map (fun l => l ++ [10%N]) ls)) = ls ++ [[]].
Proof.
  induction 1 as [|l ls Hl _ IH]; [reflexivity|].
  cbn [map concat]. rewrite <- app_assoc. cbn [app].
  rewrite split_lines_app, (split_lines_single l Hl), IH. reflexivity.
Qed.

Lemma startsWith_app p s : startsWith p (p ++ s) = true.
Proof.
  induction p as [|a p IH]; [destruct s; reflexivity|].
  cbn [app startsWith]. rewrite N.eqb_refl, IH. reflexivity.
Qed.

Lemma trimStart_snoc_nonspace x c :
  is_js_space c = false -> trimStart (x ++ [c]) <> [].
Proof.
  intros H. induction x as [|y x IH]; cbn [app trimStart].
  - rewrite H. discriminate.
  - destruct (is_js_space y); [exact IH | discriminate].
Qed.

Lemma trim_nonblank c t : is_js_space c = false -> trim (c :: t) <> [].
Proof.
  intros H. unfold trim. cbn [trimStart]. rewrite H. unfold trimEnd.
  cbn [rev]. intros E. apply (f_equal (@rev N)) in E.
  rewrite rev_involutive in E. cbn [rev] in E.
  exact (trimStart_snoc_nonspace (rev t) c H E).
Qed.

Lemma frames_data_lines ls : forall rest cet cd,
  frames (map (fun l => u "data: " ++ l) ls ++ rest) cet cd
  = frames rest cet (cd ++ ls).
Proof.
  induction ls as [|l ls IH]; intros rest cet cd.
  - cbn [map app]. rewrite app_nil_r. reflexivity.
  - cbn [map app frames].
    assert (jstring_eqb (trim (u "data: " ++ l)) [] = false) as ->
      by (apply jstring_eqb_neq; apply trim_nonblank; reflexivity).
    change (startsWith (u "event: ") (u "data: " ++ l)) with false.
    rewrite startsWith_app. cbv iota.
    change (substring_from 6 (u "data: " ++ l)) with l.
    rewrite IH, <- app_assoc. reflexivity.
Qed.

Lemma frames_one_frame t d rest :
  t <> [] -> trim t = t ->
  frames ((u "event: " ++ t)
            :: map (fun l => u "data: " ++ l) (split_lines d) ++ [] :: rest)
    None []
  = (t, d) :: frames rest None [].
Proof.
  intros Ht Htrim. cbn [frames].
  assert (jstring_eqb (trim (u "event: " ++ t)) [] = false) as ->
    by (apply jstring_eqb_neq; apply trim_nonblank; reflexivity).
  rewrite startsWith_app.
  change (substring_from 7 (u "event: " ++ t)) with t. rewrite Htrim.
  rewrite frames_data_lines. cbn [app frames].
  change (jstring_eqb (trim []) []) with true. cbv iota.
  pose proof (split_lines_nonempty d) as Hne.
  pose proof (join_split_lines d) as Hj.
  destruct (split_lines d) as [|l ls]; [congruence|].
  rewrite Hj. destruct t; [congruence | reflexivity].
Qed.

Lemma encode_frame_lines f :
  encode_frame f
  = concat (map (fun l => l ++ [10%N])
              ((u "event: " ++ fst f)
                 :: map (fun l => u "data: " ++ l) (split_lines (snd f))
                 ++ [[]])).
Proof.
  unfold encode_frame. cbn [map concat].
  rewrite map_app, concat_app, map_map.
  cbn [map concat app]. rewrite <- !app_assoc. reflexivity.
Qed.


Lemma encode_stream_lines fs :
  encode_stream fs
  = concat (map (fun l => l ++ [10%N]) (stream_lines fs)).
Proof.
  induction fs as [|f fs IH]; [reflexivity|].
  unfold encode_stream in *. cbn [map concat stream_lines].
  rewrite IH, encode_frame_lines, map_app, concat_app. reflexivity.
Qed.

Lemma stream_lines_no_newline fs :
  Forall frame_ok fs -> Forall (fun l => ~ In 10%N l) (stream_lines fs).
Proof.
  induction 1 as [|f fs (_ & _ & Hf) _ IH]; [constructor|].
  cbn [stream_lines]. apply Forall_app. split; [|exact IH].
  constructor.
  - intros Hin. apply in_app_or in Hin. destruct Hin as [Hin|Hin]; [|auto].
    cbn in Hin. repeat (destruct Hin as [Hin|Hin]; [discriminate Hin|]).
    exact Hin.
  - apply Forall_app. split; [|repeat constructor; auto].
    apply Forall_forall. intros l Hl. apply in_map_iff in Hl.
    destruct Hl as (l0 & <- & Hl0).
    pose proof (split_lines_no_newline (snd f)) as Hs.
    rewrite Forall_forall in Hs. specialize (Hs l0 Hl0).
    intros Hin. apply in_app_or in Hin. destruct Hin as [Hin|Hin]; [|auto].
    cbn in Hin. repeat (destruct Hin as [Hin|Hin]; [discriminate Hin|]).
    exact Hin.
Qed.

Lemma frames_stream_lines fs :
  Forall frame_ok fs -> frames (stream_lines fs ++ [[]]) None [] = fs.
Proof.
  induction 1 as [|[t d] fs (Ht & Htrim & _) _ IH]; [reflexivity|].
  cbn [stream_lines fst snd] in *.
  cbn [app]. rewrite <- !app_assoc. cbn [app]. rewrite frames_one_frame by assumption. rewrite IH. reflexivity.
Qed.

(** X15. Frames written to the wire (an event line, one data line per
    line of the payload, a blank line) are read back as they were: on the
    encoded stream parseSSEStream makes exactly the parseSSEEvent calls of
    the frames, in order, each with its type and with its payload intact,
    line feeds inside the payload included. *)
Theorem encoded_frames_read_back (now : nat -> jstring)
    (requestId : option jstring) (fs : list (jstring * jstring)) :
  Forall frame_ok fs ->
  frames (split_lines (encode_stream fs)) None [] = fs
  /\ parseSSEStream now requestId (encode_stream fs)
     = emit now requestId fs [].
Proof.
  intros H.
  assert (Hf : frames (split_lines (encode_stream fs)) None [] = fs).
  { rewrite encode_stream_lines, split_terminated
      by (apply stream_lines_no_newline; exact H).
    apply frames_stream_lines. exact H. }
  split; [exact Hf|]. rewrite parseSSEStream_frames, Hf. reflexivity.
Qed.

Lemma encoded_frames_read_back_witness :
  frames (split_lines
            (encode_stream
               [(u "delta", uq "{'text':" ++ 10%N :: uq " 'a'}");
                (u "done", u "[DONE]")])) None []
  = [(u "delta", uq "{'text':" ++ 10%N :: uq " 'a'}");
     (u "done", u "[DONE]")].
Proof.
  apply (encoded_frames_read_back (fun _ => u "T") None
           [(u "delta", uq "{'text':" ++ 10%N :: uq " 'a'}");
            (u "done", u "[DONE]")]).
  repeat constructor; cbn; try discriminate;
    intros H; repeat (destruct H as [H|H]; [discriminate H|]); exact H.
Defined.

(** ** normalizeResponse and extractText *)

Lemma normalizeDefined_response (stack : nat) (ps : props) (r : value) :
  lookup (u "status") ps = None ->
  lookup (u "result") ps = None ->
  is_string (lookup (u "message") ps) = false ->
  lookup (u "response") ps = Some r ->
  normalizeDefined (S stack) (VObj ps) = normalizeDefined stack r
  /\ normalizeDefined O (VObj ps) = Throw RangeError.
Proof.
  intros Hs Hr Hm Hresp.
  rewrite (normalizeDefined_eq (S stack) (VObj ps)),
    (normalizeDefined_eq O (VObj ps)).
  unfold normalize_body.
  cbn [truthy negb typeof js_in js_get bind].
  rewrite Hs, Hr, Hresp. cbn [andb bind].
  destruct (lookup (u "message") ps) as [m|]; cbn [bind andb].
  - rewrite Hm. cbn [bind]. split; reflexivity.
  - split; reflexivity.
Qed.

(** X16. An object that has a response property, no status, no result and
    no message that is a string is normalised to what its response
    property is normalised to, by a nested call: with room on the call
    stack for one more nested call than the response property needs; the
    object's other properties play no part. Without room for a nested
    call a RangeError is thrown. *)
Theorem normalizeResponse_follows_response (stack : nat) (ps : props)
    (r : value) :
  lookup (u "status") ps = None ->
  lookup (u "result") ps = None ->
  is_string (lookup (u "message") ps) = false ->
  lookup (u "response") ps = Some r ->
  normalizeResponse (S stack) (Some (VObj ps))
  = normalizeResponse stack (Some r)
  /\ normalizeResponse O (Some (VObj ps)) = Throw RangeError.
Proof.
  intros Hs Hr Hm Hresp. cbn [normalizeResponse].
  apply normalizeDefined_response; assumption.
Qed.

Lemma normalizeResponse_follows_response_witness :
  normalizeResponse 1
    (Some (VObj [(u "message", VNum (Num 7 0));
                 (u "response", VStr (u "hi"));
                 (u "usage", VObj [])]))
  = normalizeResponse 0 (Some (VStr (u "hi"))).
Proof.
  apply (normalizeResponse_follows_response 0
           [(u "message", VNum (Num 7 0)); (u "response", VStr (u "hi"));
            (u "usage", VObj [])]
           (VStr (u "hi"))); reflexivity.
Defined.

(** X17. A payload wrapped depth times as the response property of an
    object costs depth nested calls: with room for at least that many,
    normalizeResponse returns what it returns for the payload with the
    room that is left; with room for fewer it throws a RangeError,
    whatever the payload. *)
Theorem normalizeResponse_nested_response (stack depth : nat) (v : value) :
  normalizeResponse (depth + stack) (Some (wrap_response depth v))
  = normalizeResponse stack (Some v)
  /\ normalizeResponse stack (Some (wrap_response (S stack + depth) v))
     = Throw RangeError.
Proof.
  cbn [normalizeResponse]. split.
  - induction depth as [|depth IH]; [reflexivity|].
    cbn [wrap_response Nat.add]. rewrite normalizeDefined_wrapped. exact IH.
  - revert depth. induction stack as [|stack IH]; intros depth.
    + reflexivity.
    + change (wrap_response (S (S stack) + depth) v)
        with (VObj [(u "response", wrap_response (S stack + depth) v)]).
      rewrite normalizeDefined_wrapped. apply IH.
Qed.

(** X18. Normalising a normalised response gives it back, except that a
    falsy result (which normalizeResponse passes through from an input
    with result but without status) is replaced by the empty object. *)
Theorem normalizeResponse_of_normalized (stack : nat)
    (n : NormalizedAgentResponse) :
  normalizeResponse stack (Some (response_value n))
  = Ret (mkNormalized (status n)
           (if truthy (result n) then result n else VObj [])
           (message n) (metadata n)).
Proof.
  destruct n as [st res msg meta].
  cbn [normalizeResponse]. rewrite normalizeDefined_eq.
  unfold normalize_body, response_value, response_props.
  cbn [status result message metadata].
  destruct st, msg as [m|], meta as [md|]; reflexivity.
Qed.

Lemma lookup_filter (f : jstring -> bool) (k : jstring) (ps : props) :
  lookup k (filter (fun kv => f (fst kv)) ps)
  = if f k then lookup k ps else None.
Proof.
  induction ps as [|[k' v] ps IH]; cbn [filter lookup fst].
  - destruct (f k); reflexivity.
  - destruct (f k') eqn:Fk'; cbn [lookup].
    + destruct (jstring_eqb k k') eqn:E; [|exact IH].
      apply jstring_eqb_eq in E. subst k'. rewrite Fk'. reflexivity.
    + rewrite IH. destruct (f k) eqn:Fk; [|reflexivity].
      destruct (jstring_eqb k k') eqn:E; [|reflexivity].
      apply jstring_eqb_eq in E. subst k'. congruence.
Qed.

(** X19. An object with a status but without a result is normalised to a
    response whose result is the object without its status, message and
    metadata: every other property is kept with its value, and those three
    are reported as status (error only for the string error), message and
    metadata. *)
Theorem normalizeResponse_status_without_result (stack : nat) (ps : props)
    (s : value) :
  lookup (u "status") ps = Some s ->
  lookup (u "result") ps = None ->
  exists rest,
    normalizeResponse stack (Some (VObj ps))
    = Ret (mkNormalized (status_of (Some s)) (VObj rest)
             (lookup (u "message") ps) (lookup (u "metadata") ps))
    /\ forall k,
         lookup k rest
         = if jstring_eqb k (u "status") || jstring_eqb k (u "message")
              || jstring_eqb k (u "metadata")
           then None else lookup k ps.
Proof.
  intros Hs Hr. exists (rest_props (VObj ps)). split.
  - cbn [normalizeResponse]. rewrite normalizeDefined_eq.
    unfold normalize_body.
    cbn [truthy negb typeof js_in js_get bind].
    rewrite Hs, Hr. cbn [andb bind]. reflexivity.
  - intros k. cbn [rest_props].
    rewrite (lookup_filter
               (fun k => negb (jstring_eqb k (u "status")
                               || jstring_eqb k (u "message")
                               || jstring_eqb k (u "metadata")))).
    destruct (jstring_eqb k (u "status") || jstring_eqb k (u "message")
              || jstring_eqb k (u "metadata")); reflexivity.
Qed.

Lemma normalizeResponse_status_without_result_witness :
  exists rest,
    normalizeResponse 0
      (Some (VObj [(u "status", VStr (u "ok")); (u "answer", VStr (u "42"));
                   (u "message", VStr (u "done"))]))
    = Ret (mkNormalized (status_of (Some (VStr (u "ok")))) (VObj rest)
             (lookup (u "message")
                [(u "status", VStr (u "ok")); (u "answer", VStr (u "42"));
                 (u "message", VStr (u "done"))])
             (lookup (u "metadata")
                [(u "status", VStr (u "ok")); (u "answer", VStr (u "42"));
                 (u "message", VStr (u "done"))]))
    /\ forall k,
         lookup k rest
         = if jstring_eqb k (u "status") || jstring_eqb k (u "message")
              || jstring_eqb k (u "metadata")
           then None
           else lookup k
                  [(u "status", VStr (u "ok")); (u "answer", VStr (u "42"));
                   (u "message", VStr (u "done"))].
Proof.
  apply (normalizeResponse_status_without_result 0
           [(u "status", VStr (u "ok")); (u "answer", VStr (u "42"));
            (u "message", VStr (u "done"))]
           (VStr (u "ok"))); reflexivity.
Defined.

(** X20. The text extracted from the normalised form of a primitive: for
    a truthy string, number or boolean it is String of that value; for
    null and the falsy primitives it is the message of the error
    structure. *)
Theorem extractText_of_primitive (stack : nat) (v : value) :
  to_object v = None ->
  (n <- normalizeResponse stack (Some v) ;; Ret (extractText n))
  = Ret (VStr (if truthy v then String_of v
               else u "Empty response from agent")).
Proof.
  intros Ho. cbn [normalizeResponse]. rewrite normalizeDefined_eq.
  unfold normalize_body.
  destruct v as [|b|n|s|l|ps]; try discriminate Ho.
  - reflexivity.
  - destruct b; reflexivity.
  - cbn [truthy]. destruct (negb (mant n =? 0)%Z); cbn [negb]; [|reflexivity].
    cbn [typeof bind ToString stringifiable]. unfold extractText.
    cbn [message result truthy_opt truthy String_of].
    destruct (number_to_string n); reflexivity.
  - destruct s; reflexivity.
Qed.

Lemma extractText_of_primitive_witness :
  (n <- normalizeResponse 0 (Some (VNum (Num 15 (-1)))) ;;
   Ret (extractText n))
  = Ret (VStr (if truthy (VNum (Num 15 (-1)))
               then String_of (VNum (Num 15 (-1)))
               else u "Empty response from agent")).
Proof.
  apply (extractText_of_primitive 0 (VNum (Num 15 (-1)))). reflexivity.
Defined.

(** ** The helpers around the event parser *)





(** X22. What handleSSEEvent does with what parseSSEEvent returned, for
    any set of callbacks: it selects one callback and invokes it when it
    was passed. For a failure that is onParseError with the raw text and
    the error message of the result. For a success the callback is chosen
    by the type that reads on the event itself, own or inherited from the
    prototype that partial recovery gave the payload (tool_blocked,
    tool_error, parse_error, validation_error, else onSuccess), and every
    callback other than onParseError receives that event. *)
Theorem handleSSEEvent_after_parse (provided : handler_slot -> bool)
    (now eventType data : jstring) (requestId : option jstring)
    (e : ParsedSSEEvent) :
  parseSSEEvent now eventType data requestId = Ret e ->
  exists c,
    handleSSEEvent provided e = (if provided (slot_of c) then Some c else None)
    /\ (ev_success e = false ->
        exists raw err,
          ev_raw e = Some raw /\ ev_error e = Some err
          /\ c = onParseError (VStr raw) (VStr err))
    /\ (ev_success e = true ->
        exists ev,
          ev_event e = Some ev
          /\ slot_of c = handler_for (get_named (u "type") ev)
          /\ (slot_of c <> slot_onParseError -> event_of c = Some ev)).
Proof.
  intros H. apply parseSSEEvent_returned in H. destruct H as [Hok Hfail].
  unfold handleSSEEvent. destruct (ev_success e); cbn [negb].
  - destruct (Hok eq_refl) as (ev & t & ts & Hev & Ht & Hty & _).
    rewrite Hev, Hty.
    destruct (is_str (u "tool_blocked") (Some t)) eqn:E1;
      [|destruct (is_str (u "tool_error") (Some t)) eqn:E2;
        [|destruct (is_str (u "parse_error") (Some t)) eqn:E3;
          [|destruct (is_str (u "validation_error") (Some t)) eqn:E4]]];
      (eexists; split; [reflexivity|]; split; [discriminate|];
       intros _; exists ev; split; [reflexivity|];
       unfold handler_for; rewrite Ht, ?E1, ?E2, ?E3, ?E4;
       split; [reflexivity|];
       intros Hn; try reflexivity; exfalso; apply Hn; reflexivity).
  - destruct (Hfail eq_refl) as (_ & _ & (raw & Hraw) & err & Herr & Hne).
    rewrite Hraw, Herr. eexists. split; [reflexivity|].
    split; [intros _|discriminate].
    exists raw, err. repeat split.
    destruct raw, err; try reflexivity; exfalso; apply Hne; reflexivity.
Qed.

Lemma handleSSEEvent_after_parse_witness :
  exists c,
    handleSSEEvent (fun _ => true)
      (mkParsedSSEEvent true
         (Some (RecoveredObject
                  (ParsedPrototype
                     (VObj [(u "type", VStr (u "tool_blocked"))]))
                  [(u "x", VNum (Num 1 0)); (u "timestamp", VStr (u "T"))]))
         (Some (VStr (u "tool_blocked"))) None None
         (Some st_partial_recovery))
    = Some c
    /\ slot_of c = slot_onToolBlocked.
Proof.
  destruct (handleSSEEvent_after_parse (fun _ => true) (u "T") (u "message")
              (uq "} '__proto__': {'type':'tool_blocked'}, 'x': 1") None
              (mkParsedSSEEvent true
                 (Some (RecoveredObject
                          (ParsedPrototype
                             (VObj [(u "type", VStr (u "tool_blocked"))]))
                          [(u "x", VNum (Num 1 0));
                           (u "timestamp", VStr (u "T"))]))
                 (Some (VStr (u "tool_blocked"))) None None
                 (Some st_partial_recovery)))
    as (c & Hc & _ & Hok).
  - vm_compute. reflexivity.
  - exists c. split; [exact Hc|].
    destruct (Hok eq_refl) as (ev & Hev & Hslot & _).
    injection Hev as <-. exact Hslot.
Defined.

(** X23. A parse-error event made by createParseErrorEvent, serialised
    with JSON.stringify and sent as the data of a frame, arrives: for any
    declared type and request id parseSSEEvent returns a success, and
    handleSSEEvent passes to onParseError the first 500 code units of the
    raw text and the error message (Parse error when that is empty);
    getEventMessage of the received event is the error message behind the
    words Parse error. *)
Theorem parse_error_event_delivered (provided : handler_slot -> bool)
    (now error raw : jstring) (requestId : option jstring)
    (now' eventType : jstring) (requestId' : option jstring) :
  provided slot_onParseError = true ->
  exists e ev,
    parseSSEEvent now' eventType
      (JSON_stringify
         (object_value (createParseErrorEvent now error raw requestId)))
      requestId'
    = Ret e
    /\ ev_success e = true /\ ev_event e = Some ev
    /\ handleSSEEvent provided e
       = Some (onParseError (VStr (firstn 500 raw))
                 (VStr (or_string (Some error) (u "Parse error"))))
    /\ getEventMessage ev
       = Ret (VStr (u "Parse error: "
                    ++ or_string (Some error)
                         (u "Failed to parse response"))).
Proof.
  intros Hp. unfold parseSSEEvent, parseSSEEvent_with.
  set (v := object_value (createParseErrorEvent now error raw requestId)).
  assert (Hwf : wf_value v = true) by reflexivity.
  assert (Hd : jstring_eqb (JSON_stringify v) (u "[DONE]") = false).
  { apply jstring_eqb_neq. intros H.
    destruct (stringify_head v Hwf) as (c & t & E & _).
    apply (f_equal (@hd N 0%N)) in H. cbn in H. discriminate H. }
  assert (Hr : robustJSONParse (JSON_stringify v) = Ret (ok_result v st_direct)).
  { apply robustJSONParse_direct. rewrite trim_stringify.
    apply JSON_parse_stringify. exact Hwf. }
  rewrite Hd, Hr. subst v. unfold handleSSEEvent.
  cbn [bind ok_result pr_success pr_data pr_strategy truthy_opt truthy andb
       object_value createParseErrorEvent to_object].
  destruct requestId as [[|c r]|], now as [|c0 n], requestId' as [[|c' r']|],
    error as [|c1 er], raw as [|c2 rw];
    cbn; rewrite ?Hp; eexists; eexists; repeat split.
Qed.

Lemma parse_error_event_delivered_witness :
  exists e ev,
    parseSSEEvent (u "T2") (u "message")
      (JSON_stringify
         (object_value
            (createParseErrorEvent (u "T1") (u "bad json") (u "{oops")
               None)))
      (Some (u "r1"))
    = Ret e
    /\ ev_success e = true /\ ev_event e = Some ev
    /\ handleSSEEvent (fun _ => true) e
       = Some (onParseError (VStr (firstn 500 (u "{oops")))
                 (VStr (or_string (Some (u "bad json")) (u "Parse error"))))
    /\ getEventMessage ev
       = Ret (VStr (u "Parse error: "
                    ++ or_string (Some (u "bad json"))
                         (u "Failed to parse response"))).
Proof.
  apply (parse_error_event_delivered (fun _ => true) (u "T1") (u "bad json")
           (u "{oops") None (u "T2") (u "message") (Some (u "r1"))).
  reflexivity.
Defined.

(** ** safeGet *)



(** X25. What JSON.stringify wrote under a key of an object, safeGet
    reads back from the parsed text: the value of that key, also when it
    is null or otherwise falsy, and never the default. *)
Theorem safeGet_reads_back (inherited : value -> jstring -> bool)
    (ps : props) (key : jstring) (x defaultValue : value) :
  wf_value (VObj ps) = true ->
  lookup key ps = Some x ->
  (r <- robustJSONParse (JSON_stringify (VObj ps)) ;;
   safeGet inherited r key defaultValue)
  = Ret (JSONValue x).
Proof.
  intros Hwf Hk.
  assert (Hr : robustJSONParse (JSON_stringify (VObj ps))
               = Ret (ok_result (VObj ps) st_direct)).
  { apply robustJSONParse_direct. rewrite trim_stringify.
    apply JSON_parse_stringify. exact Hwf. }
  rewrite Hr. cbn [bind]. unfold safeGet.
  cbn [ok_result pr_success pr_data truthy_opt truthy andb to_object
       own_property].
  rewrite Hk. reflexivity.
Qed.

Lemma safeGet_reads_back_witness :
  (r <- robustJSONParse
          (JSON_stringify
             (VObj [(u "id", VNum (Num 7 0)); (u "next", VNull)])) ;;
   safeGet (fun _ _ => false) r (u "next") (VStr (u "none")))
  = Ret (JSONValue VNull).
Proof.
  apply (safeGet_reads_back (fun _ _ => false)
           [(u "id", VNum (Num 7 0)); (u "next", VNull)] (u "next")
           VNull (VStr (u "none"))); reflexivity.
Defined.

(** ** parseSSEStream on streams put together *)

Lemma frames_blank l1 l2 : forall cet cd,
  frames (l1 ++ [] :: l2) cet cd = frames l1 cet cd ++ frames l2 None [].
Proof.
  induction l1 as [|line l1 IH]; intros cet cd.
  - cbn [app frames]. rewrite trim_nil. cbn. reflexivity.
  - cbn [app frames].
    destruct (jstring_eqb (trim line) []).
    + rewrite IH, app_assoc. reflexivity.
    + destruct (startsWith (u "event: ") line); [apply IH|].
      destruct (startsWith (u "data: ") line); apply IH.
Qed.

Lemma emit_ext now1 now2 requestId fs :
  (forall i, now1 i = now2 i) ->
  forall events, emit now1 requestId fs events = emit now2 requestId fs events.
Proof.
  intros Hn. induction fs as [|[t d] fs IH]; intros events; [reflexivity|].
  cbn [emit]. rewrite Hn.
  destruct (parseSSEEvent _ t d requestId); cbn [bind]; auto.
Qed.

Lemma emit_shift requestId fs : forall now events,
  emit now requestId fs events
  = (new <- emit (fun i => now (length events + i)%nat) requestId fs [] ;;
     Ret (events ++ new)).
Proof.
  induction fs as [|[t d] fs IH]; intros now events.
  - cbn [emit bind]. rewrite app_nil_r. reflexivity.
  - cbn [emit length]. rewrite Nat.add_0_r.
    destruct (parseSSEEvent (now (length events)) t d requestId) as [ev|err];
      cbn [bind]; [|reflexivity].
    rewrite (IH now (events ++ [ev])).
    rewrite (IH (fun i => now (length events + i)%nat) ([] ++ [ev])).
    cbn [app length].
    rewrite (emit_ext
               (fun i => now (length (events ++ [ev]) + i)%nat)
               (fun i => now (length events + (1 + i))%nat))
      by (intros i; rewrite length_app; cbn [length]; f_equal; lia).
    destruct (emit _ requestId fs []) as [new|err]; cbn [bind]; [|reflexivity].
    rewrite <- app_assoc. reflexivity.
Qed.

(** X26. A blank line separates completely: parseSSEStream on two
    streams joined by two line feeds returns the events of the first
    followed by the events of the second (each parseSSEEvent call reading
    the clock in turn), and throws when either throws; an event line of
    the first that no data followed does not reach into the second. *)
Theorem parseSSEStream_joined (now : nat -> jstring)
    (requestId : option jstring) (a b : jstring) :
  parseSSEStream now requestId (a ++ 10%N :: 10%N :: b)
  = (ea <- parseSSEStream now requestId a ;;
     eb <- parseSSEStream (fun i => now (length ea + i)%nat) requestId b ;;
     Ret (ea ++ eb)).
Proof.
  rewrite !parseSSEStream_frames, split_lines_app.
  cbn [split_lines]. rewrite N.eqb_refl, frames_blank, emit_app.
  destruct (emit now requestId (frames (split_lines a) None []) [])
    as [ea|err]; cbn [bind]; [|reflexivity].
  rewrite parseSSEStream_frames. apply emit_shift.
Qed.

(** ** A fenced block inside prose *)

Lemma prose_start_spec c :
  prose_start c = true ->
  ((65 <= c <= 90) \/ (97 <= c <= 122))%N
  /\ c <> 116%N /\ c <> 102%N /\ c <> 110%N.
Proof.
  unfold prose_start. intros H.
  apply andb_prop in H. destruct H as [Hl Hn].
  apply negb_true_iff in Hn. apply orb_false_iff in Hn.
  destruct Hn as [Hn H3]. apply orb_false_iff in Hn. destruct Hn as [H1 H2].
  apply N.eqb_neq in H1, H2, H3.
  repeat split; try assumption.
  apply orb_prop in Hl. destruct Hl as [Hl|Hl];
    apply andb_prop in Hl; destruct Hl as [Ha Hb];
    apply N.leb_le in Ha, Hb; [left | right]; split; assumption.
Qed.

Lemma prose_start_nonspace c : prose_start c = true -> is_js_space c = false.
Proof.
  intros H. apply prose_start_spec in H. destruct H as (Hr & _).
  unfold is_js_space. decide_char.
Qed.

Lemma JSON_parse_prose c s :
  prose_start c = true -> JSON_parse (c :: s) = Throw SyntaxError.
Proof.
  intros H. apply prose_start_spec in H. destruct H as (Hr & Ht & Hf & Hn).
  unfold JSON_parse. cbn [skip_ws].
  assert (is_json_ws c = false) as -> by (unfold is_json_ws; decide_char).
  cbn [length parse_value].
  assert ((c =? 123)%N = false) as -> by (apply N.eqb_neq; lia).
  assert ((c =? 91)%N = false) as -> by (apply N.eqb_neq; lia).
  assert ((c =? 34)%N = false) as -> by (apply N.eqb_neq; lia).
  assert (startsWith (u "true") (c :: s) = false) as ->.
  { change (u "true") with [116; 114; 117; 101]%N. cbn [startsWith].
    assert ((116 =? c)%N = false) as -> by (apply N.eqb_neq; lia).
    reflexivity. }
  assert (startsWith (u "false") (c :: s) = false) as ->.
  { change (u "false") with [102; 97; 108; 115; 101]%N. cbn [startsWith].
    assert ((102 =? c)%N = false) as -> by (apply N.eqb_neq; lia).
    reflexivity. }
  assert (startsWith (u "null") (c :: s) = false) as ->.
  { change (u "null") with [110; 117; 108; 108]%N. cbn [startsWith].
    assert ((110 =? c)%N = false) as -> by (apply N.eqb_neq; lia).
    reflexivity. }
  unfold parse_number.
  assert ((c =? 45)%N = false) as -> by (apply N.eqb_neq; lia).
  unfold parse_number_body. cbn [lex_digits].
  assert (is_digit c = false) as -> by (unfold is_digit; decide_char).
  reflexivity.
Qed.

Lemma trimStart_snoc_keeps x c :
  is_js_space c = false -> exists x', trimStart (x ++ [c]) = x' ++ [c].
Proof.
  intros H. induction x as [|y x IH]; cbn [app trimStart].
  - rewrite H. exists []. reflexivity.
  - destruct (is_js_space y); [exact IH | exists (y :: x); reflexivity].
Qed.

Lemma trim_cons_nonspace c t :
  is_js_space c = false -> exists t', trim (c :: t) = c :: t'.
Proof.
  intros H. unfold trim. cbn [trimStart]. rewrite H. unfold trimEnd.
  cbn [rev]. destruct (trimStart_snoc_keeps (rev t) c H) as (x' & ->).
  rewrite rev_app_distr. cbn [rev app]. eauto.
Qed.

Lemma cleanJsonString_prose c s :
  prose_start c = true -> exists s', cleanJsonString (c :: s) = c :: s'.
Proof.
  intros H. pose proof (prose_start_nonspace c H) as Hs.
  apply prose_start_spec in H. destruct H as (Hr & _).
  unfold cleanJsonString. rewrite fix_newlines_noop.
  destruct (trim_cons_nonspace c s Hs) as (t' & ->).
  cbn [strip_trailing_commas].
  assert ((c =? 44)%N = false) as -> by (apply N.eqb_neq; lia).
  cbn [andb]. unfold strip_control. cbn [filter].
  assert (is_control c = false) as -> by (unfold is_control; decide_char).
  cbn [negb strip_bom].
  assert ((c =? 65279)%N = false) as -> by (apply N.eqb_neq; lia).
  eauto.
Qed.

Lemma trimEnd_app_nonspace z q p :
  is_js_space q = false -> trimEnd (z ++ q :: p) = z ++ q :: trimEnd p.
Proof.
  intros H. unfold trimEnd. rewrite rev_app_distr. cbn [rev].
  rewrite <- app_assoc. cbn [app].
  destruct (trimStart_all_or_some (rev p)) as [Hp|Hp].
  - rewrite trimStart_app_spaces by exact Hp.
    rewrite (trimStart_spaces _ Hp). cbn [trimStart]. rewrite H.
    cbn [rev]. rewrite rev_involutive. reflexivity.
  - rewrite trimStart_app_nonspace by exact Hp.
    rewrite rev_app_distr. cbn [rev]. rewrite rev_involutive.
    rewrite <- app_assoc. reflexivity.
Qed.

Lemma find_sub_fence_found x rest :
  ~ In 96%N x -> find_sub fence (x ++ fence ++ rest) = Some (x, rest).
Proof.
  induction x as [|a x IH]; intros Hn.
  - reflexivity.
  - cbn [app]. unfold fence in *. cbn [find_sub startsWith].
    assert ((96 =? a)%N = false) as ->
      by (apply N.eqb_neq; intros E; apply Hn; left; symmetry; exact E).
    cbn [andb]. rewrite IH; [reflexivity|].
    intros Hin. apply Hn. right. exact Hin.
Qed.

Lemma spaces_no_backquote ws : forallb is_js_space ws = true -> ~ In 96%N ws.
Proof.
  intros H Hin. rewrite forallb_forall in H. specialize (H _ Hin).
  discriminate H.
Qed.

Lemma trim_head_nonspace h t : trim (h :: t) = h :: t -> is_js_space h = false.
Proof.
  intros H. destruct (is_js_space h) eqn:E; [|reflexivity].
  unfold trim in H. cbn [trimStart] in H. rewrite E in H.
  pose proof (trim_length t) as Hl. unfold trim in Hl. rewrite H in Hl.
  cbn [length] in Hl. lia.
Qed.

Lemma trim_prose_fence c x post :
  prose_start c = true ->
  trim ((c :: x) ++ fence ++ post) = (c :: x) ++ fence ++ trimEnd post.
Proof.
  intros Hc. unfold trim. cbn [app trimStart].
  rewrite (prose_start_nonspace c Hc).
  change (c :: x ++ fence ++ post)
    with ((c :: x) ++ [96; 96]%N ++ 96%N :: post).
  rewrite app_assoc, trimEnd_app_nonspace by reflexivity.
  rewrite <- app_assoc. reflexivity.
Qed.

(** X27. A reply that begins with prose and holds a fenced json block
    whose content is the serialisation of a JSON value v (no backquote
    inside, white space around it allowed) is parsed to v with strategy
    extracted, whatever follows the closing fence. *)
Theorem fenced_json_in_prose (c : char) (pre ws1 ws2 post : jstring)
    (v : value) :
  prose_start c = true ->
  ~ In 96%N (c :: pre) ->
  forallb is_js_space ws1 = true -> forallb is_js_space ws2 = true ->
  wf_value v = true -> ~ In 96%N (JSON_stringify v) ->
  robustJSONParse
    (c :: pre ++ fence ++ u "json" ++ ws1 ++ JSON_stringify v ++ ws2
       ++ fence ++ post)
  = Ret (ok_result v st_extracted).
Proof.
  intros Hc Hpre Hw1 Hw2 Hwf Hv.
  pose proof (JSON_parse_stringify v Hwf) as Hparse.
  pose proof (trim_stringify v) as Htrim.
  set (S := JSON_stringify v) in *.
  destruct S as [|h t] eqn:ES; [discriminate Hparse|].
  pose proof (trim_head_nonspace h t Htrim) as Hh.
  assert (Hshape : forall tail,
             c :: pre ++ fence ++ u "json" ++ ws1 ++ (h :: t) ++ ws2 ++ tail
             = (c :: pre ++ fence ++ u "json" ++ ws1 ++ (h :: t) ++ ws2)
                 ++ tail).
  { intros tail. cbn [app]. rewrite <- !app_assoc. cbn [app].
    rewrite <- !app_assoc. reflexivity. }
  assert (HT : trim (c :: pre ++ fence ++ u "json" ++ ws1 ++ (h :: t) ++ ws2
                       ++ fence ++ post)
               = c :: pre ++ fence ++ u "json" ++ ws1 ++ (h :: t) ++ ws2
                   ++ fence ++ trimEnd post).
  { rewrite !Hshape. apply trim_prose_fence. exact Hc. }
  unfold robustJSONParse. cbv beta iota zeta. rewrite HT.
  rewrite (JSON_parse_prose c _ Hc).
  destruct (cleanJsonString_prose c
              (pre ++ fence ++ u "json" ++ ws1 ++ (h :: t) ++ ws2
                 ++ fence ++ trimEnd post) Hc) as (s' & ->).
  rewrite (JSON_parse_prose c s' Hc).
  cbn [bind try_or].
  assert (HE : extractJsonFromText
                 (c :: pre ++ fence ++ u "json" ++ ws1 ++ (h :: t) ++ ws2
                    ++ fence ++ trimEnd post)
               = Some (h :: t)).
  { unfold extractJsonFromText, match_code_block.
    change (c :: pre ++ fence ++ u "json" ++ ws1 ++ (h :: t) ++ ws2
              ++ fence ++ trimEnd post)
      with ((c :: pre) ++ fence ++ u "json" ++ ws1 ++ (h :: t) ++ ws2
              ++ fence ++ trimEnd post).
    rewrite find_sub_fence_found by exact Hpre.
    rewrite startsWith_app.
    change (skipn 4 (u "json" ++ ws1 ++ (h :: t) ++ ws2 ++ fence
                       ++ trimEnd post))
      with (ws1 ++ (h :: t) ++ ws2 ++ fence ++ trimEnd post).
    rewrite trimStart_app_spaces by exact Hw1.
    cbn [app trimStart]. rewrite Hh.
    change (h :: t ++ ws2 ++ fence ++ trimEnd post)
      with ((h :: t) ++ ws2 ++ fence ++ trimEnd post).
    rewrite app_assoc.
    rewrite find_sub_fence_found.
    - rewrite <- (trim_surrounded [] (h :: t) ws2 eq_refl Hw2) in Htrim.
      cbn [app] in Htrim. cbn [app]. rewrite Htrim. reflexivity.
    - intros Hin. apply in_app_or in Hin. destruct Hin as [Hin|Hin];
        [exact (Hv Hin) | exact (spaces_no_backquote ws2 Hw2 Hin)]. }
  rewrite HE. rewrite Hparse. reflexivity.
Qed.

Lemma fenced_json_in_prose_witness :
  robustJSONParse
    (ch "H" :: u "ere is the result: " ++ fence ++ u "json" ++ [10%N]
       ++ JSON_stringify
            (VObj [(u "status", VStr (u "success"));
                   (u "result", VObj [(u "n", VNum (Num 3 0))])])
       ++ [10%N] ++ fence ++ u " Hope this helps.")
  = Ret (ok_result
           (VObj [(u "status", VStr (u "success"));
                  (u "result", VObj [(u "n", VNum (Num 3 0))])])
           st_extracted).
Proof.
  refine (fenced_json_in_prose (ch "H") (u "ere is the result: ")
            [10%N] [10%N] (u " Hope this helps.")
            (VObj [(u "status", VStr (u "success"));
                   (u "result", VObj [(u "n", VNum (Num 3 0))])])
            _ _ _ _ _ _).
  - reflexivity.
  - vm_compute. intros H.
    repeat (destruct H as [H|H]; [discriminate H|]). exact H.
  - reflexivity.
  - reflexivity.
  - reflexivity.
  - vm_compute. intros H.
    repeat (destruct H as [H|H]; [discriminate H|]). exact H.
Defined.

(** ** parseSSEData *)

(** X28. parseSSEData takes a payload with or without the data prefix:
    for every JSON value v, both JSON.stringify(v) and the same text behind
    the prefix are parsed to v with strategy direct; the completion marker
    behind the prefix gives the done object with strategy sse_done. *)
Theorem parseSSEData_reads_payload (v : value) :
  wf_value v = true ->
  parseSSEData (u "data: " ++ JSON_stringify v) = Ret (ok_result v st_direct)
  /\ parseSSEData (JSON_stringify v) = Ret (ok_result v st_direct)
  /\ parseSSEData (u "data: [DONE]")
     = Ret (ok_result (VObj [(u "done", VBool true)]) st_sse_done).
Proof.
  intros Hwf.
  pose proof (JSON_parse_stringify v Hwf) as Hparse.
  assert (Hr : robustJSONParse (JSON_stringify v)
               = Ret (ok_result v st_direct)).
  { apply robustJSONParse_direct. rewrite trim_stringify. exact Hparse. }
  assert (Hp : startsWith (u "data: ") (JSON_stringify v) = false).
  { destruct (JSON_stringify v) as [|c s]; [reflexivity|].
    change (u "data: ") with [100; 97; 116; 97; 58; 32]%N.
    cbn [startsWith]. destruct (N.eqb_spec 100 c) as [<-|_]; [|reflexivity].
    rewrite JSON_parse_prose in Hparse by reflexivity. discriminate Hparse. }
  assert (Hd : jstring_eqb (JSON_stringify v) (u "[DONE]") = false).
  { apply jstring_eqb_neq. intros E. rewrite E in Hparse.
    vm_compute in Hparse. discriminate Hparse. }
  unfold parseSSEData.
  rewrite startsWith_app, Hp.
  change (substring_from 6 (u "data: " ++ JSON_stringify v))
    with (JSON_stringify v).
  rewrite Hd, Hr. repeat split.
Qed.

Lemma parseSSEData_reads_payload_witness :
  parseSSEData (u "data: " ++ JSON_stringify (VArr [VBool true; VNull]))
  = Ret (ok_result (VArr [VBool true; VNull]) st_direct).
Proof.
  apply (parseSSEData_reads_payload (VArr [VBool true; VNull])).
  reflexivity.
Defined.
